(** * Word-frequency analysis of an e-book: a shallow embedding of [main.py]

    The development follows the source file top to bottom: the table of
    Portuguese compound expressions, [replace_compounds], [clean_text],
    [html_to_text], [get_word_frequencies], [analyze_epub],
    [export_to_csv], [print_compounds_found] and [print_chapter_analysis].
    Python values are modelled as follows.

    - [str] is a sequence of Unicode code points ([list N]); literals are
      written as UTF-8 text and decoded by [u].
    - [bytes] is [list byte]; [bytes.decode("utf-8")] is the strict decoder
      [decode_utf8].
    - a part of the container is an [EpubItem] with the bytes stored for
      it; what [item.get_content()] hands to the program is computed by
      [ebooklib] from them and is a function of the library.
    - a [dict] whose iteration order is observable (the compound table) is
      an association list; the other dicts and [Counter]s are [gmap]s and
      the [set] of words is a [gset].
    - an exception is a value of [exn]; code that can raise returns a
      [result].
    - the files written are a [FileSystem] passed from call to call; the
      model takes every write: that the operating system refuses a path
      is outside of it.
    - what the two report functions [print] is a list of lines, kept
      apart from the files; a [print] raises when the console does not
      encode the line, and formatting an [int] raises beyond the digit
      limit of the conversion; the message of the handler in
      [analyze_epub] is not modelled.
    - the library functions whose definition lies outside the
      repository ([html.unescape], [str.lower], [str.isalnum], the
      parser behind [BeautifulSoup], [EpubHtml.get_content]) are the
      fields of the class [Library], with the facts the proofs use;
      those that can raise return a [result]. *)

From Stdlib Require Import ZArith NArith List Sorting.Sorted Sorting.Permutation.
From Stdlib Require Import Strings.String Strings.Byte Numbers.DecimalString.
From stdpp Require Import base option list gmap sets fin_maps sorting.

Local Open Scope N_scope.

(** ** Exceptions *)

Inductive exn :=
| UnicodeDecodeError
| KeyError
| EpubException
| ValueError
| AttributeError
| ParserRejectedMarkup
| UnicodeEncodeError.

Inductive result (A : Type) :=
| Ok (a : A)
| Raise (e : exn).
Arguments Ok {A} a.
Arguments Raise {A} e.

#[global] Instance result_ret : MRet result := λ A a, Ok a.

#[global] Instance result_bind : MBind result := λ A B k r,
  match r with
  | Ok a => k a
  | Raise e => Raise e
  end.

(** [for x in xs: acc = body(acc, x)], where the body may raise. *)
Fixpoint for_each {A S} (body : S → A → result S) (xs : list A) (acc : S)
  : result S :=
  match xs with
  | [] => Ok acc
  | x :: xs' => acc' ← body acc x; for_each body xs' acc'
  end.

(** ** Strings *)

Abbreviation str := (list N).

Module Utf8.

Definition between (lo hi b : N) : bool := (lo <=? b) && (b <=? hi).

Definition cont (b : N) : bool := between 0x80 0xBF b.

(** Range of the second byte of a three-byte sequence: [E0] excludes
    overlong forms, [ED] excludes the surrogates. *)
Definition second3 (b0 b1 : N) : bool :=
  if b0 =? 0xE0 then between 0xA0 0xBF b1
  else if b0 =? 0xED then between 0x80 0x9F b1
  else cont b1.

(** Range of the second byte of a four-byte sequence: [F0] excludes
    overlong forms, [F4] stops at U+10FFFF. *)
Definition second4 (b0 b1 : N) : bool :=
  if b0 =? 0xF0 then between 0x90 0xBF b1
  else if b0 =? 0xF4 then between 0x80 0x8F b1
  else cont b1.

Fixpoint decode (bs : list N) : option str :=
  match bs with
  | [] => Some []
  | b0 :: r0 =>
    if b0 <? 0x80 then cons b0 <$> decode r0
    else if between 0xC2 0xDF b0 then
      match r0 with
      | b1 :: r1 =>
        if cont b1
        then cons ((b0 - 0xC0) * 64 + (b1 - 0x80)) <$> decode r1
        else None
      | _ => None
      end
    else if between 0xE0 0xEF b0 then
      match r0 with
      | b1 :: b2 :: r2 =>
        if second3 b0 b1 && cont b2
        then cons ((b0 - 0xE0) * 4096 + (b1 - 0x80) * 64 + (b2 - 0x80))
               <$> decode r2
        else None
      | _ => None
      end
    else if between 0xF0 0xF4 b0 then
      match r0 with
      | b1 :: b2 :: b3 :: r3 =>
        if second4 b0 b1 && cont b2 && cont b3
        then cons ((b0 - 0xF0) * 262144 + (b1 - 0x80) * 4096
                   + (b2 - 0x80) * 64 + (b3 - 0x80)) <$> decode r3
        else None
      | _ => None
      end
    else None
  end.

End Utf8.

(** [content.decode("utf-8")]: strict decoding, [UnicodeDecodeError] on
    malformed input. *)
Definition decode_utf8 (bs : list byte) : result str :=
  match Utf8.decode (map Byte.to_N bs) with
  | Some s => Ok s
  | None => Raise UnicodeDecodeError
  end.

(** String literals of the source, written as UTF-8 text. *)
Definition u (s : string) : str :=
  default [] (Utf8.decode (map Byte.to_N (list_byte_of_string s))).
Arguments u s%_string : simpl never.

Definition SPACE : N := 0x20.
Definition UNDERSCORE : N := 0x5F.
Definition AMPERSAND : N := 0x26.

(** [str.isspace] on one code point; also the class [\s] of [re] on [str]
    patterns and the separator set of [str.split()] and [str.strip()]. *)
Definition isspace (c : N) : bool :=
  Utf8.between 0x09 0x0D c || Utf8.between 0x1C 0x1F c || (c =? 0x20)
  || (c =? 0x85) || (c =? 0xA0) || (c =? 0x1680)
  || Utf8.between 0x2000 0x200A c || (c =? 0x2028) || (c =? 0x2029)
  || (c =? 0x202F) || (c =? 0x205F) || (c =? 0x3000).

(** [str.lower] on the code points up to U+00FF, where it acts character
    by character: [A-Z] and [À-Þ] without [×] move up by 32. *)
Definition lower_latin1 (c : N) : N :=
  if Utf8.between 0x41 0x5A c
     || (Utf8.between 0xC0 0xDE c && negb (c =? 0xD7))
  then c + 32 else c.

(** [s.startswith(p)] *)
Fixpoint startswith (p s : str) : bool :=
  match p, s with
  | [], _ => true
  | _ :: _, [] => false
  | a :: p', b :: s' => (a =? b) && startswith p' s'
  end.

(** [s.replace(old, new)] for a non-empty [old]: one scan from the left;
    a match emits [new] and the scan resumes after the matched
    characters.  [skip] counts the characters of the current match that
    are still to be passed over. *)
Fixpoint replace_scan (old new : str) (skip : nat) (s : str) : str :=
  match s with
  | [] => []
  | c :: s' =>
    match skip with
    | S k => replace_scan old new k s'
    | O =>
      if startswith old s
      then new ++ replace_scan old new (length old - 1) s'
      else c :: replace_scan old new 0 s'
    end
  end.

(** With an empty [old] Python puts [new] before every character and at
    the end. *)
Definition replace (old new s : str) : str :=
  match old with
  | [] => new ++ flat_map (λ c, c :: new) s
  | _ :: _ => replace_scan old new 0 s
  end.

(** [s.strip()]: leading and trailing whitespace removed. *)
Fixpoint lstrip (s : str) : str :=
  match s with
  | [] => []
  | c :: s' => if isspace c then lstrip s' else s
  end.

Definition rstrip (s : str) : str := rev (lstrip (rev s)).
Definition strip (s : str) : str := rstrip (lstrip s).

(** [s.split()]: the maximal runs of non-whitespace characters.  [cur]
    holds the characters of the run being read. *)
Fixpoint split_scan (cur : str) (s : str) : list str :=
  match s with
  | [] => match cur with [] => [] | _ :: _ => [cur] end
  | c :: s' =>
    if isspace c
    then match cur with
         | [] => split_scan [] s'
         | _ :: _ => cur :: split_scan [] s'
         end
    else split_scan (cur ++ [c]) s'
  end.

Definition split (s : str) : list str := split_scan [] s.

(** ** Sorting

    [sorted] is stable: elements that compare equal keep their input
    order.  Insertion with [le] placing an element before its equals is
    stable too, so it returns the same list. *)
Section Sorted.
Context {A : Type} (le : A → A → bool).

Fixpoint insert_sorted (x : A) (l : list A) : list A :=
  match l with
  | [] => [x]
  | y :: l' => if le x y then x :: l else y :: insert_sorted x l'
  end.

Fixpoint sorted (l : list A) : list A :=
  match l with
  | [] => []
  | x :: l' => insert_sorted x (sorted l')
  end.
End Sorted.

(** [a <= b] on [str]: lexicographic by code point, a proper prefix
    first. *)
Fixpoint str_le (a b : str) : bool :=
  match a, b with
  | [], _ => true
  | _ :: _, [] => false
  | x :: a', y :: b' => (x <? y) || ((x =? y) && str_le a' b')
  end.

(** ** Markup trees

    What [BeautifulSoup(content, "html.parser")] builds: text nodes and
    elements with their children, in document order.  Comments,
    declarations and processing instructions are no elements and hold no
    text that [get_text] returns; they are left out of the tree. *)
#[local] Set Warnings "-register-all".
Inductive node :=
| Text (s : str)
| Tag (name : str) (contents : list node).

Definition soup := list node.

(** [tag.get_text()]: the text nodes below the element, joined in
    document order. *)
Fixpoint get_text (n : node) : str :=
  match n with
  | Text s => s
  | Tag _ contents => flat_map get_text contents
  end.

Definition soup_get_text (sp : soup) : str := flat_map get_text sp.

(** [soup.find(names)]: the first element in document order whose name
    is one of [names], or [None]. *)
Fixpoint find_in (names : list str) (n : node) : option node :=
  match n with
  | Text _ => None
  | Tag name contents =>
    if bool_decide (name ∈ names) then Some n
    else (fix first_of (l : list node) : option node :=
            match l with
            | [] => None
            | c :: l' =>
              match find_in names c with
              | Some r => Some r
              | None => first_of l'
              end
            end) contents
  end.

Fixpoint find (names : list str) (sp : soup) : option node :=
  match sp with
  | [] => None
  | c :: sp' =>
    match find_in names c with
    | Some r => Some r
    | None => find names sp'
    end
  end.

(** [for t in soup(names): t.decompose()]: every element named in
    [names] leaves the tree with all it contains. *)
Fixpoint decompose_in (names : list str) (n : node) : list node :=
  match n with
  | Text s => [Text s]
  | Tag name contents =>
    if bool_decide (name ∈ names) then []
    else [Tag name (flat_map (decompose_in names) contents)]
  end.

Definition decompose_all (names : list str) (sp : soup) : soup :=
  flat_map (decompose_in names) sp.

(** ** The parts of a container *)

(** The item types of [ebooklib]. *)
Inductive item_type :=
| ITEM_UNKNOWN | ITEM_IMAGE | ITEM_STYLE | ITEM_SCRIPT | ITEM_NAVIGATION
| ITEM_VECTOR | ITEM_FONT | ITEM_VIDEO | ITEM_AUDIO | ITEM_DOCUMENT
| ITEM_COVER | ITEM_SMIL.

#[global] Instance item_type_eq_dec : EqDecision item_type.
Proof. solve_decision. Defined.

(** A part as [ebooklib] holds it: its type, its internal file name and
    the bytes stored for it in the container. *)
Record EpubItem := {
  get_type : item_type;
  get_name : str;
  file_content : list byte;
}.

(** What [item.get_content()] returns for a document part: the bytes of
    the document that [EpubHtml.get_content] serialises, or the empty
    [str] that it returns when it cannot parse the part. *)
Inductive returned :=
| Bytes (b : list byte)
| EmptyStr.

(** ** Library functions

    The functions of the Python runtime and of the libraries that the
    program calls and whose full definition lies outside the repository.
    The laws are the facts about them that the proofs use. *)
Class Library := {
  (** [html.unescape]: it raises [ValueError] when [int] refuses the
      digits of a decimal character reference *)
  html_unescape : str → result str;
  (** [str.lower] *)
  str_lower : str → str;
  (** [str.isalnum] on one code point: with [_], the class [\w] *)
  isalnum : N → bool;
  (** the tree builder of [BeautifulSoup(_, "html.parser")]: it raises
      when [html.parser] rejects the markup *)
  html_parser : str → result (list node);
  (** [item.get_content()] of a document part: [ebooklib] parses the
      stored bytes and serialises a document of its own around the
      children of their [body] *)
  get_content : EpubItem → result returned;
  (** whether [sys.stdout] can encode a text: [print] raises
      [UnicodeEncodeError] on a text that it cannot *)
  stdout_encodes : str → bool;
  (** [html.unescape] returns its argument when it holds no [&] *)
  html_unescape_plain : ∀ s, AMPERSAND ∉ s → html_unescape s = Ok s;
  (** [int] accepts at most 4300 decimal digits (the default limit of
      CPython 3.11): a longer decimal character reference makes
      [html.unescape] raise *)
  html_unescape_digits :
    ∀ pre ds post,
      Forall (λ c, Utf8.between 0x30 0x39 c = true) ds →
      (4300 < length ds)%nat →
      html_unescape (pre ++ AMPERSAND :: 0x23 :: ds ++ post)
      = Raise ValueError;
  (** up to U+00FF, [str.lower] maps character by character *)
  str_lower_latin1 :
    ∀ s, Forall (λ c, c ≤ 0xFF) s → str_lower s = map lower_latin1 s;
  (** the bytes that [get_content] returns are written by
      [etree.tostring(_, encoding='utf-8')]: they decode *)
  get_content_utf8 :
    ∀ item b, get_content item = Ok (Bytes b) →
              ∃ content, decode_utf8 b = Ok content;
}.

(** ** The compound table *)

Definition PORTUGUESE_COMPOUNDS : list (str * str) := [
  (u "o que", u "o_que");
  (u "por que", u "por_que");
  (u "para que", u "para_que");
  (u "de acordo com", u "de_acordo_com");
  (u "ao lado de", u "ao_lado_de");
  (u "em frente", u "em_frente");
  (u "em frente a", u "em_frente_a");
  (u "dentro de", u "dentro_de");
  (u "fora de", u "fora_de");
  (u "em cima de", u "em_cima_de");
  (u "em baixo de", u "em_baixo_de");
  (u "a partir de", u "a_partir_de");
  (u "até logo", u "até_logo");
  (u "com certeza", u "com_certeza");
  (u "mais ou menos", u "mais_ou_menos");
  (u "todo mundo", u "todo_mundo");
  (u "todo dia", u "todo_dia");
  (u "boa noite", u "boa_noite");
  (u "bom dia", u "bom_dia");
  (u "boa tarde", u "boa_tarde");
  (u "de vez em quando", u "de_vez_em_quando");
  (u "de repente", u "de_repente");
  (u "às vezes", u "às_vezes");
  (u "por isso", u "por_isso");
  (u "ou seja", u "ou_seja");
  (u "pelo menos", u "pelo_menos");
  (u "assim que", u "assim_que");
  (u "mesmo que", u "mesmo_que");
  (u "antes de", u "antes_de");
  (u "depois de", u "depois_de");
  (u "tem que", u "tem_que");
  (u "pode ser", u "pode_ser");
  (u "quer dizer", u "quer_dizer");
  (u "ainda não", u "ainda_não");
  (u "já não", u "já_não");
  (u "nem mesmo", u "nem_mesmo")
].

(** [d.keys()] and [d[k]] of a dict kept in insertion order. *)
Definition keys {V} (d : list (str * V)) : list str := map fst d.

Fixpoint getitem {V} (d : list (str * V)) (k : str) : result V :=
  match d with
  | [] => Raise KeyError
  | (k', v) :: d' => if bool_decide (k' = k) then Ok v else getitem d' k
  end.

(** [sorted(PORTUGUESE_COMPOUNDS.keys(), key=len, reverse=True)]: longest
    first, phrases of equal length in table order. *)
Definition sorted_compounds : list str :=
  sorted (λ a b, (length b <=? length a)%nat) (keys PORTUGUESE_COMPOUNDS).

Section Normalizer.
Context `{Library}.

Definition replace_compounds (text : str) : result str :=
  let processed_text := str_lower text in
  for_each
    (λ processed_text compound,
       placeholder ← getitem PORTUGUESE_COMPOUNDS compound;
       mret (replace compound placeholder processed_text))
    sorted_compounds processed_text.

(** The characters that [[^a-záéíóúâêîôûãõàèìòùäëïöüçñ\s_]] does not
    match. *)
Definition kept_letter (c : N) : bool :=
  Utf8.between 0x61 0x7A c
  || bool_decide (c ∈ u "áéíóúâêîôûãõàèìòùäëïöüçñ").

Definition kept (c : N) : bool :=
  kept_letter c || isspace c || (c =? UNDERSCORE).

(** [re.sub(r"[^a-z...\s_]", " ", text)] *)
Definition sub_special (text : str) : str :=
  map (λ c, if kept c then c else SPACE) text.

(** [re.sub(r"\s+", " ", text)]: [in_run] tells that the previous
    character was whitespace, already replaced. *)
Fixpoint sub_spaces_scan (in_run : bool) (text : str) : str :=
  match text with
  | [] => []
  | c :: text' =>
    if isspace c
    then if in_run then sub_spaces_scan true text'
         else SPACE :: sub_spaces_scan true text'
    else c :: sub_spaces_scan false text'
  end.

Definition sub_spaces (text : str) : str := sub_spaces_scan false text.

Definition clean_text (text : str) : result str :=
  text ← html_unescape text;
  let text := str_lower text in
  text ← replace_compounds text;
  let text := sub_special text in
  let text := sub_spaces text in
  mret (strip text).

End Normalizer.

(** [Counter(words)] *)
Definition Counter (words : list str) : gmap str Z :=
  foldl (λ c w, <[w := (default 0 (c !! w) + 1)%Z]> c) ∅ words.

Definition get_word_frequencies (text : str) : gmap str Z :=
  let words := split text in
  Counter words.

(** ** The document extractor *)

Record EpubBook := { get_items : list EpubItem }.

Definition get_items_of_type (book : EpubBook) (t : item_type)
  : list EpubItem :=
  filter (λ item, get_type item = t) (get_items book).

(** What [epub.read_epub] finds at each path: a book, or the exception it
    raises. *)
Definition storage := str → result EpubBook.

Abbreviation chapter := (str * gmap str Z)%type.

(** [_.decode("utf-8")] on what [get_content] returned: a [str] has no
    such method. *)
Definition decode (r : returned) : result str :=
  match r with
  | Bytes b => decode_utf8 b
  | EmptyStr => Raise AttributeError
  end.

Section Extractor.
Context `{Library}.

Definition html_to_text (content : str) : result str :=
  sp ← html_parser content;
  let sp := decompose_all [u "script"; u "style"] sp in
  mret (soup_get_text sp).

(** The body of the [for item in ...] loop of [analyze_epub]. *)
Definition analyze_item (item : EpubItem) : result chapter :=
  r ← get_content item;
  content ← decode r;
  sp ← html_parser content;
  let title := find [u "title"] sp in
  let chapter_title :=
    match title with
    | Some title => get_text title
    | None =>
      let heading := find [u "h1"; u "h2"] sp in
      match heading with
      | Some heading => get_text heading
      | None => get_name item
      end
    end in
  text ← html_to_text content;
  cleaned_text ← clean_text text;
  let frequencies := get_word_frequencies cleaned_text in
  mret (chapter_title, frequencies).

(** The [try] block of [analyze_epub]. *)
Definition analyze_epub_try (read_epub : storage) (epub_path : str)
  : result (list chapter) :=
  book ← read_epub epub_path;
  for_each
    (λ chapter_analyses item,
       analysis ← analyze_item item;
       mret (chapter_analyses ++ [analysis]))
    (get_items_of_type book ITEM_DOCUMENT) [].

(** [except Exception] catches whatever the block raises and returns
    the empty list. *)
Definition analyze_epub (read_epub : storage) (epub_path : str)
  : list chapter :=
  match analyze_epub_try read_epub epub_path with
  | Ok chapter_analyses => chapter_analyses
  | Raise _ => []
  end.

End Extractor.

(** ** The report exporter *)

(** A field of a CSV row as handed to [csv.writer]: text or a number. *)
Inductive cell :=
| Cstr (s : str)
| Cint (z : Z).

Abbreviation row := (list cell).

(** The directories made and the files written, each file holding the
    rows of its last [open(filename, "w")]. *)
Record FileSystem := {
  dirs : gset str;
  files : gmap str (list row);
}.

Definition makedirs (d : str) (fs : FileSystem) : FileSystem :=
  {| dirs := {[d]} ∪ dirs fs; files := files fs |}.

Definition write_csv (filename : str) (rows : list row) (fs : FileSystem)
  : FileSystem :=
  {| dirs := dirs fs; files := <[filename := rows]> (files fs) |}.

(** [os.path.join(a, b)] for a relative [b]. *)
Definition path_join (a b : str) : str := a ++ u "/" ++ b.

(** [{word: freq for word, freq in frequencies.items()
      if freq >= min_frequency}] *)
Definition filter_frequencies (min_frequency : Z) (frequencies : gmap str Z)
  : gmap str Z :=
  filter (λ wf, (min_frequency ≤ wf.2)%Z) frequencies.

(** [key=lambda x: (-x[1], x[0])]: the pairs compare first on the negated
    count, then on the word. *)
Definition by_frequency (a b : str * Z) : bool :=
  (- a.2 <? - b.2)%Z || ((- a.2 =? - b.2)%Z && str_le a.1 b.1).

(** [key=lambda x: x[0]] *)
Definition by_word (a b : str * Z) : bool := str_le a.1 b.1.

(** The [sorted_words] of one chapter. *)
Definition sorted_words (sort_by : str) (filtered_frequencies : gmap str Z)
  : list (str * Z) :=
  if bool_decide (sort_by = u "frequency")
  then sorted by_frequency (map_to_list filtered_frequencies)
  else sorted by_word (map_to_list filtered_frequencies).

(** [d[k]] on a dict. *)
Definition getitem_map {V} (d : gmap str V) (k : str) : result V :=
  match d !! k with
  | Some v => Ok v
  | None => Raise KeyError
  end.

(** [total_frequencies.update(frequencies)]: counts are added. *)
Definition Counter_update (total frequencies : gmap str Z) : gmap str Z :=
  union_with (λ a b, Some (a + b)%Z) total frequencies.

Definition epub_path : str :=
  u "Short Stories in Brazilian Portuguese for - Olly Richards.epub".

Section Exporter.
Context `{Library}.

(** [re.sub(r"[^\w\s-]", "", chapter_title)] *)
Definition sub_filename (chapter_title : str) : str :=
  filter (λ c, isalnum c || (c =? UNDERSCORE) || isspace c || (c =? 0x2D))
         chapter_title.

Definition chapter_filename (output_dir chapter_title : str) : str :=
  let clean_title := sub_filename chapter_title in
  let clean_title := replace (u " ") (u "_") clean_title in
  path_join output_dir (clean_title ++ u "_frequencies.csv").

(** First loop: one file per chapter. *)
Definition export_chapter (output_dir : str) (min_frequency : Z)
    (sort_by : str) (fs : FileSystem) (ch : chapter) : FileSystem :=
  let '(chapter_title, frequencies) := ch in
  let filename := chapter_filename output_dir chapter_title in
  let filtered_frequencies := filter_frequencies min_frequency frequencies in
  let sorted_words := sorted_words sort_by filtered_frequencies in
  write_csv filename
    ([Cstr (u "Word"); Cstr (u "Frequency")]
     :: map (λ wf, [Cstr wf.1; Cint wf.2]) sorted_words)
    fs.

(** Second loop: the vocabulary and the table indexed by title. *)
Definition collect (min_frequency : Z)
    (acc : gset str * gmap str (gmap str Z)) (ch : chapter)
  : gset str * gmap str (gmap str Z) :=
  let '(all_words, chapter_word_counts) := acc in
  let '(chapter_title, frequencies) := ch in
  let filtered_frequencies := filter_frequencies min_frequency frequencies in
  (all_words ∪ dom filtered_frequencies,
   <[chapter_title := filtered_frequencies]> chapter_word_counts).

Definition total_frequencies (chapter_word_counts : gmap str (gmap str Z))
  : gmap str Z :=
  foldl (λ total tf, Counter_update total tf.2) ∅
        (map_to_list chapter_word_counts).

Definition sorted_all_words (sort_by : str) (all_words : gset str)
    (chapter_word_counts : gmap str (gmap str Z)) : list str :=
  if bool_decide (sort_by = u "frequency")
  then
    let total_frequencies := total_frequencies chapter_word_counts in
    sorted (λ x y,
              by_frequency (x, default 0%Z (total_frequencies !! x))
                           (y, default 0%Z (total_frequencies !! y)))
           (elements all_words)
  else sorted str_le (elements all_words).

(** The inner loop over the chapters for one word: the cells so far
    and the running total. *)
Definition combined_cell (chapter_word_counts : gmap str (gmap str Z))
    (word : str) (acc : list cell * Z) (ch : chapter)
  : result (list cell * Z) :=
  let '(row, total) := acc in
  counts ← getitem_map chapter_word_counts ch.1;
  let freq := default 0%Z (counts !! word) in
  mret (row ++ [Cint freq], (total + freq)%Z).

Definition combined_row (chapter_analyses : list chapter)
    (chapter_word_counts : gmap str (gmap str Z)) (word : str)
  : result row :=
  acc ← for_each (combined_cell chapter_word_counts word)
                 chapter_analyses ([Cstr word], 0%Z);
  mret (acc.1 ++ [Cint acc.2]).

Definition export_to_csv (timestamp : str)
    (chapter_analyses : list chapter) (min_frequency : Z) (sort_by : str)
    (fs : FileSystem) : result FileSystem :=
  let output_dir := u "word_frequency_analysis_" ++ timestamp in
  let fs := makedirs output_dir fs in
  let fs :=
    foldl (export_chapter output_dir min_frequency sort_by)
          fs chapter_analyses in
  let combined_filename := path_join output_dir (u "combined_analysis.csv") in
  let '(all_words, chapter_word_counts) :=
    foldl (collect min_frequency) (∅, ∅) chapter_analyses in
  let all_words := sorted_all_words sort_by all_words chapter_word_counts in
  let header :=
    [Cstr (u "Word")] ++ map (λ ch, Cstr ch.1) chapter_analyses
                      ++ [Cstr (u "Total")] in
  rows ← for_each
           (λ rows word,
              r ← combined_row chapter_analyses chapter_word_counts word;
              mret (rows ++ [r]))
           all_words [];
  mret (write_csv combined_filename (header :: rows) fs).

(** [print_chapter_analysis] prints, then exports when asked to. *)
Definition print_chapter_analysis (timestamp : str)
    (chapter_analyses : list chapter) (min_frequency : Z) (sort_by : str)
    (export_csv : bool) (fs : FileSystem) : result FileSystem :=
  if export_csv
  then export_to_csv timestamp chapter_analyses min_frequency sort_by fs
  else mret fs.

(** The [__main__] block: the chapters analysed and the files left by
    the export. *)
Definition main (read_epub : storage) (timestamp : str) (fs : FileSystem)
  : list chapter * result FileSystem :=
  let chapter_analyses := analyze_epub read_epub epub_path in
  (chapter_analyses,
   print_chapter_analysis timestamp chapter_analyses 1 (u "frequency")
                          true fs).

End Exporter.

(** ** The console reports

    What [print_compounds_found] and [print_chapter_analysis] print: the
    console is the list of the strings printed, one per call of
    [print], as it stands when the function returns. *)

Definition NEWLINE : N := 0x0A.

(** The first number that has more digits than [int] converts to a
    [str]: the default limit of CPython 3.11 is 4300 digits. *)
Definition int_max_str : Z := (10 ^ 4300)%Z.

(** [str(n)] for an [int], as an f-string formats it: decimal digits,
    [-] before a negative number; [ValueError] beyond the limit. *)
Definition str_of_int (z : Z) : result str :=
  if (int_max_str <=? Z.abs z)%Z then Raise ValueError
  else Ok (u (NilZero.string_of_int (Z.to_int z))).

(** [{v: k for k, v in PORTUGUESE_COMPOUNDS.items()}] *)
Definition reverse_compounds : gmap str str :=
  foldl (λ d kv, <[kv.2 := kv.1]> d) ∅ PORTUGUESE_COMPOUNDS.

(** [total_compounds[compound] += freq] on a [Counter]. *)
Definition Counter_add (c : gmap str Z) (k : str) (n : Z) : gmap str Z :=
  <[k := (default 0 (c !! k) + n)%Z]> c.

(** [{word: freq for word, freq in frequencies.items()
      if word in reverse_compounds}] *)
Definition compounds_in_chapter (reverse : gmap str str)
    (frequencies : gmap str Z) : gmap str Z :=
  filter (λ wf, is_Some (reverse !! wf.1)) frequencies.

(** [sum(frequencies.values())] *)
Definition total_words (frequencies : gmap str Z) : Z :=
  foldr Z.add 0%Z (map_to_list frequencies).*2.

Section Console.
Context `{Library}.

(** [print(line)] *)
Definition print (console : list str) (line : str) : result (list str) :=
  if stdout_encodes line then Ok (console ++ [line])
  else Raise UnicodeEncodeError.

(** The inner loop of [print_compounds_found]: one line per compound of
    the chapter, and its count added to the total. *)
Definition print_compound (reverse : gmap str str)
    (acc : list str * gmap str Z) (cf : str * Z)
  : result (list str * gmap str Z) :=
  let '(console, total_compounds) := acc in
  original ← getitem_map reverse cf.1;
  freq ← str_of_int cf.2;
  console ← print console
              (u "'" ++ original ++ u "' appears " ++ freq ++ u " times");
  mret (console, Counter_add total_compounds cf.1 cf.2).

(** The outer loop of [print_compounds_found]. *)
Definition print_chapter_compounds (reverse : gmap str str)
    (acc : list str * gmap str Z) (ch : chapter)
  : result (list str * gmap str Z) :=
  let '(console, total_compounds) := acc in
  let compounds_in_chapter := compounds_in_chapter reverse ch.2 in
  if bool_decide (compounds_in_chapter ≠ ∅)
  then
    console ← print console (NEWLINE :: u "Chapter: " ++ ch.1);
    for_each (print_compound reverse)
      (sorted by_frequency (map_to_list compounds_in_chapter))
      (console, total_compounds)
  else mret (console, total_compounds).

(** The console and the totals after the loop over the chapters. *)
Definition count_compounds (chapter_analyses : list chapter)
  : result (list str * gmap str Z) :=
  console ← print [] (NEWLINE :: u "=== Compound Expressions Analysis ===");
  for_each (print_chapter_compounds reverse_compounds) chapter_analyses
           (console, ∅).

(** A line of the closing list of totals. *)
Definition print_total (reverse : gmap str str) (console : list str)
    (ct : str * Z) : result (list str) :=
  original ← getitem_map reverse ct.1;
  total ← str_of_int ct.2;
  print console
    (u "'" ++ original ++ u "': " ++ total ++ u " total occurrences").

Definition print_compounds_found (chapter_analyses : list chapter)
  : result (list str) :=
  counted ← count_compounds chapter_analyses;
  let '(console, total_compounds) := counted in
  console ←
    print console
      (NEWLINE :: u "Total Compound Expressions Across All Chapters:");
  for_each (print_total reverse_compounds)
           (sorted by_frequency (map_to_list total_compounds)) console.

(** A line of the word list of a chapter. *)
Definition print_word (console : list str) (wf : str * Z)
  : result (list str) :=
  freq ← str_of_int wf.2;
  print console (wf.1 ++ u ": " ++ freq).

(** The loop of [print_chapter_analysis] over the chapters: the console
    and the [results] dict, which the json format fills and nothing
    reads. *)
Definition print_chapter (output_format : str) (min_frequency : Z)
    (sort_by : str) (acc : list str * gmap str (gmap str Z)) (ch : chapter)
  : result (list str * gmap str (gmap str Z)) :=
  let '(console, results) := acc in
  let '(chapter_title, frequencies) := ch in
  let filtered_frequencies := filter_frequencies min_frequency frequencies in
  let sorted_words := sorted_words sort_by filtered_frequencies in
  if bool_decide (output_format = u "json")
  then mret (console, <[chapter_title := list_to_map sorted_words]> results)
  else
    console ← print console (NEWLINE :: u "=== " ++ chapter_title ++ u " ===");
    unique ← str_of_int (Z.of_nat (length sorted_words));
    console ← print console (u "Total unique words: " ++ unique);
    console ← print console (NEWLINE :: u "Word Frequencies:");
    console ← for_each print_word sorted_words console;
    let total_words := total_words frequencies in
    console ← print console (NEWLINE :: u "Chapter Statistics:");
    total ← str_of_int total_words;
    console ← print console (u "Total words: " ++ total);
    unique ← str_of_int (Z.of_nat (size frequencies));
    console ← print console (u "Unique words: " ++ unique);
    mret (console, results).

(** The two lines that [export_to_csv] prints when it is done. *)
Definition export_to_csv_lines (timestamp : str) (console : list str)
  : result (list str) :=
  console ←
    print console
      (NEWLINE :: u "CSV files exported to directory: "
         ++ u "word_frequency_analysis_" ++ timestamp);
  print console
    (u "Individual chapter files and combined analysis have been created.").

(** All that [print_chapter_analysis] prints when it returns: the
    lines of the export come once [export_to_csv] has written its
    files. *)
Definition print_chapter_analysis_lines (timestamp : str)
    (chapter_analyses : list chapter) (output_format : str)
    (min_frequency : Z) (sort_by : str) (export_csv : bool)
    (fs : FileSystem) : result (list str) :=
  console ← print_compounds_found chapter_analyses;
  printed ← for_each (print_chapter output_format min_frequency sort_by)
                     chapter_analyses (console, ∅);
  if export_csv
  then
    _ ← export_to_csv timestamp chapter_analyses min_frequency sort_by fs;
    export_to_csv_lines timestamp printed.1
  else mret printed.1.

End Console.

(** ** A reference library

    An instance of [Library] that serves to run the program on concrete
    containers.  It covers text in the Latin-1 range and markup made of
    text, the references [&amp;], [&lt;] and [&gt;], and matched element
    tags; [get_content] follows [EpubHtml.get_content] for a part read
    from a container: the stored bytes are parsed, and the children of
    their [body] are serialised inside a document of [ebooklib]'s own,
    which has an empty [head]. *)
Module Reference.

Definition isalnum_latin1 (c : N) : bool :=
  Utf8.between 0x30 0x39 c || Utf8.between 0x41 0x5A c
  || Utf8.between 0x61 0x7A c
  || bool_decide (c ∈ [0xAA; 0xB2; 0xB3; 0xB5; 0xB9; 0xBA; 0xBC; 0xBD; 0xBE])
  || Utf8.between 0xC0 0xD6 c || Utf8.between 0xD8 0xF6 c
  || Utf8.between 0xF8 0xFF c.

(** *** [html.unescape]

    References other than an over-long decimal one are outside this
    instance: a text that holds them is returned as it is. *)

(** The number of decimal digits that the text starts with. *)
Fixpoint digits_run (s : str) : nat :=
  match s with
  | c :: s' => if Utf8.between 0x30 0x39 c then S (digits_run s') else 0
  | [] => 0
  end.

(** The text holds [&#] followed by more than 4300 decimal digits. *)
Fixpoint long_reference (s : str) : bool :=
  match s with
  | [] => false
  | c :: s' =>
    ((c =? AMPERSAND)
     && match s' with
        | h :: r => (h =? 0x23) && (4300 <? digits_run r)%nat
        | [] => false
        end)
    || long_reference s'
  end.

Definition unescape (s : str) : result str :=
  if long_reference s then Raise ValueError else Ok s.

(** *** The parser *)

Inductive token :=
| StartTag (name : str)
| EndTag (name : str)
| Data (s : str).

(** The references of a run of text, [&amp;] last. *)
Definition unescape_data (s : str) : str :=
  replace (u "&amp;") (u "&")
    (replace (u "&gt;") (u ">") (replace (u "&lt;") (u "<") s)).

Definition data_token (cur : str) : list token :=
  match cur with [] => [] | _ :: _ => [Data (unescape_data cur)] end.

(** The name of a tag: what stands before the attributes. *)
Fixpoint tag_name (cur : str) : str :=
  match cur with
  | [] => []
  | c :: cur' =>
    if isspace c || (c =? 0x2F) then [] else lower_latin1 c :: tag_name cur'
  end.

(** What stands between [<] and [>]: a processing instruction or a
    declaration gives no node, [<name/>] an empty element. *)
Definition tag_token (cur : str) : list token :=
  match cur with
  | 0x3F :: _ => []
  | 0x21 :: _ => []
  | 0x2F :: name => [EndTag (tag_name name)]
  | _ =>
    match last cur with
    | Some 0x2F => [StartTag (tag_name cur); EndTag (tag_name cur)]
    | _ => [StartTag (tag_name cur)]
    end
  end.

(** [in_tag] tells that the scan is between [<] and [>]. *)
Fixpoint tokenize (in_tag : bool) (cur : str) (s : str) : list token :=
  match s with
  | [] => if in_tag then [] else data_token cur
  | c :: s' =>
    if in_tag
    then if c =? 0x3E then tag_token cur ++ tokenize false [] s'
         else tokenize true (cur ++ [c]) s'
    else if c =? 0x3C then data_token cur ++ tokenize true [] s'
         else tokenize false (cur ++ [c]) s'
  end.

(** The open elements, innermost first, each with the children it has
    so far. *)
Abbreviation stack := (list (str * list node)).

Definition append_child (n : node) (st : stack) (root : list node)
  : stack * list node :=
  match st with
  | [] => ([], root ++ [n])
  | (name, contents) :: st' => ((name, contents ++ [n]) :: st', root)
  end.

(** Close the open elements up to and including the innermost [name]. *)
Fixpoint close_to (name : str) (pending : list node) (st : stack)
    (root : list node) : stack * list node :=
  match st with
  | [] => ([], root ++ pending)
  | (name', contents) :: st' =>
    let n := Tag name' (contents ++ pending) in
    if bool_decide (name' = name)
    then append_child n st' root
    else close_to name [n] st' root
  end.

Fixpoint close_all (pending : list node) (st : stack) (root : list node)
  : list node :=
  match st with
  | [] => root ++ pending
  | (name, contents) :: st' =>
    close_all [Tag name (contents ++ pending)] st' root
  end.

Fixpoint build (toks : list token) (st : stack) (root : list node)
  : list node :=
  match toks with
  | [] => close_all [] st root
  | StartTag name :: toks' => build toks' ((name, []) :: st) root
  | EndTag name :: toks' =>
    if bool_decide (name ∈ map fst st)
    then let '(st', root') := close_to name [] st root in
         build toks' st' root'
    else build toks' st root
  | Data s :: toks' =>
    let '(st', root') := append_child (Text s) st root in
    build toks' st' root'
  end.

Definition parse (content : str) : list node :=
  build (tokenize false [] content) [] [].

(** *** [EpubHtml.get_content] *)

(** How [etree.tostring] writes a text node. *)
Definition escape_data (s : str) : str :=
  replace (u ">") (u "&gt;")
    (replace (u "<") (u "&lt;") (replace (u "&") (u "&amp;") s)).

(** An element written on one line. *)
Fixpoint inline (n : node) : str :=
  match n with
  | Text s => escape_data s
  | Tag name [] => u "<" ++ name ++ u "/>"
  | Tag name contents =>
    u "<" ++ name ++ u ">" ++ flat_map inline contents
      ++ u "</" ++ name ++ u ">"
  end.

Definition is_element (n : node) : bool :=
  match n with Tag _ _ => true | Text _ => false end.

(** [pretty_print=True]: the children of an element that has no text
    child stand on lines of their own, two spaces deeper. *)
Fixpoint pretty (depth : nat) (n : node) : str :=
  match n with
  | Text s => escape_data s
  | Tag name [] => u "<" ++ name ++ u "/>"
  | Tag name contents =>
    if forallb is_element contents
    then u "<" ++ name ++ u ">" ++ [0x0A]
         ++ flat_map (λ c, repeat SPACE (2 * S depth)
                           ++ pretty (S depth) c ++ [0x0A]) contents
         ++ repeat SPACE (2 * depth) ++ u "</" ++ name ++ u ">"
    else u "<" ++ name ++ u ">" ++ flat_map inline contents
         ++ u "</" ++ name ++ u ">"
  end.

Definition quoted (s : str) : str := 0x22 :: s ++ [0x22].

(** The document of [ebooklib]'s chapter template around the children
    of the part's [body]; the language is that of the book, here [en],
    and the part has no title of its own in [ebooklib]'s records. *)
Definition document (body : list node) : str :=
  u "<?xml version='1.0' encoding='utf-8'?>" ++ [0x0A]
  ++ u "<!DOCTYPE html>" ++ [0x0A]
  ++ u "<html xmlns=" ++ quoted (u "http://www.w3.org/1999/xhtml")
  ++ u " xmlns:epub=" ++ quoted (u "http://www.idpf.org/2007/ops")
  ++ u " epub:prefix="
  ++ quoted (u "z3998: http://www.daisy.org/z3998/2012/vocab/structure/#")
  ++ u " lang=" ++ quoted (u "en") ++ u " xml:lang=" ++ quoted (u "en")
  ++ u ">" ++ [0x0A]
  ++ u "  <head/>" ++ [0x0A]
  ++ u "  " ++ pretty 1 (Tag (u "body") body) ++ [0x0A]
  ++ u "</html>" ++ [0x0A].

Definition in_body (n : node) : bool :=
  match n with
  | Tag name _ => bool_decide (name ∉ [u "head"; u "title"])
  | Text _ => true
  end.

(** The children of the [body] of a parsed part; a part without [body]
    element gives its nodes other than [head] and [title]. *)
Definition body_of (tree : list node) : list node :=
  match find [u "body"] tree with
  | Some (Tag _ contents) => contents
  | _ => filter (λ n, in_body n = true) tree
  end.

(** The text of the stored bytes as the recovering parser reads them:
    bytes that are no UTF-8 are read as Latin-1. *)
Definition read (bs : list byte) : str :=
  match Utf8.decode (map Byte.to_N bs) with
  | Some s => s
  | None => map Byte.to_N bs
  end.

Definition encode_char (c : N) : list N :=
  if c <? 0x80 then [c]
  else if c <? 0x800 then [0xC0 + c / 64; 0x80 + c mod 64]
  else if c <? 0x10000
  then [0xE0 + c / 4096; 0x80 + (c / 64) mod 64; 0x80 + c mod 64]
  else [0xF0 + c / 262144; 0x80 + (c / 4096) mod 64;
        0x80 + (c / 64) mod 64; 0x80 + c mod 64].

Definition encode (s : str) : list byte :=
  map (λ b, default x00 (Byte.of_N b)) (flat_map encode_char s).

(** The document that is serialised for a part. *)
Definition handed_over (item : EpubItem) : str :=
  document (body_of (parse (read (file_content item)))).

(** A part without markup and text cannot be parsed, and the empty
    [str] is returned.  Otherwise the bytes of the document are handed
    over, once they are seen to decode, as the output of
    [etree.tostring] always does. *)
Definition serialised (item : EpubItem) : result returned :=
  if forallb isspace (read (file_content item)) then Ok EmptyStr
  else
    let b := encode (handed_over item) in
    match decode_utf8 b with
    | Ok _ => Ok (Bytes b)
    | Raise e => Raise e
    end.

(** A console that encodes as UTF-8: every text but one that holds a
    surrogate. *)
Definition utf8_encodes (s : str) : bool :=
  forallb (λ c, negb (Utf8.between 0xD800 0xDFFF c)) s.

Definition library : Library.
Proof.
  refine {|
    html_unescape := unescape;
    str_lower s := map lower_latin1 s;
    isalnum := isalnum_latin1;
    html_parser s := Ok (parse s);
    get_content := serialised;
    stdout_encodes := utf8_encodes;
    str_lower_latin1 s _ := eq_refl;
  |}.
  - intros s Hs. unfold unescape.
    replace (long_reference s) with false; [done |].
    induction s as [|c s IH]; [done |].
    apply not_elem_of_cons in Hs as [Hc Hs].
    cbn [long_reference]. rewrite <- (IH Hs), orb_false_r.
    apply N.eqb_neq in Hc. by rewrite N.eqb_sym, Hc.
  - intros pre ds post Hds Hlen. unfold unescape.
    replace (long_reference (pre ++ AMPERSAND :: 0x23 :: ds ++ post))
      with true; [done |].
    induction pre as [|c pre IH].
    + cbn [app long_reference]. rewrite !N.eqb_refl.
      assert (Hrun : (length ds ≤ digits_run (ds ++ post))%nat).
      { clear Hlen. induction Hds as [|d ds Hd _ IHds]; [cbn; lia |].
        cbn [app digits_run length]. rewrite Hd. lia. }
      replace (4300 <? digits_run (ds ++ post))%nat with true; [done |].
      symmetry. apply Nat.ltb_lt. lia.
    + cbn [app long_reference]. rewrite <- IH. by rewrite orb_true_r.
  - intros item b. unfold serialised.
    destruct (forallb isspace _); [done |]. cbv zeta.
    destruct (decode_utf8 _) as [content |] eqn:Hdecode; [| done].
    intros [= <-]. by exists content.
Defined.

(** The same library on a console that replaces what it cannot encode,
    as Python does under [PYTHONIOENCODING=utf-8:replace]. *)
Definition lenient : Library :=
  {| html_unescape := unescape;
     str_lower s := map lower_latin1 s;
     isalnum := isalnum_latin1;
     html_parser s := Ok (parse s);
     get_content := serialised;
     stdout_encodes _ := true;
     html_unescape_plain := html_unescape_plain (Library := library);
     html_unescape_digits := html_unescape_digits (Library := library);
     str_lower_latin1 := str_lower_latin1 (Library := library);
     get_content_utf8 := get_content_utf8 (Library := library) |}.

End Reference.

(** ** Vocabulary of the specification *)

(** Strict lexicographic order on code-point sequences. *)
Inductive lex_lt : str → str → Prop :=
| lex_lt_nil c b : lex_lt [] (c :: b)
| lex_lt_head x y a b : x < y → lex_lt (x :: a) (y :: b)
| lex_lt_tail x a b : lex_lt a b → lex_lt (x :: a) (x :: b).

Definition lex_le (a b : str) : Prop := a = b ∨ lex_lt a b.

(** Descending count, ties by ascending word. *)
Definition frequency_order (a b : str * Z) : Prop :=
  (b.2 < a.2)%Z ∨ (a.2 = b.2 ∧ lex_le a.1 b.1).

(** Ascending word. *)
Definition alphabetical_order (a b : str * Z) : Prop := lex_le a.1 b.1.

(** The directory of a run and the path of its combined file. *)
Definition output_dir (timestamp : str) : str :=
  u "word_frequency_analysis_" ++ timestamp.

Definition combined_filename (timestamp : str) : str :=
  path_join (output_dir timestamp) (u "combined_analysis.csv").

(** A document part whose stored bytes are no UTF-8 fails with a
    decoding error and is skipped: the result holds the records of the
    other document parts and none for this one. *)
Definition skips_invalid_parts `{Library} (read_epub : storage)
    (path : str) (book : EpubBook) : Prop :=
  ∀ before item after,
    get_items_of_type book ITEM_DOCUMENT = before ++ item :: after →
    decode_utf8 (file_content item) = Raise UnicodeDecodeError →
    analyze_item item = Raise UnicodeDecodeError
    ∧ Forall2 (λ other r, analyze_item other = Ok r)
              (before ++ after) (analyze_epub read_epub path).

(** The run ends without an exception and leaves the files as they
    were. *)
Definition writes_no_file (before : FileSystem) (after : result FileSystem)
  : Prop :=
  ∃ fs, after = Ok fs ∧ files fs = files before.

(** The placeholder of a phrase: its spaces become underscores. *)
Definition underscored (p : str) : str :=
  map (λ c, if c =? SPACE then UNDERSCORE else c) p.

(** The loop of [replace_compounds] once every table lookup has
    succeeded. *)
Definition fold_compounds (text : str) : str :=
  foldl (λ text p, replace p (underscored p) text) text sorted_compounds.

(** The text on which the phrases are folded, from the text [T] that
    [html.unescape] returned: lowercased by [clean_text] and again by
    [replace_compounds]. *)
Definition folding_input `{Library} (T : str) : str :=
  str_lower (str_lower T).

(** The value of [clean_text] on a text that [html.unescape] turns into
    [T]. *)
Definition normalized `{Library} (T : str) : str :=
  strip (sub_spaces (sub_special (fold_compounds (folding_input T)))).

(** The characters that make up tokens: the letters kept by step 4 and
    the underscore. *)
Definition solid (c : N) : bool := kept_letter c || (c =? UNDERSCORE).

(** What holds of every entry of the table: the placeholder is the
    phrase with underscores for spaces; the phrase is made of letters
    and spaces and neither starts nor ends with a space. *)
Definition phrase_ok (entry : str * str) : bool :=
  bool_decide (entry.2 = underscored entry.1)
  && forallb (λ c, kept_letter c || (c =? SPACE)) entry.1
  && match head entry.1 with Some c => kept_letter c | None => false end
  && match last entry.1 with Some c => kept_letter c | None => false end.

(** [Y] is [X] with some of its spaces turned into underscores. *)
Definition folds_to (X Y : str) : Prop :=
  Forall2 (λ a b, b = a ∨ (a = SPACE ∧ b = UNDERSCORE)) X Y.

(** Every whitespace character of the text is a space, and none is
    followed by whitespace. *)
Fixpoint collapsed (s : str) : Prop :=
  match s with
  | [] => True
  | c :: s' =>
    (isspace c = true →
     c = SPACE ∧ match s' with d :: _ => isspace d = false | [] => True end)
    ∧ collapsed s'
  end.

(** The text does not start with whitespace. *)
Definition starts_solid (s : str) : Prop :=
  match s with d :: _ => isspace d = false | [] => True end.

(** [clean_text] returns a string for every input string. *)
Definition total_over_strings `{Library} : Prop :=
  ∀ T, ∃ s, clean_text T = Ok s.

(** Steps 2, 4 and 5 of the normalizer run again on a text: lowercasing,
    character stripping, whitespace collapsing and trimming. *)
Definition steps_2_4_5 `{Library} (s : str) : str :=
  strip (sub_spaces (sub_special (str_lower s))).

(** The phrase [p] occurs in [s] at position [j]. *)
Definition occurs_at (p : str) (j : nat) (s : str) : Prop :=
  startswith p (drop j s) = true.

(** The positions from [i] on, [n] of them, and those from [j] on, [m]
    of them, have a position in common. *)
Definition overlap (i n j m : nat) : Prop := (i < j + m ∧ j < i + n)%nat.

(** The positions at which [p] occurs in [s]. *)
Definition occurrences (p s : str) : list nat :=
  filter (λ j, startswith p (drop j s) = true) (seq 0 (length s)).

(** No table phrase other than [p] occurs in [X]. *)
Definition only_phrase (p X : str) : bool :=
  forallb (λ p', bool_decide (p' = p) || bool_decide (occurrences p' X = []))
          (keys PORTUGUESE_COMPOUNDS).

(** No occurrence of [p] in [X] covers position [k] with one of its
    spaces. *)
Definition spares (X p : str) (k : nat) : Prop :=
  ∀ j c, occurs_at p j X → (j ≤ k)%nat → p !! (k - j)%nat = Some c →
         c ≠ SPACE.

(** With [a] at position 0 and [b] at position [d], the two phrases
    agree where they overlap and have a space in common. *)
Definition clash_at (a b : str) (d : nat) : bool :=
  forallb (λ t, match a !! (d + t)%nat, b !! t with
                | Some x, Some y => x =? y
                | _, _ => true
                end) (seq 0 (length b))
  && existsb (λ t, match a !! (d + t)%nat, b !! t with
                   | Some x, Some y => (x =? SPACE) && (y =? SPACE)
                   | _, _ => false
                   end) (seq 0 (length b)).

(** No two different phrases of the table of the same length clash. *)
Definition no_equal_clash : bool :=
  forallb (λ a,
    forallb (λ b,
      bool_decide (a = b) || negb (length a =? length b)%nat
      || forallb (λ d, negb (clash_at a b d)) (seq 1 (length a)))
      (keys PORTUGUESE_COMPOUNDS))
    (keys PORTUGUESE_COMPOUNDS).

(** [q] is a contiguous part of [tok]. *)
Definition contains (tok q : str) : Prop := ∃ a b, tok = a ++ q ++ b.

(** The characters next to the positions from [i] on, [n] of them, are
    not token characters (or the text ends there). *)
Definition delimited (X : str) (i n : nat) : Prop :=
  (∀ c, (0 < i)%nat → X !! (i - 1)%nat = Some c → solid c = false)
  ∧ (∀ c, X !! (i + n)%nat = Some c → solid c = false).

(** The one occurrence of [p] in the folding input, at [i], with no
    longer table phrase overlapping it. *)
Definition lone_occurrence `{Library} (p T : str) (i : nat) : Prop :=
  let X := folding_input T in
  occurs_at p i X
  ∧ (∀ j, occurs_at p j X → j = i)
  ∧ (∀ p' j, p' ∈ keys PORTUGUESE_COMPOUNDS →
             (length p < length p')%nat → occurs_at p' j X →
             ¬ overlap i (length p) j (length p')).

(** The placeholder is a token of the normalized text and the words of
    the phrase are not. *)
Definition folded_to_token `{Library} (p q T : str) : Prop :=
  ∀ out, clean_text T = Ok out →
         q ∈ split out ∧ ∀ w, w ∈ split p → w ∉ split out.

(** The elements of a tree in document order. *)
Fixpoint descendants (n : node) : list node :=
  match n with
  | Text _ => []
  | Tag _ contents => n :: flat_map descendants contents
  end.

Definition soup_elements (sp : soup) : list node := flat_map descendants sp.

Definition named (names : list str) (n : node) : bool :=
  match n with
  | Text _ => false
  | Tag name _ => bool_decide (name ∈ names)
  end.

Definition first_element (names : list str) (sp : soup) : option node :=
  head (filter (λ n, named names n) (soup_elements sp)).

(** The title as the code derives it: the text of the first [title]
    element if there is one, else the text of the first [h1] or [h2]
    element, else the name of the part. *)
Definition derived_title (name : str) (sp : soup) : str :=
  match first_element [u "title"] sp with
  | Some title => get_text title
  | None =>
    match first_element [u "h1"; u "h2"] sp with
    | Some heading => get_text heading
    | None => name
    end
  end.

(** The title as the specification words it: the title element counts
    only when its text is not empty, and every heading level counts. *)
Definition specified_title (name : str) (sp : soup) : str :=
  let fallback :=
    match first_element [u "h1"; u "h2"; u "h3"; u "h4"; u "h5"; u "h6"] sp with
    | Some heading => get_text heading
    | None => name
    end in
  match first_element [u "title"] sp with
  | Some title =>
    match get_text title with
    | [] => fallback
    | _ :: _ => get_text title
    end
  | None => fallback
  end.

Definition title_as_specified `{Library} (item : EpubItem) : Prop :=
  ∀ returned content sp r,
    get_content item = Ok returned → decode returned = Ok content →
    html_parser content = Ok sp → analyze_item item = Ok r →
    r.1 = specified_title (get_name item) sp.

(** The frequencies of the last chapter of the sequence that carries
    the title [t]. *)
Fixpoint last_titled (t : str) (chapters : list chapter)
  : option (gmap str Z) :=
  match chapters with
  | [] => None
  | (t', frequencies) :: rest =>
    match last_titled t rest with
    | Some later => Some later
    | None => if bool_decide (t' = t) then Some frequencies else None
    end
  end.

(** The count of [w] among the filtered frequencies of a chapter; a word
    filtered out or absent counts 0. *)
Definition filtered_count (min_frequency : Z) (frequencies : gmap str Z)
    (w : str) : Z :=
  default 0%Z (filter_frequencies min_frequency frequencies !! w).

(** The count shown in a column headed [t]. *)
Definition column_count (min_frequency : Z) (chapters : list chapter)
    (t w : str) : Z :=
  match last_titled t chapters with
  | Some frequencies => filtered_count min_frequency frequencies w
  | None => 0%Z
  end.

Definition Zsum (l : list Z) : Z := foldr Z.add 0%Z l.

(** The row of [w] in the combined table as the code fills it. *)
Definition combined_row_of (min_frequency : Z) (chapters : list chapter)
    (w : str) : row :=
  [Cstr w]
  ++ map (λ ch, Cint (column_count min_frequency chapters ch.1 w)) chapters
  ++ [Cint (Zsum (map (λ ch, column_count min_frequency chapters ch.1 w)
                      chapters))].

Definition combined_header (chapters : list chapter) : row :=
  [Cstr (u "Word")] ++ map (λ ch, Cstr ch.1) chapters ++ [Cstr (u "Total")].

(** The rows of a per-chapter file. *)
Definition chapter_rows (sort_by : str) (min_frequency : Z)
    (frequencies : gmap str Z) : list row :=
  [Cstr (u "Word"); Cstr (u "Frequency")]
  :: map (λ wf, [Cstr wf.1; Cint wf.2])
         (sorted_words sort_by (filter_frequencies min_frequency frequencies)).

(** The frequencies of the last chapter of the sequence whose file is
    [path]. *)
Fixpoint last_filed `{Library} (dir path : str) (chapters : list chapter)
  : option (gmap str Z) :=
  match chapters with
  | [] => None
  | (t, frequencies) :: rest =>
    match last_filed dir path rest with
    | Some later => Some later
    | None =>
      if bool_decide (chapter_filename dir t = path)
      then Some frequencies else None
    end
  end.

(** The word and the total of a row of the combined table. *)
Definition word_of (r : row) : option str :=
  match head r with
  | Some (Cstr w) => Some w
  | _ => None
  end.

Definition total_of (r : row) : option Z :=
  match last r with
  | Some (Cint z) => Some z
  | _ => None
  end.

(** The Total of every row of the combined file is the sum of the word's
    filtered counts over the chapters of the input. *)
Definition totals_are_sums `{Library} (timestamp : str)
    (chapters : list chapter) (min_frequency : Z) (sort_by : str)
    (fs : FileSystem) : Prop :=
  ∀ fs' header rows r w,
    export_to_csv timestamp chapters min_frequency sort_by fs = Ok fs' →
    files fs' !! combined_filename timestamp = Some (header :: rows) →
    r ∈ rows → word_of r = Some w →
    total_of r =
      Some (Zsum (map (λ ch, filtered_count min_frequency ch.2 w) chapters)).

(** How often [w] stands in a list of words. *)
Definition count_of (w : str) (words : list str) : nat :=
  length (filter (λ x, x = w) words).

(** The number by which the frequency policy orders the words of the
    combined table: the sum, over the distinct titles, of the count shown
    in a column headed by the title. *)
Definition sort_key (min_frequency : Z) (chapters : list chapter)
    (w : str) : Z :=
  Zsum (map (λ t, column_count min_frequency chapters t w)
            (remove_dups chapters.*1)).

(** The sum of the filtered counts of [w] over the chapters. *)
Definition filtered_total (min_frequency : Z) (chapters : list chapter)
    (w : str) : Z :=
  Zsum (map (λ ch, filtered_count min_frequency ch.2 w) chapters).

(** The words of a list written one after the other with [sep] between
    them. *)
Fixpoint join (sep : str) (words : list str) : str :=
  match words with
  | [] => []
  | w :: rest =>
    match rest with
    | [] => w
    | _ :: _ => w ++ sep ++ join sep rest
    end
  end.

(** The text of a tree read in document order, the elements named in
    [names] skipped with all they contain. *)
Fixpoint visible_text (names : list str) (n : node) : str :=
  match n with
  | Text s => s
  | Tag name contents =>
    if bool_decide (name ∈ names) then []
    else flat_map (visible_text names) contents
  end.





(** ** Concrete documents and containers *)

(** A document part with the markup stored for it. *)
Definition part (name : str) (markup : string) : EpubItem :=
  {| get_type := ITEM_DOCUMENT; get_name := name;
     file_content := list_byte_of_string markup |}.

Definition ch1_markup : string :=
  "<title>Ch1</title><body><p>o que é isso? O QUE é isso!</p></body>".

Definition ch1_item : EpubItem := part (u "ch1.xhtml") ch1_markup.

(** The paragraph of [ch1_markup] and the frequencies of its words. *)
Definition ch1_paragraph : str := u "o que é isso? O QUE é isso!".

Definition ch1_frequencies : gmap str Z :=
  {[ u "o_que" := 2%Z; u "é" := 2%Z; u "isso" := 2%Z ]}.

(** The characters between the elements of a serialised document. *)
Definition blank (c : N) : Prop := c = SPACE ∨ c = NEWLINE.

(** A part whose only heading is of the third level. *)
Definition subheading_item : EpubItem :=
  part (u "ch3.xhtml") "<body><h3>Intro</h3><p>Era uma vez</p></body>".

(** Two chapters with the same title. *)
Definition twin_chapters : list chapter :=
  [(u "A", {[ u "x" := 1%Z ]}); (u "A", {[ u "x" := 2%Z ]})].

(** A part stored in Latin-1: the byte [E9] of [café] is no UTF-8. *)
Definition latin1_item : EpubItem :=
  {| get_type := ITEM_DOCUMENT; get_name := u "ch2.xhtml";
     file_content :=
       list_byte_of_string "<body><p>caf" ++ [xe9%byte]
       ++ list_byte_of_string "</p></body>" |}.

(** A part whose text reads [&#] followed by 4301 digits and [;]. *)
Definition long_reference_item : EpubItem :=
  {| get_type := ITEM_DOCUMENT; get_name := u "ch4.xhtml";
     file_content :=
       list_byte_of_string "<body><p>&amp;#" ++ repeat x31%byte 4301
       ++ list_byte_of_string ";</p></body>" |}.

(** A part that is no document: the cover image. *)
Definition cover_item : EpubItem :=
  {| get_type := ITEM_IMAGE; get_name := u "cover.png";
     file_content := [xff%byte; xd8%byte] |}.

(** A storage holding one book at every path, and one where opening
    fails. *)
Definition shelf (items : list EpubItem) : storage :=
  λ _, Ok {| get_items := items |}.

Definition missing : storage := λ _, Raise EpubException.

Definition empty_fs : FileSystem := {| dirs := ∅; files := ∅ |}.

(** The end-to-end scenario with the values of the specification. *)
Definition scenario_as_specified `{Library} (path timestamp : str)
    (fs : FileSystem) : Prop :=
  analyze_epub (shelf [ch1_item]) path = [(u "Ch1", ch1_frequencies)]
  ∧ (∃ returned content text,
        get_content ch1_item = Ok returned
        ∧ decode returned = Ok content
        ∧ html_to_text content = Ok text
        ∧ clean_text text = Ok (u "o_que é isso o_que é isso"))
  ∧ ∃ fs',
      export_to_csv timestamp (analyze_epub (shelf [ch1_item]) path)
                    1 (u "frequency") fs = Ok fs'
      ∧ files fs' !! chapter_filename (output_dir timestamp) (u "Ch1")
        = Some [[Cstr (u "Word"); Cstr (u "Frequency")];
                [Cstr (u "é"); Cint 2]; [Cstr (u "isso"); Cint 2];
                [Cstr (u "o_que"); Cint 2]].

(** * Properties *)

(** Closed equations are settled by evaluation. *)
Ltac by_evaluation :=
  lazymatch goal with
  | |- ?a = ?b => vm_cast_no_check (eq_refl b)
  end.

(** ** Loops that may raise *)

Lemma for_each_raise {A S} (body : S → A → result S) xs x :
  x ∈ xs → (∀ acc, ∃ e, body acc x = Raise e) →
  ∀ acc, ∃ e, for_each body xs acc = Raise e.
Proof.
  intros Hin Hx.
  induction Hin as [x xs | x y xs Hin IH]; intros acc; simpl.
  - destruct (Hx acc) as [e ->]. by exists e.
  - destruct (body acc y) as [acc' | e]; simpl; [by apply IH | by exists e].
Qed.

Lemma for_each_ok {A S} (body : S → A → result S) (f : S → A → S) xs :
  (∀ acc x, x ∈ xs → body acc x = Ok (f acc x)) →
  ∀ acc, for_each body xs acc = Ok (foldl f acc xs).
Proof.
  induction xs as [|x xs IH]; intros Hbody acc; [done |].
  cbn [for_each foldl]. rewrite Hbody by left.
  cbn [mbind result_bind]. apply IH.
  intros acc' y Hy. apply Hbody. by right.
Qed.

Lemma foldl_snoc_map {A B} (g : A → B) xs acc :
  foldl (λ rows x, rows ++ [g x]) acc xs = acc ++ map g xs.
Proof.
  revert acc; induction xs as [|x xs IH]; intros acc; simpl.
  - by rewrite app_nil_r.
  - by rewrite IH, <- app_assoc.
Qed.

(** ** Order and sorting *)

Lemma lex_lt_irrefl a : ¬ lex_lt a a.
Proof.
  induction a as [|x a IH]; inversion 1; subst; [lia | auto].
Qed.

Lemma lex_lt_trans a b c : lex_lt a b → lex_lt b c → lex_lt a c.
Proof.
  intros Hab; revert c.
  induction Hab as [x b | x y a b Hxy | x a b Hab IH]; intros c Hbc;
    inversion Hbc; subst;
    first [ apply lex_lt_nil
          | apply lex_lt_head; lia
          | apply lex_lt_tail; by apply IH ].
Qed.

Lemma str_le_spec a b : str_le a b = true ↔ lex_le a b.
Proof.
  revert b; induction a as [|x a IH]; intros [|y b]; simpl.
  - split; [by left | done].
  - split; [right; constructor | done].
  - split; [done | intros [? | Hlt]; [done | inversion Hlt]].
  - rewrite orb_true_iff, andb_true_iff, N.ltb_lt, N.eqb_eq, IH.
    split.
    + intros [Hlt | [-> [-> | Hlt]]].
      * right; by constructor.
      * by left.
      * right; by constructor.
    + intros [[= -> ->] | Hlt].
      * right; split; [done | by left].
      * inversion Hlt; subst; [by left | right; split; [done | by right]].
Qed.

Lemma str_le_total a b : str_le a b = false → lex_lt b a.
Proof.
  revert b; induction a as [|x a IH]; intros [|y b]; simpl; try done.
  - intros _; constructor.
  - rewrite orb_false_iff, andb_false_iff, N.ltb_ge, N.eqb_neq.
    intros [Hge [Hne | Hle]].
    + apply lex_lt_head; lia.
    + destruct (decide (x = y)) as [-> | Hne].
      * apply lex_lt_tail; auto.
      * apply lex_lt_head; lia.
Qed.

Lemma lex_le_trans a b c : lex_le a b → lex_le b c → lex_le a c.
Proof.
  intros [-> | Hab] [-> | Hbc]; try (by left); try (by right).
  right; eauto using lex_lt_trans.
Qed.

Section SortedFacts.
Context {A : Type} (le : A → A → bool) (R : A → A → Prop).
Hypothesis le_sound : ∀ a b, le a b = true → R a b.
Hypothesis le_total : ∀ a b, le a b = false → R b a.
Hypothesis R_trans : ∀ a b c, R a b → R b c → R a c.

Lemma insert_sorted_perm x l : insert_sorted le x l ≡ₚ x :: l.
Proof.
  induction l as [|y l IH]; simpl; [done |].
  destruct (le x y); [done |].
  rewrite IH. apply perm_swap.
Qed.

Lemma sorted_perm l : sorted le l ≡ₚ l.
Proof.
  induction l as [|x l IH]; simpl; [done |].
  by rewrite insert_sorted_perm, IH.
Qed.

Lemma insert_sorted_strongly x l :
  StronglySorted R l → StronglySorted R (insert_sorted le x l).
Proof.
  induction 1 as [|y l Hl IH Hy]; simpl.
  - repeat constructor.
  - destruct (le x y) eqn:Hxy.
    + constructor; [by constructor |].
      constructor; [by apply le_sound |].
      eapply Forall_impl; [exact Hy |].
      intros z Hz. eapply R_trans; [by apply le_sound | done].
    + constructor; [done |].
      rewrite insert_sorted_perm.
      constructor; [by apply le_total | done].
Qed.

Lemma sorted_strongly l : StronglySorted R (sorted le l).
Proof.
  induction l as [|x l IH]; simpl; [constructor |].
  by apply insert_sorted_strongly.
Qed.
End SortedFacts.

Lemma StronglySorted_lookup {A} (R : A → A → Prop) l i j a b :
  StronglySorted R l → (i < j)%nat →
  l !! i = Some a → l !! j = Some b → R a b.
Proof.
  intros Hl; revert i j.
  induction Hl as [|x l Hl IH Hx]; intros i j Hij Hi Hj; [done |].
  destruct j as [|j]; [lia |].
  destruct i as [|i]; simpl in *.
  - injection Hi as ->.
    rewrite Forall_forall in Hx. apply Hx.
    by eapply list_elem_of_lookup_2.
  - apply (IH i j); [lia | done | done].
Qed.

Lemma by_frequency_sound a b : by_frequency a b = true → frequency_order a b.
Proof.
  unfold by_frequency, frequency_order.
  rewrite orb_true_iff, andb_true_iff, Z.ltb_lt, Z.eqb_eq, str_le_spec.
  intros [Hlt | [Heq Hle]]; [left; lia | right; split; [lia | done]].
Qed.

Lemma by_frequency_total a b : by_frequency a b = false → frequency_order b a.
Proof.
  unfold by_frequency, frequency_order.
  rewrite orb_false_iff, andb_false_iff, Z.ltb_ge, Z.eqb_neq.
  intros [Hge [Hne | Hle]]; [left; lia |].
  apply str_le_total in Hle.
  destruct (decide (a.2 = b.2)) as [Heq | Hne]; [| left; lia].
  right; split; [done | by right].
Qed.

Lemma frequency_order_trans a b c :
  frequency_order a b → frequency_order b c → frequency_order a c.
Proof.
  unfold frequency_order.
  intros [Hab | [Hab Hab']] [Hbc | [Hbc Hbc']];
    try (left; lia).
  right; split; [congruence | eauto using lex_le_trans].
Qed.

Lemma by_word_sound a b : by_word a b = true → alphabetical_order a b.
Proof. unfold by_word, alphabetical_order. by rewrite str_le_spec. Qed.

Lemma by_word_total a b : by_word a b = false → alphabetical_order b a.
Proof.
  unfold by_word, alphabetical_order. intros Hle. right.
  by apply str_le_total.
Qed.

Lemma alphabetical_order_trans a b c :
  alphabetical_order a b → alphabetical_order b c → alphabetical_order a c.
Proof. unfold alphabetical_order. apply lex_le_trans. Qed.

Lemma policy_alphabetical : u "alphabetical" ≠ u "frequency".
Proof. intros Heq; vm_compute in Heq; discriminate. Qed.

Lemma sorted_words_frequency m :
  sorted_words (u "frequency") m = sorted by_frequency (map_to_list m).
Proof. unfold sorted_words. by rewrite bool_decide_eq_true_2. Qed.

Lemma sorted_words_other sort_by m :
  sort_by ≠ u "frequency" →
  sorted_words sort_by m = sorted by_word (map_to_list m).
Proof. intros Hne. unfold sorted_words. by rewrite bool_decide_eq_false_2. Qed.

Lemma sorted_words_perm sort_by m : sorted_words sort_by m ≡ₚ map_to_list m.
Proof. unfold sorted_words. case_bool_decide; apply sorted_perm. Qed.

Lemma lex_le_antisym a b : lex_le a b → lex_le b a → a = b.
Proof.
  intros [-> | Hab] [Heq | Hba]; try done.
  destruct (lex_lt_irrefl a). eauto using lex_lt_trans.
Qed.

Lemma frequency_order_antisym a b :
  frequency_order a b → frequency_order b a → a = b.
Proof.
  unfold frequency_order. destruct a as [w c], b as [w' c']. simpl.
  intros [Hlt | [-> Hle]] [Hlt' | [Heq Hle']]; try lia.
  f_equal. by apply lex_le_antisym.
Qed.

(** The rows do not depend on the order in which the dict yields its
    items: any arrangement of the items sorts to the same list. *)
Lemma sorted_words_order_free (sort_by : str) (m : gmap str Z)
    (items : list (str * Z)) :
  items ≡ₚ map_to_list m →
  (if bool_decide (sort_by = u "frequency")
   then sorted by_frequency items else sorted by_word items)
  = sorted_words sort_by m.
Proof.
  intros Hperm. unfold sorted_words. case_bool_decide.
  - apply (StronglySorted_unique_strong frequency_order).
    + intros a b _ _. apply frequency_order_antisym.
    + apply sorted_strongly;
        eauto using by_frequency_sound, by_frequency_total,
                    frequency_order_trans.
    + apply sorted_strongly;
        eauto using by_frequency_sound, by_frequency_total,
                    frequency_order_trans.
    + by rewrite !sorted_perm.
  - apply (StronglySorted_unique_strong alphabetical_order).
    + intros [w c] [w' c'] Ha Hb Hab Hba.
      rewrite sorted_perm, Hperm in Ha. rewrite sorted_perm in Hb.
      apply elem_of_map_to_list in Ha. apply elem_of_map_to_list in Hb.
      assert (w = w') as <- by (by apply lex_le_antisym).
      congruence.
    + apply sorted_strongly;
        eauto using by_word_sound, by_word_total, alphabetical_order_trans.
    + apply sorted_strongly;
        eauto using by_word_sound, by_word_total, alphabetical_order_trans.
    + by rewrite !sorted_perm.
Qed.

Section RowOrder.
Context `{Library}.

(** C6.  The file of a chapter holds the header and the filtered
    (word, count) pairs as sorted by the policy.  Under the frequency
    policy they come in descending count, ties in ascending
    lexicographic (code-point) order of the word; under the alphabetical
    policy in ascending lexicographic order of the word.  Two rows of
    equal count under the frequency policy have the smaller word first.
    This holds for every frequency table and every threshold. *)
Theorem exported_rows_order (min_frequency : Z) (frequencies : gmap str Z) :
  let filtered := filter_frequencies min_frequency frequencies in
  let by_freq := sorted_words (u "frequency") filtered in
  let by_alpha := sorted_words (u "alphabetical") filtered in
  (∀ dir sort_by fs t,
      files (export_chapter dir min_frequency sort_by fs (t, frequencies))
        !! chapter_filename dir t
      = Some ([Cstr (u "Word"); Cstr (u "Frequency")]
              :: map (λ wf, [Cstr wf.1; Cint wf.2])
                     (sorted_words sort_by filtered)))
  ∧ by_freq ≡ₚ map_to_list filtered
  ∧ StronglySorted frequency_order by_freq
  ∧ by_alpha ≡ₚ map_to_list filtered
  ∧ StronglySorted alphabetical_order by_alpha
  ∧ ∀ i j a b, (i < j)%nat → by_freq !! i = Some a → by_freq !! j = Some b →
               a.2 = b.2 → lex_lt a.1 b.1.
Proof.
  intros filtered by_freq by_alpha.
  assert (Hsorted : StronglySorted frequency_order by_freq).
  { subst by_freq. rewrite sorted_words_frequency.
    apply sorted_strongly;
      eauto using by_frequency_sound, by_frequency_total,
                  frequency_order_trans. }
  assert (Hperm : by_freq ≡ₚ map_to_list filtered)
    by apply sorted_words_perm.
  split_and!; [| done | done | apply sorted_words_perm | |].
  - intros dir sort_by fs t. cbn [export_chapter write_csv files].
    by rewrite lookup_insert_eq.
  - subst by_alpha.
    rewrite sorted_words_other by apply policy_alphabetical.
    apply sorted_strongly;
      eauto using by_word_sound, by_word_total, alphabetical_order_trans.
  - intros i j a b Hij Hi Hj Hcount.
    destruct (StronglySorted_lookup _ _ _ _ _ _ Hsorted Hij Hi Hj)
      as [Hlt | [_ [Heq | Hlt]]]; [lia | | done].
    assert (Hnodup : NoDup (by_freq.*1)).
    { rewrite Hperm. apply NoDup_fst_map_to_list. }
    assert (i = j); [| lia].
    eapply (NoDup_lookup _ _ _ _ Hnodup);
      rewrite list_lookup_fmap; [by rewrite Hi | by rewrite Hj, Heq].
Qed.

End RowOrder.

Lemma exported_rows_order_witness :
  let rows := sorted_words (u "frequency")
                (filter_frequencies 1 {[ u "isso" := 2%Z; u "ch" := 1%Z;
                                         u "dia" := 2%Z ]}) in
  rows = [(u "dia", 2%Z); (u "isso", 2%Z); (u "ch", 1%Z)]
  ∧ lex_lt (u "dia") (u "isso").
Proof.
  split; [by_evaluation |].
  pose proof (exported_rows_order (H := Reference.library) 1
                {[ u "isso" := 2%Z; u "ch" := 1%Z; u "dia" := 2%Z ]})
    as (_ & _ & _ & _ & _ & Hties).
  apply (Hties 0%nat 1%nat (u "dia", 2%Z) (u "isso", 2%Z));
    [lia | by_evaluation | by_evaluation | done].
Defined.

(** ** The compound table *)

Lemma table_ok : forallb phrase_ok PORTUGUESE_COMPOUNDS = true.
Proof. by_evaluation. Qed.

Lemma table_entry p q :
  (p, q) ∈ PORTUGUESE_COMPOUNDS → phrase_ok (p, q) = true.
Proof.
  intros Hin. pose proof table_ok as Hok.
  rewrite forallb_forall in Hok. apply Hok. by apply list_elem_of_In.
Qed.

Lemma sorted_compounds_perm : sorted_compounds ≡ₚ keys PORTUGUESE_COMPOUNDS.
Proof. apply sorted_perm. Qed.

Lemma sorted_compounds_sorted :
  StronglySorted (λ a b, (length b ≤ length a)%nat) sorted_compounds.
Proof.
  apply sorted_strongly.
  - intros a b. apply Nat.leb_le.
  - intros a b Hle. apply Nat.leb_gt in Hle. lia.
  - intros a b c. lia.
Qed.

(** From here on the sorted table is used through its properties and
    through evaluation only. *)
Opaque sorted_compounds.

Lemma sorted_compounds_entry p :
  p ∈ sorted_compounds → (p, underscored p) ∈ PORTUGUESE_COMPOUNDS.
Proof.
  rewrite sorted_compounds_perm. unfold keys.
  intros ([p' q] & -> & Hin)%list_elem_of_fmap.
  pose proof (table_entry _ _ Hin) as Hok. unfold phrase_ok in Hok.
  rewrite !andb_true_iff in Hok. destruct Hok as [[[Hq _] _] _].
  apply bool_decide_eq_true in Hq. cbn [fst snd] in *. by rewrite <- Hq.
Qed.

Lemma getitem_sorted_compounds p :
  p ∈ sorted_compounds →
  getitem PORTUGUESE_COMPOUNDS p = Ok (underscored p).
Proof.
  intros Hin.
  assert (Hall : forallb
            (λ p, match getitem PORTUGUESE_COMPOUNDS p with
                  | Ok q => bool_decide (q = underscored p)
                  | Raise _ => false
                  end) sorted_compounds = true) by by_evaluation.
  rewrite forallb_forall in Hall.
  specialize (Hall p (proj1 (list_elem_of_In _ _) Hin)).
  destruct (getitem PORTUGUESE_COMPOUNDS p) as [q | e]; [| done].
  apply bool_decide_eq_true in Hall. by subst.
Qed.

Section NormalizerFacts.
Context `{Library}.

Lemma replace_compounds_ok text :
  replace_compounds text = Ok (fold_compounds (str_lower text)).
Proof.
  unfold replace_compounds, fold_compounds.
  apply (for_each_ok _ (λ text p, replace p (underscored p) text)).
  intros acc p Hp. by rewrite (getitem_sorted_compounds _ Hp).
Qed.

Lemma clean_text_ok T T' :
  html_unescape T = Ok T' → clean_text T = Ok (normalized T').
Proof.
  intros Hdecoded. unfold clean_text. rewrite Hdecoded.
  cbn [mbind result_bind]. by rewrite replace_compounds_ok.
Qed.

Lemma clean_text_raise T e :
  html_unescape T = Raise e → clean_text T = Raise e.
Proof. intros Hraise. unfold clean_text. by rewrite Hraise. Qed.

End NormalizerFacts.

(** ** The extractor and its failures *)

Section ExtractorFacts.
Context `{Library}.

(** The loop of [analyze_epub] when the analysis of every part
    returns. *)
Lemma analyze_parts_ok (parts : list EpubItem) (record : EpubItem → chapter) :
  (∀ item, item ∈ parts → analyze_item item = Ok (record item)) →
  for_each
    (λ chapter_analyses item,
       analysis ← analyze_item item;
       mret (chapter_analyses ++ [analysis]))
    parts []
  = Ok (map record parts).
Proof.
  intros Hparts.
  rewrite (for_each_ok _ (λ acc item, acc ++ [record item])).
  - by rewrite foldl_snoc_map.
  - intros acc item Hitem. by rewrite (Hparts item Hitem).
Qed.

(** C2, as the code has it.  The program decodes what [get_content]
    returns, never the stored bytes of a part, and the bytes returned
    decode: a part that is stored in another encoding raises no decoding
    error.  No part is skipped: when the analysis of every document part
    returns, every part has its record, in the order of the container.
    There is one [try] block around the loop: when the analysis of some
    part raises, whatever the exception, the handler returns the empty
    list and the records of all parts are lost. *)
Theorem no_part_is_skipped
    (read_epub : storage) (path : str) (book : EpubBook) :
  read_epub path = Ok book →
  (∀ item b, get_content item = Ok (Bytes b) →
             ∃ content, decode (Bytes b) = Ok content)
  ∧ ((∀ item, item ∈ get_items_of_type book ITEM_DOCUMENT →
              ∃ r, analyze_item item = Ok r) →
     Forall2 (λ item r, analyze_item item = Ok r)
             (get_items_of_type book ITEM_DOCUMENT)
             (analyze_epub read_epub path))
  ∧ (∀ item e, item ∈ get_items_of_type book ITEM_DOCUMENT →
               analyze_item item = Raise e →
               analyze_epub read_epub path = []).
Proof.
  intros Hbook. split_and!.
  - intros item b. apply get_content_utf8.
  - intros Hall. unfold analyze_epub, analyze_epub_try. rewrite Hbook.
    cbn [mbind result_bind].
    set (record := λ item : EpubItem,
           match analyze_item item with
           | Ok r => r
           | Raise _ => ([], ∅)
           end).
    rewrite (analyze_parts_ok _ record).
    + apply Forall2_fmap_r, Forall_Forall2_diag, Forall_forall.
      intros item Hitem. destruct (Hall item Hitem) as [r Hr].
      unfold compose. subst record. cbn beta. by rewrite Hr.
    + intros item Hitem. destruct (Hall item Hitem) as [r Hr].
      subst record. cbn beta. by rewrite Hr.
  - intros item e Hitem Hraise.
    unfold analyze_epub, analyze_epub_try. rewrite Hbook.
    cbn [mbind result_bind].
    edestruct (for_each_raise
      (λ chapter_analyses item,
         analysis ← analyze_item item; mret (chapter_analyses ++ [analysis]))
      _ item Hitem) as [e' ->]; [| done].
    intros acc. exists e. by rewrite Hraise.
Qed.

(** C3, as the code has it.  When the container fails to open, the
    chapter list is empty and no exception leaves the run, which still
    makes the output directory and writes [combined_analysis.csv] with
    the header row [Word,Total] and nothing else; no per-chapter file
    is written. *)
Theorem failed_open_writes_header_only
    (read_epub : storage) (timestamp : str) (fs : FileSystem) (e : exn) :
  read_epub epub_path = Raise e →
  main read_epub timestamp fs =
    ([], Ok (write_csv (combined_filename timestamp)
                       [[Cstr (u "Word"); Cstr (u "Total")]]
                       (makedirs (output_dir timestamp) fs))).
Proof.
  intros Hopen.
  unfold main, analyze_epub, analyze_epub_try. rewrite Hopen. simpl.
  unfold export_to_csv. simpl.
  unfold sorted_all_words. rewrite elements_empty.
  by case_bool_decide.
Qed.

End ExtractorFacts.

Lemma ch1_item_record :
  analyze_item (H := Reference.library) ch1_item
  = Ok (u "ch1.xhtml", ch1_frequencies).
Proof. by_evaluation. Qed.

Lemma latin1_item_record :
  analyze_item (H := Reference.library) latin1_item
  = Ok (u "ch2.xhtml", {[ u "café" := 1%Z ]}).
Proof. by_evaluation. Qed.

Lemma latin1_item_stored :
  decode_utf8 (file_content latin1_item) = Raise UnicodeDecodeError.
Proof. by_evaluation. Qed.

Lemma long_reference_item_raises :
  analyze_item (H := Reference.library) long_reference_item
  = Raise ValueError.
Proof. by_evaluation. Qed.

Lemma no_part_is_skipped_witness :
  Forall2 (λ item r, analyze_item (H := Reference.library) item = Ok r)
          [ch1_item; latin1_item]
          (analyze_epub (H := Reference.library)
             (shelf [ch1_item; cover_item; latin1_item]) (u "book.epub"))
  ∧ analyze_epub (H := Reference.library)
      (shelf [ch1_item; long_reference_item]) (u "book.epub") = [].
Proof.
  split.
  - apply (no_part_is_skipped (H := Reference.library)
             (shelf [ch1_item; cover_item; latin1_item]) (u "book.epub")
             {| get_items := [ch1_item; cover_item; latin1_item] |}
             eq_refl).
    intros item Hitem. vm_compute in Hitem.
    apply list_elem_of_In in Hitem as [<- | [<- | []]].
    + eexists. apply ch1_item_record.
    + eexists. apply latin1_item_record.
  - apply (no_part_is_skipped (H := Reference.library)
             (shelf [ch1_item; long_reference_item]) (u "book.epub")
             {| get_items := [ch1_item; long_reference_item] |}
             eq_refl)
      with (item := long_reference_item) (e := ValueError).
    + vm_compute. apply list_elem_of_In. right. by left.
    + apply long_reference_item_raises.
Defined.

(** C2 fails on a container with a part stored in Latin-1: the part
    raises no decoding error and is not skipped, it has a record of its
    own. *)
Lemma invalid_part_gets_a_record :
  ¬ skips_invalid_parts (H := Reference.library)
      (shelf [ch1_item; latin1_item]) (u "book.epub")
      {| get_items := [ch1_item; latin1_item] |}.
Proof.
  intros Hclaim.
  destruct (Hclaim [ch1_item] latin1_item [] eq_refl latin1_item_stored)
    as [Hraise _].
  rewrite latin1_item_record in Hraise. discriminate.
Qed.

Lemma missing_book_run :
  main (H := Reference.library) missing (u "20250101_120000") empty_fs =
    ([], Ok (write_csv (combined_filename (u "20250101_120000"))
                       [[Cstr (u "Word"); Cstr (u "Total")]]
                       (makedirs (output_dir (u "20250101_120000")) empty_fs))).
Proof. by_evaluation. Qed.

Lemma failed_open_writes_header_only_witness :
  main (H := Reference.library) missing (u "20250101_120000") empty_fs =
    ([], Ok (write_csv (combined_filename (u "20250101_120000"))
                       [[Cstr (u "Word"); Cstr (u "Total")]]
                       (makedirs (output_dir (u "20250101_120000")) empty_fs))).
Proof.
  apply (failed_open_writes_header_only (H := Reference.library)
           missing (u "20250101_120000") empty_fs EpubException).
  reflexivity.
Defined.

(** C3 fails on a storage where opening raises: a file is written. *)
Lemma failed_open_writes_a_file :
  ¬ writes_no_file empty_fs
      (main (H := Reference.library) missing (u "20250101_120000")
            empty_fs).2.
Proof.
  rewrite missing_book_run.
  intros (fs & [= <-] & Hfiles). simpl in Hfiles.
  apply (insert_non_empty _ _ _ Hfiles).
Qed.

(** ** The chapter title *)

Lemma node_forall_ind (P : node → Prop) :
  (∀ s, P (Text s)) →
  (∀ name contents, Forall P contents → P (Tag name contents)) →
  ∀ n, P n.
Proof.
  intros Htext Htag. fix IH 1. intros [s | name contents].
  - apply Htext.
  - apply Htag. induction contents as [|c contents IHc]; constructor.
    + apply IH.
    + apply IHc.
Qed.

Lemma head_app {A} (l k : list A) :
  head (l ++ k) = match head l with Some x => Some x | None => head k end.
Proof. by destruct l. Qed.

Lemma find_in_first names n :
  find_in names n = head (filter (λ n, named names n) (descendants n)).
Proof.
  induction n as [s | name contents IH] using node_forall_ind; [done |].
  simpl. case_bool_decide as Hname.
  - rewrite filter_cons_True; [done |]. simpl. by apply bool_decide_pack.
  - rewrite filter_cons_False.
    2: { simpl. intros Hn. by apply bool_decide_unpack in Hn. }
    induction IH as [|c contents Hc _ IHcontents]; [done |].
    simpl. rewrite filter_app, head_app, <- Hc, <- IHcontents. done.
Qed.

Lemma find_first names sp : find names sp = first_element names sp.
Proof.
  unfold first_element, soup_elements.
  induction sp as [|c sp IH]; [done |].
  simpl. by rewrite filter_app, head_app, <- find_in_first, <- IH.
Qed.

Section TitleFacts.
Context `{Library}.

(** The record of a part, call by call. *)
Lemma analyze_item_run item returned content sp T :
  get_content item = Ok returned → decode returned = Ok content →
  html_parser content = Ok sp →
  html_unescape (soup_get_text (decompose_all [u "script"; u "style"] sp))
  = Ok T →
  analyze_item item
  = Ok (derived_title (get_name item) sp,
        get_word_frequencies (normalized T)).
Proof.
  intros Hget Hdecode Hparse Htext.
  unfold analyze_item, html_to_text, derived_title.
  rewrite Hget. cbn [mbind result_bind]. rewrite Hdecode.
  cbn [mbind result_bind]. rewrite Hparse.
  cbn [mbind result_bind mret result_ret].
  rewrite (clean_text_ok _ _ Htext). cbn [mbind result_bind].
  by rewrite !find_first.
Qed.

(** C7, as the code has it.  The title is taken from the document that
    [get_content] returns for the part, once it is decoded and parsed:
    it is the text of the first [title] element of that document when it
    has one; otherwise the text of its first [h1] or [h2] element,
    headings of a deeper level not being looked at; otherwise the
    internal file name of the part.  The part has a record, with this
    title, whenever entity decoding returns on its text. *)
Theorem chapter_title_derivation (item : EpubItem) (returned : returned)
    (content : str) (sp : soup) :
  get_content item = Ok returned → decode returned = Ok content →
  html_parser content = Ok sp →
  (∀ r, analyze_item item = Ok r →
        r.1 = derived_title (get_name item) sp)
  ∧ (∀ T, html_unescape
            (soup_get_text (decompose_all [u "script"; u "style"] sp))
          = Ok T →
          ∃ r, analyze_item item = Ok r
               ∧ r.1 = derived_title (get_name item) sp).
Proof.
  intros Hget Hdecode Hparse.
  assert (Hrun : ∀ T,
    html_unescape (soup_get_text (decompose_all [u "script"; u "style"] sp))
    = Ok T →
    ∃ r, analyze_item item = Ok r
         ∧ r.1 = derived_title (get_name item) sp).
  { intros T HT. eexists. split; [by eapply analyze_item_run | done]. }
  split; [| done].
  intros r Hr.
  destruct (html_unescape
              (soup_get_text (decompose_all [u "script"; u "style"] sp)))
    as [T | e] eqn:HT.
  - destruct (Hrun T eq_refl) as (r' & Hr' & Htitle). congruence.
  - exfalso. revert Hr. unfold analyze_item, html_to_text.
    rewrite Hget. cbn [mbind result_bind]. rewrite Hdecode.
    cbn [mbind result_bind]. rewrite Hparse.
    cbn [mbind result_bind mret result_ret].
    by rewrite (clean_text_raise _ _ HT).
Qed.

End TitleFacts.

Lemma subheading_item_returned :
  let content := Reference.handed_over subheading_item in
  let sp := Reference.parse content in
  get_content (Library := Reference.library) subheading_item
  = Ok (Bytes (Reference.encode content))
  ∧ decode (Bytes (Reference.encode content)) = Ok content
  ∧ html_parser (Library := Reference.library) content = Ok sp
  ∧ specified_title (get_name subheading_item) sp = u "Intro"
  ∧ derived_title (get_name subheading_item) sp = u "ch3.xhtml".
Proof. cbv zeta. split_and!; by_evaluation. Qed.

Lemma subheading_item_record :
  analyze_item (H := Reference.library) subheading_item
  = Ok (u "ch3.xhtml",
        {[ u "intro" := 1%Z; u "era" := 1%Z; u "uma" := 1%Z;
           u "vez" := 1%Z ]}).
Proof. by_evaluation. Qed.

Lemma chapter_title_derivation_witness :
  ∃ r, analyze_item (H := Reference.library) subheading_item = Ok r
       ∧ r.1 = u "ch3.xhtml".
Proof.
  destruct subheading_item_returned
    as (Hget & Hdecode & Hparse & _ & Hderived).
  destruct (chapter_title_derivation (H := Reference.library)
              subheading_item _ _ _ Hget Hdecode Hparse)
    as [Htitle _].
  exists (u "ch3.xhtml",
          {[ u "intro" := 1%Z; u "era" := 1%Z; u "uma" := 1%Z;
             u "vez" := 1%Z ]}).
  split; [apply subheading_item_record |].
  rewrite <- Hderived. apply Htitle, subheading_item_record.
Defined.

(** C7 fails on a part whose only heading is an [h3]: the title is the
    file name of the part, not the text of the heading. *)
Lemma deeper_heading_is_not_consulted :
  ¬ title_as_specified (H := Reference.library) subheading_item.
Proof.
  intros Hclaim.
  destruct subheading_item_returned
    as (Hget & Hdecode & Hparse & Hspecified & _).
  specialize (Hclaim _ _ _ _ Hget Hdecode Hparse subheading_item_record).
  rewrite Hspecified in Hclaim. vm_compute in Hclaim. discriminate.
Qed.

(** ** The combined table *)

Lemma last_titled_elem t chapters f :
  (t, f) ∈ chapters → is_Some (last_titled t chapters).
Proof.
  induction chapters as [|[t' f'] rest IH]; [by intros ?%not_elem_of_nil |].
  intros Hin. simpl.
  destruct (last_titled t rest) as [later |]; [done |].
  apply elem_of_cons in Hin as [[= <- <-] | Hin].
  - by rewrite bool_decide_eq_true_2.
  - by destruct (IH Hin).
Qed.

Lemma last_titled_unique t f chapters :
  NoDup chapters.*1 → (t, f) ∈ chapters → last_titled t chapters = Some f.
Proof.
  induction chapters as [|[t' f'] rest IH]; [by intros _ ?%not_elem_of_nil |].
  intros [Hfresh Hrest]%NoDup_cons Hin. simpl in *.
  apply elem_of_cons in Hin as [[= <- <-] | Hin].
  - destruct (last_titled t rest) as [later |] eqn:Hlater.
    + exfalso. apply Hfresh.
      clear -Hlater. induction rest as [|[t2 f2] rest IH]; [done |].
      simpl in *. destruct (last_titled t rest); [right; by apply IH |].
      case_bool_decide; [subst; left | done].
    + by rewrite bool_decide_eq_true_2.
  - by rewrite (IH Hrest Hin).
Qed.

Lemma collect_counts min_frequency chapters all_words counts t :
  (foldl (collect min_frequency) (all_words, counts) chapters).2 !! t =
    match last_titled t chapters with
    | Some frequencies => Some (filter_frequencies min_frequency frequencies)
    | None => counts !! t
    end.
Proof.
  revert all_words counts.
  induction chapters as [|[t' f'] rest IH]; intros all_words counts; [done |].
  cbn [foldl collect last_titled]. rewrite IH.
  destruct (last_titled t rest) as [later |]; [done |].
  rewrite lookup_insert. by repeat case_decide; case_bool_decide.
Qed.

(** The count read by [chapter_word_counts[chapter_title].get(word, 0)]. *)
Lemma collected_cell min_frequency chapters t f w counts :
  (t, f) ∈ chapters →
  (foldl (collect min_frequency) (∅, ∅) chapters).2 !! t = Some counts →
  default 0%Z (counts !! w) = column_count min_frequency chapters t w.
Proof.
  intros Hin. rewrite collect_counts. unfold column_count, filtered_count.
  destruct (last_titled_elem _ _ _ Hin) as [later ->].
  by intros [= <-].
Qed.

Lemma combined_cells min_frequency chapters w :
  let counts := (foldl (collect min_frequency) (∅, ∅) chapters).2 in
  ∀ chs row total,
    chs ⊆ chapters →
    for_each (combined_cell counts w) chs (row, total) =
      Ok (row ++ map (λ ch, Cint (column_count min_frequency chapters ch.1 w))
                     chs,
          (total + Zsum (map (λ ch, column_count min_frequency chapters ch.1 w)
                             chs))%Z).
Proof.
  intros counts chs.
  induction chs as [|[t f] chs IH]; intros row total Hsub.
  - simpl. by rewrite app_nil_r, Z.add_0_r.
  - assert (Hin : (t, f) ∈ chapters) by (apply Hsub; left).
    cbn [for_each combined_cell fst]. unfold getitem_map.
    destruct (counts !! t) as [c |] eqn:Hc.
    2: { subst counts. rewrite collect_counts in Hc.
         destruct (last_titled_elem _ _ _ Hin) as [later Hl].
         by rewrite Hl in Hc. }
    cbn [mbind result_bind mret result_ret].
    rewrite (collected_cell _ _ _ _ _ _ Hin Hc).
    rewrite IH by (intros ch Hch; apply Hsub; by right).
    cbn [map Zsum foldr fst]. rewrite <- app_assoc. do 2 f_equal.
    fold (Zsum (map (λ ch, column_count min_frequency chapters ch.1 w) chs)).
    lia.
Qed.

Lemma combined_row_eq min_frequency chapters w :
  combined_row chapters (foldl (collect min_frequency) (∅, ∅) chapters).2 w
  = Ok (combined_row_of min_frequency chapters w).
Proof.
  unfold combined_row. rewrite combined_cells by done.
  cbn [mbind result_bind mret result_ret fst snd].
  unfold combined_row_of. by rewrite <- app_assoc, Z.add_0_l.
Qed.

Section ExporterFacts.
Context `{Library}.

(** What [export_to_csv] returns: the per-chapter files of the first
    loop, then the combined file. *)
Lemma export_to_csv_eq timestamp chapters min_frequency sort_by fs :
  let collected := foldl (collect min_frequency) (∅, ∅) chapters in
  export_to_csv timestamp chapters min_frequency sort_by fs =
    Ok (write_csv (combined_filename timestamp)
          (combined_header chapters
           :: map (combined_row_of min_frequency chapters)
                  (sorted_all_words sort_by collected.1 collected.2))
          (foldl (export_chapter (output_dir timestamp) min_frequency sort_by)
                 (makedirs (output_dir timestamp) fs) chapters)).
Proof.
  intros collected. unfold export_to_csv.
  fold (output_dir timestamp). fold (combined_filename timestamp).
  fold collected. destruct collected as [all_words counts] eqn:Hcollected.
  cbn [fst snd].
  rewrite (for_each_ok _ (λ rows word,
             rows ++ [combined_row_of min_frequency chapters word])).
  - cbn [mbind result_bind mret result_ret]. by rewrite foldl_snoc_map.
  - intros rows word _.
    replace counts with (foldl (collect min_frequency) (∅, ∅) chapters).2
      by (subst collected; by rewrite Hcollected).
    by rewrite combined_row_eq.
Qed.

End ExporterFacts.

Lemma last_titled_app t a b :
  last_titled t (a ++ b) =
    match last_titled t b with
    | Some later => Some later
    | None => last_titled t a
    end.
Proof.
  induction a as [|[t' f'] a IH]; simpl.
  - by destruct (last_titled t b).
  - rewrite IH. by destruct (last_titled t b).
Qed.

Lemma last_titled_absent t chapters :
  t ∉ chapters.*1 → last_titled t chapters = None.
Proof.
  induction chapters as [|[t' f'] rest IH]; [done |].
  intros Hnot. simpl in *. apply not_elem_of_cons in Hnot as [Hne Hnot].
  rewrite (IH Hnot). by rewrite bool_decide_eq_false_2.
Qed.

Lemma total_of_combined_row min_frequency chapters w :
  total_of (combined_row_of min_frequency chapters w) =
    Some (Zsum (map (λ ch, column_count min_frequency chapters ch.1 w)
                    chapters)).
Proof.
  unfold total_of, combined_row_of. by rewrite !app_assoc, last_snoc.
Qed.

Lemma Zsum_ext {A} (f g : A → Z) l :
  (∀ x, x ∈ l → f x = g x) → Zsum (map f l) = Zsum (map g l).
Proof.
  induction l as [|x l IH]; intros Hfg; [done |].
  simpl. rewrite Hfg by left. rewrite IH; [done |].
  intros y Hy. apply Hfg. by right.
Qed.

Section CombinedFacts.
Context `{Library}.

Lemma export_chapters_files dir min_frequency sort_by chapters fs path :
  files (foldl (export_chapter dir min_frequency sort_by) fs chapters) !! path
  = match last_filed dir path chapters with
    | Some frequencies => Some (chapter_rows sort_by min_frequency frequencies)
    | None => files fs !! path
    end.
Proof.
  revert fs. induction chapters as [|[t f] rest IH]; intros fs; [done |].
  cbn [foldl last_filed]. rewrite IH.
  destruct (last_filed dir path rest) as [later |]; [done |].
  cbn [export_chapter write_csv files]. rewrite lookup_insert.
  by repeat case_decide; case_bool_decide.
Qed.

Lemma last_filed_app dir path a b :
  last_filed dir path (a ++ b) =
    match last_filed dir path b with
    | Some later => Some later
    | None => last_filed dir path a
    end.
Proof.
  induction a as [|[t' f'] a IH]; simpl.
  - by destruct (last_filed dir path b).
  - rewrite IH. by destruct (last_filed dir path b).
Qed.

Lemma last_filed_absent dir path chapters :
  (∀ ch, ch ∈ chapters → chapter_filename dir ch.1 ≠ path) →
  last_filed dir path chapters = None.
Proof.
  induction chapters as [|[t' f'] rest IH]; [done |].
  intros Hne. simpl. rewrite IH by (intros ch Hch; apply Hne; by right).
  rewrite bool_decide_eq_false_2; [done |]. apply (Hne (t', f')). left.
Qed.

(** The combined file never has the name of a per-chapter file. *)
Lemma chapter_filename_not_combined timestamp t :
  chapter_filename (output_dir timestamp) t ≠ combined_filename timestamp.
Proof.
  unfold chapter_filename, combined_filename, path_join.
  intros Heq. do 2 apply app_inv_head in Heq.
  apply (f_equal (@rev N)) in Heq. rewrite rev_app_distr in Heq.
  vm_compute in Heq. discriminate.
Qed.

(** C4, as the code has it.  The export succeeds and writes the combined
    file.  In each of its rows Total is the sum, over the chapters of the
    input sequence, of the count shown in the chapter's column, which is
    the filtered count of the word in the last chapter that carries the
    column's title.  When the titles are pairwise distinct this is the
    sum of the word's per-chapter filtered counts. *)
Theorem combined_totals (timestamp : str) (chapters : list chapter)
    (min_frequency : Z) (sort_by : str) (fs : FileSystem) :
  (∃ fs' rows,
      export_to_csv timestamp chapters min_frequency sort_by fs = Ok fs'
      ∧ files fs' !! combined_filename timestamp
        = Some (combined_header chapters :: rows))
  ∧ (∀ fs' header rows r w,
        export_to_csv timestamp chapters min_frequency sort_by fs = Ok fs' →
        files fs' !! combined_filename timestamp = Some (header :: rows) →
        r ∈ rows → word_of r = Some w →
        total_of r =
          Some (Zsum (map (λ ch, column_count min_frequency chapters ch.1 w)
                          chapters)))
  ∧ (NoDup chapters.*1 →
     totals_are_sums timestamp chapters min_frequency sort_by fs).
Proof.
  pose proof (export_to_csv_eq timestamp chapters min_frequency sort_by fs)
    as Hexport. cbv zeta in Hexport.
  assert (Hgeneral : ∀ fs' header rows r w,
        export_to_csv timestamp chapters min_frequency sort_by fs = Ok fs' →
        files fs' !! combined_filename timestamp = Some (header :: rows) →
        r ∈ rows → word_of r = Some w →
        total_of r =
          Some (Zsum (map (λ ch, column_count min_frequency chapters ch.1 w)
                          chapters))).
  { intros fs' header rows r w Hfs Hfile Hr Hw.
    rewrite Hexport in Hfs. injection Hfs as <-.
    cbn [write_csv files] in Hfile. rewrite lookup_insert_eq in Hfile.
    injection Hfile as _ <-.
    apply list_elem_of_fmap in Hr as (w' & -> & _).
    injection Hw as ->. apply total_of_combined_row. }
  split_and!; [| done |].
  - eexists _, _. split; [exact Hexport |].
    cbn [write_csv files]. by rewrite lookup_insert_eq.
  - intros Hnodup fs' header rows r w Hfs Hfile Hr Hw.
    rewrite (Hgeneral _ _ _ _ _ Hfs Hfile Hr Hw). f_equal.
    apply Zsum_ext. intros [t f] Hin. unfold column_count. cbn [fst snd].
    by rewrite (last_titled_unique _ _ _ Hnodup Hin).
Qed.

End CombinedFacts.

Lemma combined_totals_witness :
  totals_are_sums (H := Reference.library) (u "20250101_120000")
    [(u "A", {[ u "x" := 1%Z ]}); (u "B", {[ u "x" := 2%Z ]})]
    1 (u "frequency") empty_fs.
Proof.
  apply (combined_totals (H := Reference.library)).
  vm_compute. repeat constructor; rewrite list_elem_of_In; simpl; intuition discriminate.
Defined.

(** C4 fails on two chapters with the same title: the row of [x] has
    Total 4, the sum of its filtered counts is 3. *)
Lemma repeated_title_total :
  ¬ totals_are_sums (H := Reference.library) (u "20250101_120000")
      twin_chapters 1 (u "frequency") empty_fs.
Proof.
  intros Hclaim.
  pose proof (export_to_csv_eq (H := Reference.library) (u "20250101_120000")
                twin_chapters 1 (u "frequency") empty_fs) as Hexport.
  cbv zeta in Hexport.
  specialize (Hclaim _ (combined_header twin_chapters)
                [[Cstr (u "x"); Cint 2; Cint 2; Cint 4]]
                [Cstr (u "x"); Cint 2; Cint 2; Cint 4] (u "x") Hexport).
  assert (Htotal : Some 4%Z = Some 3%Z); [| discriminate].
  apply Hclaim; [by_evaluation | left | by_evaluation].
Qed.

Lemma combined_row_column min_frequency chapters w i t f :
  chapters !! i = Some (t, f) →
  combined_row_of min_frequency chapters w !! S i =
    Some (Cint (column_count min_frequency chapters t w)).
Proof.
  intros Hi. unfold combined_row_of.
  rewrite lookup_app_r by (simpl; lia).
  replace (S i - length [Cstr w])%nat with i by (simpl; lia).
  rewrite lookup_app_l.
  - by rewrite list_lookup_fmap, Hi.
  - rewrite length_map. by eapply lookup_lt_Some.
Qed.

Lemma combined_header_column chapters i t f :
  chapters !! i = Some (t, f) →
  combined_header chapters !! S i = Some (Cstr t).
Proof.
  intros Hi. unfold combined_header.
  rewrite lookup_app_r by (simpl; lia).
  replace (S i - length [Cstr (u "Word")])%nat with i by (simpl; lia).
  rewrite lookup_app_l.
  - by rewrite list_lookup_fmap, Hi.
  - rewrite length_map. by eapply lookup_lt_Some.
Qed.

Lemma filter_frequencies_lookup min_frequency frequencies w c :
  filter_frequencies min_frequency frequencies !! w = Some c
  ↔ frequencies !! w = Some c ∧ (min_frequency ≤ c)%Z.
Proof. unfold filter_frequencies. by rewrite map_lookup_filter_Some. Qed.

Lemma collect_words min_frequency chapters all_words counts w :
  w ∈ (foldl (collect min_frequency) (all_words, counts) chapters).1
  ↔ w ∈ all_words
    ∨ ∃ ch, ch ∈ chapters
            ∧ is_Some (filter_frequencies min_frequency ch.2 !! w).
Proof.
  revert all_words counts.
  induction chapters as [|[t f] rest IH]; intros all_words counts.
  - cbn. split; [by left |].
    intros [Hall | (ch & Hin & _)]; [done | by apply not_elem_of_nil in Hin].
  - cbn [foldl collect]. rewrite IH, elem_of_union, elem_of_dom. split.
    + intros [[Hall | Hf] | (ch & Hin & Hw)].
      * by left.
      * right. exists (t, f). split; [left | done].
      * right. exists ch. split; [by right | done].
    + intros [Hall | (ch & Hin & Hw)]; [by left; left |].
      apply elem_of_cons in Hin as [-> | Hin]; [by left; right |].
      right. by exists ch.
Qed.

Lemma sorted_all_words_perm sort_by all_words counts :
  sorted_all_words sort_by all_words counts ≡ₚ elements all_words.
Proof. unfold sorted_all_words. case_bool_decide; apply sorted_perm. Qed.

Section RepeatedTitles.
Context `{Library}.

(** C10.  When two chapters of the input sequence carry the same title,
    their per-chapter files have the same path and the file left there
    holds the rows of the later chapter (no chapter after it writes to
    that path).  The combined file has a row for every word that reaches
    the threshold in some chapter, the earlier one included, and for no
    other word; both columns headed by the title hold, in every row, the
    later chapter's filtered count of the row's word, so the counts of
    the earlier chapter are not shown. *)
Theorem repeated_title_overwrites (timestamp : str)
    (before : list chapter) (t : str) (earlier : gmap str Z)
    (between : list chapter) (later : gmap str Z) (after : list chapter)
    (min_frequency : Z) (sort_by : str) (fs : FileSystem) :
  let chapters := before ++ (t, earlier) :: between ++ (t, later) :: after in
  let dir := output_dir timestamp in
  let first := S (length before) in
  let second := S (length before + S (length between)) in
  (∀ ch, ch ∈ after → chapter_filename dir ch.1 ≠ chapter_filename dir t) →
  ∃ fs' rows,
    export_to_csv timestamp chapters min_frequency sort_by fs = Ok fs'
    ∧ files fs' !! chapter_filename dir t
      = Some (chapter_rows sort_by min_frequency later)
    ∧ files fs' !! combined_filename timestamp
      = Some (combined_header chapters :: rows)
    ∧ combined_header chapters !! first = Some (Cstr t)
    ∧ combined_header chapters !! second = Some (Cstr t)
    ∧ (∀ w, (∃ r, r ∈ rows ∧ word_of r = Some w)
            ↔ ∃ ch c, ch ∈ chapters ∧ ch.2 !! w = Some c
                      ∧ (min_frequency ≤ c)%Z)
    ∧ ∀ r, r ∈ rows →
        ∃ w, word_of r = Some w
             ∧ r !! first = Some (Cint (filtered_count min_frequency later w))
             ∧ r !! second = Some (Cint (filtered_count min_frequency later w)).
Proof.
  intros chapters dir first second Hafter.
  assert (Hfirst : chapters !! length before = Some (t, earlier)).
  { subst chapters. by rewrite list_lookup_middle. }
  assert (Hsecond :
            chapters !! (length before + S (length between))%nat
            = Some (t, later)).
  { subst chapters. rewrite lookup_app_r by lia.
    replace (length before + S (length between) - length before)%nat
      with (S (length between)) by lia.
    change (((t, earlier) :: ?l) !! S ?n) with (l !! n).
    by rewrite list_lookup_middle. }
  assert (Hlast : last_titled t chapters = Some later).
  { subst chapters.
    rewrite last_titled_app. cbn [last_titled].
    rewrite last_titled_app. cbn [last_titled].
    rewrite last_titled_absent, bool_decide_eq_true_2; [done | done |].
    intros ((t' & f') & Ht & Hin)%list_elem_of_fmap. simpl in Ht. subst t'.
    by apply (Hafter _ Hin). }
  pose proof (export_to_csv_eq timestamp chapters min_frequency sort_by fs)
    as Hexport. cbv zeta in Hexport.
  eexists _, _. split; [exact Hexport |].
  cbn [write_csv files]. split_and!.
  - rewrite lookup_insert_ne
      by (apply not_eq_sym, chapter_filename_not_combined).
    rewrite export_chapters_files. subst chapters. fold dir.
    rewrite last_filed_app. cbn [last_filed].
    rewrite last_filed_app. cbn [last_filed].
    by rewrite last_filed_absent, bool_decide_eq_true_2.
  - by rewrite lookup_insert_eq.
  - by eapply combined_header_column.
  - by eapply combined_header_column.
  - intros w.
    assert (Hword : w ∈ sorted_all_words sort_by
                      (foldl (collect min_frequency) (∅, ∅) chapters).1
                      (foldl (collect min_frequency) (∅, ∅) chapters).2
                    ↔ ∃ ch c, ch ∈ chapters ∧ ch.2 !! w = Some c
                              ∧ (min_frequency ≤ c)%Z).
    { rewrite sorted_all_words_perm, elem_of_elements, collect_words. split.
      - intros [Hempty | (ch & Hin & [c Hc])];
          [by apply not_elem_of_empty in Hempty |].
        apply filter_frequencies_lookup in Hc as [Hc Hmin]. by exists ch, c.
      - intros (ch & c & Hin & Hc & Hmin). right. exists ch.
        split; [done |]. exists c. by apply filter_frequencies_lookup. }
    rewrite <- Hword. split.
    + intros (r & (w' & -> & Hin)%list_elem_of_fmap & Hw).
      cbn in Hw. by injection Hw as <-.
    + intros Hin. exists (combined_row_of min_frequency chapters w).
      split; [| done]. apply list_elem_of_fmap. by exists w.
  - intros r (w & -> & _)%list_elem_of_fmap. exists w.
    split_and!; [done | |].
    + rewrite (combined_row_column _ _ _ _ _ _ Hfirst).
      unfold column_count. by rewrite Hlast.
    + rewrite (combined_row_column _ _ _ _ _ _ Hsecond).
      unfold column_count. by rewrite Hlast.
Qed.

End RepeatedTitles.

Lemma repeated_title_overwrites_witness :
  ∃ fs',
    export_to_csv (H := Reference.library) (u "20250101_120000")
                  twin_chapters 1 (u "frequency") empty_fs = Ok fs'
    ∧ files fs' !! chapter_filename (H := Reference.library)
                     (output_dir (u "20250101_120000")) (u "A")
      = Some [[Cstr (u "Word"); Cstr (u "Frequency")];
              [Cstr (u "x"); Cint 2]]
    ∧ files fs' !! combined_filename (u "20250101_120000")
      = Some [[Cstr (u "Word"); Cstr (u "A"); Cstr (u "A");
               Cstr (u "Total")];
              [Cstr (u "x"); Cint 2; Cint 2; Cint 4]].
Proof.
  destruct (repeated_title_overwrites (H := Reference.library)
              (u "20250101_120000") [] (u "A") {[ u "x" := 1%Z ]}
              [] {[ u "x" := 2%Z ]} [] 1 (u "frequency") empty_fs)
    as (fs' & rows & Hexport & Hchapter & Hcombined & _ & _ & Hwords & Hrows).
  { by intros ch ?%not_elem_of_nil. }
  exists fs'. split; [exact Hexport |]. split.
  { rewrite Hchapter. apply (f_equal Some). reflexivity. }
  rewrite Hcombined.
  destruct (proj2 (Hwords (u "x"))) as (r & Hr & Hword).
  { exists (u "A", {[ u "x" := 1%Z ]}), 1%Z.
    split_and!; [left | reflexivity | reflexivity]. }
  destruct (Hrows r Hr) as (w & Hw & Hfirst & Hsecond).
  rewrite export_to_csv_eq in Hexport. injection Hexport as <-.
  cbn [write_csv files] in Hcombined.
  rewrite lookup_insert_eq in Hcombined. injection Hcombined as <-.
  reflexivity.
Defined.

(** ** Substring replacement *)

Lemma startswith_drop p s :
  startswith p s = true → s = p ++ drop (length p) s.
Proof.
  revert s; induction p as [|a p IH]; intros [|b s]; simpl; try done.
  rewrite andb_true_iff, N.eqb_eq. intros [-> Hp]. f_equal. by apply IH.
Qed.

Lemma startswith_app p r : startswith p (p ++ r) = true.
Proof.
  induction p as [|a p IH]; [done |]. simpl.
  by rewrite N.eqb_refl, IH.
Qed.

Lemma startswith_head a p c s :
  a ≠ c → startswith (a :: p) (c :: s) = false.
Proof. intros Hne. simpl. by rewrite (proj2 (N.eqb_neq a c) Hne). Qed.

Lemma replace_scan_skip old new k s :
  replace_scan old new k s = replace_scan old new 0 (drop k s).
Proof.
  revert k; induction s as [|c s IH]; intros [|k]; try done.
  simpl. apply IH.
Qed.

Lemma replace_nil old new : old ≠ [] → replace old new [] = [].
Proof. by destruct old. Qed.

Lemma replace_hit old new s :
  old ≠ [] → startswith old s = true →
  replace old new s = new ++ replace old new (drop (length old) s).
Proof.
  destruct old as [|a old]; [done |]. intros _ Hs.
  destruct s as [|c s]; [done |].
  unfold replace. cbn [replace_scan]. rewrite Hs.
  rewrite replace_scan_skip. do 2 f_equal. simpl. by rewrite Nat.sub_0_r.
Qed.

Lemma replace_miss old new c s :
  old ≠ [] → startswith old (c :: s) = false →
  replace old new (c :: s) = c :: replace old new s.
Proof.
  destruct old as [|a old]; [done |]. intros _ Hs.
  unfold replace. cbn [replace_scan]. by rewrite Hs.
Qed.

(** Induction on the text for [replace]: a miss moves one character on,
    a hit moves past the match. *)
Lemma replace_ind (old : str) (Hold : old ≠ []) (P : str → Prop) :
  P [] →
  (∀ c s, startswith old (c :: s) = false → P s → P (c :: s)) →
  (∀ s, s ≠ [] → startswith old s = true →
        P (drop (length old) s) → P s) →
  ∀ s, P s.
Proof.
  intros Hnil Hmiss Hhit s.
  remember (length s) as n eqn:Hn. revert s Hn.
  induction n as [n IH] using lt_wf_ind. intros [|c s] Hn; [done |].
  destruct (startswith old (c :: s)) eqn:Hs.
  - apply Hhit; [done | done |].
    apply (IH (length (drop (length old) (c :: s)))); [| done].
    rewrite length_drop. subst n. destruct old; [done |]. simpl. lia.
  - apply Hmiss; [done |]. apply (IH (length s)); [subst n; simpl; lia | done].
Qed.

Lemma replace_absent old new s :
  old ≠ [] → (∀ j, startswith old (drop j s) = false) →
  replace old new s = s.
Proof.
  intros Hold. induction s as [|c s IH]; intros Habs.
  - by apply replace_nil.
  - rewrite replace_miss; [| done | apply (Habs 0%nat)].
    f_equal. apply IH. intros j. apply (Habs (S j)).
Qed.

Lemma replace_unique old new pre post :
  old ≠ [] →
  (∀ j, startswith old (drop j (pre ++ old ++ post)) = true →
        j = length pre) →
  replace old new (pre ++ old ++ post) = pre ++ new ++ post.
Proof.
  intros Hold. induction pre as [|c pre IH]; intros Huniq.
  - cbn [app]. rewrite replace_hit; [| done | apply startswith_app].
    rewrite drop_app_length. f_equal. apply replace_absent; [done |].
    intros j. destruct (startswith old (drop j post)) eqn:Hj; [| done].
    specialize (Huniq (length old + j)%nat). cbn [app] in Huniq.
    rewrite <- drop_drop, drop_app_length in Huniq.
    specialize (Huniq Hj). destruct old; [done |]. simpl in Huniq. lia.
  - cbn [app]. rewrite replace_miss; [| done |].
    + f_equal. apply IH. intros j Hj.
      specialize (Huniq (S j) Hj). simpl in Huniq. lia.
    + destruct (startswith old _) eqn:Hj; [| done].
      by specialize (Huniq 0%nat Hj).
Qed.

Lemma underscored_length p : length (underscored p) = length p.
Proof. apply length_map. Qed.

Lemma folds_to_refl X : folds_to X X.
Proof. induction X; constructor; [by left | done]. Qed.

Lemma folds_to_trans X Y Z : folds_to X Y → folds_to Y Z → folds_to X Z.
Proof.
  unfold folds_to. intros HXY; revert Z.
  induction HXY as [|a b X Y Hab _ IH]; intros Z HYZ.
  - by inversion HYZ.
  - inversion HYZ as [|? c ? Z' Hbc HYZ']; subst. constructor; [| by apply IH].
    destruct Hab as [-> | [-> ->]], Hbc as [-> | [Hb ->]];
      try (by left); by right.
Qed.

Lemma folds_to_underscored p : folds_to p (underscored p).
Proof.
  unfold folds_to, underscored. induction p as [|a p IH]; [constructor |].
  cbn [map]. constructor; [| done].
  destruct (a =? SPACE) eqn:Hsp; [right | by left].
  by apply N.eqb_eq in Hsp.
Qed.

Lemma folds_to_replace p s :
  p ≠ [] → folds_to s (replace p (underscored p) s).
Proof.
  intros Hp. induction s as [| c s Hs IH | s Hne Hs IH] using (replace_ind p Hp).
  - rewrite replace_nil by done. constructor.
  - rewrite replace_miss by done. constructor; [by left | done].
  - rewrite replace_hit by done.
    rewrite (startswith_drop _ _ Hs) at 1.
    apply Forall2_app; [apply folds_to_underscored | done].
Qed.

Lemma folds_to_drop X Y n : folds_to X Y → folds_to (drop n X) (drop n Y).
Proof. apply Forall2_drop. Qed.

(** A match of an underscore-free pattern in a folded text is a match in
    the text before folding. *)
Lemma startswith_unfold p X Y :
  UNDERSCORE ∉ p → folds_to X Y →
  startswith p Y = true → startswith p X = true.
Proof.
  intros Hp HXY; revert p Hp.
  induction HXY as [|a b X Y Hab _ IH]; intros [|x p] Hp; simpl; try done.
  apply not_elem_of_cons in Hp as [Hx Hp].
  rewrite !andb_true_iff, !N.eqb_eq. intros [-> Hrest].
  split; [| by apply IH].
  by destruct Hab as [-> | [_ ->]].
Qed.

Lemma underscored_lookup p k c :
  p !! k = Some c → c ≠ SPACE → underscored p !! k = Some c.
Proof.
  intros Hk Hc. unfold underscored. rewrite list_lookup_fmap, Hk. simpl.
  by rewrite (proj2 (N.eqb_neq c SPACE) Hc).
Qed.

(** [replace] leaves the character at [k] alone unless a match of the
    phrase covers [k] with one of its spaces. *)
Lemma replace_lookup p s k :
  p ≠ [] →
  (∀ j c, startswith p (drop j s) = true → (j ≤ k)%nat →
          p !! (k - j)%nat = Some c → c ≠ SPACE) →
  replace p (underscored p) s !! k = s !! k.
Proof.
  intros Hp. revert k.
  induction s as [| c s Hs IH | s Hne Hs IH] using (replace_ind p Hp);
    intros k Hcover.
  - by rewrite replace_nil.
  - rewrite replace_miss by done. destruct k as [|k]; [done |].
    cbn [lookup list_lookup]. apply IH. intros j d Hj Hle Hd.
    apply (Hcover (S j) d); [done | lia | done].
  - rewrite replace_hit by done.
    destruct (decide (k < length p)%nat) as [Hlt | Hge].
    + rewrite lookup_app_l by (by rewrite underscored_length).
      rewrite (startswith_drop _ _ Hs) at 1. rewrite lookup_app_l by done.
      destruct (lookup_lt_is_Some_2 p k Hlt) as [d Hd].
      rewrite Hd. apply underscored_lookup; [done |].
      apply (Hcover 0%nat d); [done | lia | by rewrite Nat.sub_0_r].
    + rewrite lookup_app_r by (rewrite underscored_length; lia).
      rewrite underscored_length, IH.
      * rewrite lookup_drop. f_equal. lia.
      * intros j d Hj Hle Hd.
        apply (Hcover (length p + j)%nat d).
        -- by rewrite <- drop_drop.
        -- lia.
        -- rewrite <- Hd. f_equal. lia.
Qed.

(** ** Whitespace: [strip], [re.sub(r"\s+", " ", _)] and [split] *)

Lemma lstrip_idemp s : lstrip (lstrip s) = lstrip s.
Proof.
  induction s as [|c s IH]; [done |]. simpl.
  destruct (isspace c) eqn:Hc; [done |]. simpl. by rewrite Hc.
Qed.

Lemma lstrip_snoc s c :
  lstrip (s ++ [c]) =
    match lstrip s with
    | [] => lstrip [c]
    | _ :: _ => lstrip s ++ [c]
    end.
Proof.
  induction s as [|d s IH]; [done |]. cbn [app lstrip].
  by destruct (isspace d).
Qed.

Lemma rstrip_snoc s c :
  rstrip (s ++ [c]) = if isspace c then rstrip s else s ++ [c].
Proof.
  unfold rstrip. rewrite rev_unit. cbn [lstrip].
  destruct (isspace c); [done |]. simpl. by rewrite rev_involutive.
Qed.

Lemma rstrip_idemp s : rstrip (rstrip s) = rstrip s.
Proof.
  induction s as [|c s IH] using rev_ind; [done |].
  rewrite rstrip_snoc. destruct (isspace c) eqn:Hc; [done |].
  by rewrite rstrip_snoc, Hc.
Qed.

Lemma lstrip_rstrip s : lstrip (rstrip s) = rstrip (lstrip s).
Proof.
  induction s as [|c s IH] using rev_ind; [done |].
  rewrite rstrip_snoc, lstrip_snoc.
  destruct (isspace c) eqn:Hc.
  - rewrite IH. destruct (lstrip s) as [|d r]; cbn [lstrip].
    + by rewrite Hc.
    + by rewrite (rstrip_snoc (d :: r)), Hc.
  - rewrite lstrip_snoc. destruct (lstrip s) as [|d r]; cbn [lstrip].
    + rewrite Hc. by rewrite (rstrip_snoc [] c : rstrip [c] = _), Hc.
    + by rewrite (rstrip_snoc (d :: r)), Hc.
Qed.

Lemma strip_idemp s : strip (strip s) = strip s.
Proof.
  unfold strip.
  by rewrite lstrip_rstrip, lstrip_idemp, rstrip_idemp.
Qed.

Lemma collapsed_app_l a b : collapsed (a ++ b) → collapsed a.
Proof.
  induction a as [|c a IH]; [done |]. cbn [app collapsed].
  intros [Hc Hrest]. split; [| by apply IH].
  intros Hsp. destruct (Hc Hsp) as [-> Hnext]. split; [done |].
  by destruct a.
Qed.

Lemma collapsed_lstrip s : collapsed s → collapsed (lstrip s).
Proof.
  induction s as [|c s IH]; [done |]. intros Hs. cbn [lstrip].
  destruct (isspace c); [apply IH, Hs | done].
Qed.

Lemma collapsed_rstrip s : collapsed s → collapsed (rstrip s).
Proof.
  induction s as [|c s IH] using rev_ind; [done |]. intros Hs.
  rewrite rstrip_snoc. destruct (isspace c); [| done].
  by apply IH, (collapsed_app_l _ [c]).
Qed.

Lemma sub_spaces_scan_collapsed in_run s :
  collapsed (sub_spaces_scan in_run s)
  ∧ (in_run = true → starts_solid (sub_spaces_scan in_run s)).
Proof.
  revert in_run. induction s as [|c s IH]; intros in_run; [done |].
  cbn [sub_spaces_scan]. destruct (isspace c) eqn:Hc.
  - destruct in_run.
    + apply IH.
    + split; [| done]. cbn [collapsed].
      destruct (IH true) as [Hcol Hstart]. split; [| done].
      intros _. split; [done |]. by apply Hstart.
  - split; [| done]. cbn [collapsed]. split; [| apply IH].
    intros Hsp. congruence.
Qed.

Lemma collapsed_fixed in_run s :
  collapsed s → (in_run = true → starts_solid s) →
  sub_spaces_scan in_run s = s.
Proof.
  revert in_run. induction s as [|c s IH]; intros in_run Hs Hstart; [done |].
  cbn [sub_spaces_scan]. destruct Hs as [Hc Hs].
  destruct (isspace c) eqn:Hsp.
  - destruct in_run; [specialize (Hstart eq_refl); simpl in Hstart; congruence |].
    destruct (Hc eq_refl) as [-> Hnext]. f_equal. by apply IH.
  - f_equal. by apply IH.
Qed.

Lemma split_lstrip s : split (lstrip s) = split s.
Proof.
  unfold split. induction s as [|c s IH]; [done |]. cbn [lstrip split_scan].
  destruct (isspace c) eqn:Hc; [done |]. cbn [split_scan]. by rewrite Hc.
Qed.

Lemma split_scan_snoc_space cur s c :
  isspace c = true → split_scan cur (s ++ [c]) = split_scan cur s.
Proof.
  intros Hc. revert cur. induction s as [|d s IH]; intros cur.
  - cbn [app split_scan]. rewrite Hc. by destruct cur.
  - cbn [app split_scan]. destruct (isspace d); [| apply IH].
    destruct cur; by rewrite IH.
Qed.

Lemma split_rstrip s : split (rstrip s) = split s.
Proof.
  unfold split. induction s as [|c s IH] using rev_ind; [done |].
  rewrite rstrip_snoc. destruct (isspace c) eqn:Hc; [| done].
  by rewrite split_scan_snoc_space.
Qed.

Lemma split_scan_sub_spaces cur in_run s :
  (in_run = true → cur = []) →
  split_scan cur (sub_spaces_scan in_run s) = split_scan cur s.
Proof.
  revert cur in_run. induction s as [|c s IH]; intros cur in_run Hrun; [done |].
  cbn [sub_spaces_scan split_scan]. destruct (isspace c) eqn:Hc.
  - destruct in_run.
    + rewrite (Hrun eq_refl). by apply IH.
    + cbn [split_scan]. replace (isspace SPACE) with true by done.
      destruct cur; by rewrite IH.
  - cbn [split_scan]. rewrite Hc. by apply IH.
Qed.

(** The tokens of a text are those of its collapsed and trimmed form. *)
Lemma split_tidy s : split (strip (sub_spaces s)) = split s.
Proof.
  unfold strip. rewrite split_rstrip, split_lstrip.
  by apply split_scan_sub_spaces.
Qed.

Lemma lstrip_head s c : head (lstrip s) = Some c → isspace c = false.
Proof.
  induction s as [|d s IH]; [done |]. cbn [lstrip].
  destruct (isspace d) eqn:Hd; [done |]. by intros [= <-].
Qed.

Lemma rstrip_head s c : head (rstrip s) = Some c → head s = Some c.
Proof.
  induction s as [|d s IH] using rev_ind; [done |].
  rewrite rstrip_snoc. destruct (isspace d); [| done].
  intros Hc. specialize (IH Hc). by destruct s.
Qed.

Lemma rstrip_last s c : last (rstrip s) = Some c → isspace c = false.
Proof.
  induction s as [|d s IH] using rev_ind; [done |].
  rewrite rstrip_snoc. destruct (isspace d) eqn:Hd; [done |].
  rewrite last_snoc. by intros [= <-].
Qed.

Lemma join_cons sep w rest :
  rest ≠ [] → join sep (w :: rest) = w ++ sep ++ join sep rest.
Proof. by destruct rest. Qed.

Lemma split_scan_join s :
  ∀ cur,
    collapsed s →
    (∀ c, last s = Some c → isspace c = false) →
    (cur = [] → starts_solid s) →
    join [SPACE] (split_scan cur s) = cur ++ s.
Proof.
  induction s as [|c s IH]; intros cur Hcollapsed Hlast Hstart.
  - cbn [split_scan]. rewrite app_nil_r. by destruct cur.
  - destruct Hcollapsed as [Hc Hcollapsed]. cbn [split_scan].
    destruct (isspace c) eqn:Hspace.
    + destruct (Hc eq_refl) as [-> Hnext].
      destruct cur as [|d cur]; [by specialize (Hstart eq_refl) |].
      destruct s as [|e s]; [by specialize (Hlast _ eq_refl) |].
      assert (Hrest : join [SPACE] (split_scan [] (e :: s)) = e :: s).
      { apply (IH []); [done | | done].
        intros x Hx. apply Hlast. by rewrite last_cons, Hx. }
      rewrite join_cons; [by rewrite Hrest |].
      intros Hnil. by rewrite Hnil in Hrest.
    + rewrite IH; [by rewrite <- app_assoc | done | | ].
      * intros x Hx. apply Hlast. by rewrite last_cons, Hx.
      * intros Hnil. by destruct cur.
Qed.

(** A text trimmed and with its whitespace collapsed is its words
    joined by single spaces. *)
Lemma tidy_join Z : strip (sub_spaces Z) = join [SPACE] (split Z).
Proof.
  rewrite <- (split_tidy Z). symmetry. unfold split at 1.
  rewrite split_scan_join; [done | | |].
  - unfold strip, sub_spaces.
    apply collapsed_rstrip, collapsed_lstrip, sub_spaces_scan_collapsed.
  - intros c. unfold strip. apply rstrip_last.
  - intros _. unfold strip.
    destruct (rstrip _) as [|d rest] eqn:Hout; [done |].
    cbn [starts_solid]. eapply lstrip_head, rstrip_head.
    by rewrite Hout.
Qed.

Lemma split_space_prefix W s :
  Forall (λ c, isspace c = true) W → split (W ++ s) = split s.
Proof.
  induction 1 as [|c W Hc _ IH]; [done |].
  unfold split in *. cbn [app split_scan]. by rewrite Hc.
Qed.

Lemma split_space_suffix W s :
  Forall (λ c, isspace c = true) W → split (s ++ W) = split s.
Proof.
  induction W as [|c W IH] using rev_ind; intros HW.
  - by rewrite app_nil_r.
  - apply Forall_app in HW as [HW Hc]. apply Forall_cons in Hc as [Hc _].
    unfold split in *. rewrite app_assoc.
    rewrite split_scan_snoc_space by done. by apply IH.
Qed.

(** ** Character classes *)

Lemma kept_letter_cases c :
  kept_letter c = true →
  (0x61 ≤ c ≤ 0x7A) ∨ c ∈ u "áéíóúâêîôûãõàèìòùäëïöüçñ".
Proof.
  unfold kept_letter, Utf8.between.
  rewrite orb_true_iff, andb_true_iff, !N.leb_le.
  intros [Hrange | Hin]; [by left | right]. by apply bool_decide_eq_true in Hin.
Qed.

Lemma kept_letter_lower c :
  kept_letter c = true → c ≤ 0xFF ∧ lower_latin1 c = c ∧ isspace c = false.
Proof.
  intros [Hrange | Hin]%kept_letter_cases.
  - split; [lia |]. unfold lower_latin1, isspace, Utf8.between.
    repeat match goal with
           | |- context [?a <=? ?b] => destruct (N.leb_spec a b); try lia
           | |- context [?a =? ?b] => destruct (N.eqb_spec a b); try lia
           end; done.
  - vm_compute in Hin.
    repeat (apply elem_of_cons in Hin as [-> | Hin]; [by vm_compute |]).
    by apply not_elem_of_nil in Hin.
Qed.

Lemma solid_lower c :
  solid c = true → c ≤ 0xFF ∧ lower_latin1 c = c ∧ isspace c = false.
Proof.
  unfold solid. rewrite orb_true_iff, N.eqb_eq.
  intros [Hletter | ->]; [by apply kept_letter_lower | by vm_compute].
Qed.

Lemma solid_kept c : solid c = true → kept c = true.
Proof.
  unfold solid, kept. rewrite !orb_true_iff. intros [-> | ->]; auto.
Qed.

Lemma kept_not_space c : kept c = true → isspace c = false → solid c = true.
Proof.
  unfold solid, kept. rewrite !orb_true_iff. intros [[? | ?] | ?] ?; auto.
  congruence.
Qed.

Lemma sub_special_kept text : Forall (λ c, kept c = true) (sub_special text).
Proof.
  unfold sub_special. apply Forall_map, Forall_forall. intros c _.
  by destruct (kept c) eqn:Hc.
Qed.

Lemma sub_special_fixed text :
  Forall (λ c, kept c = true) text → sub_special text = text.
Proof.
  unfold sub_special. induction 1 as [|c text Hc _ IH]; [done |].
  cbn [map]. by rewrite Hc, IH.
Qed.

(** After collapsing, every character is a token character or a
    space. *)
Lemma sub_spaces_scan_chars in_run text :
  Forall (λ c, kept c = true) text →
  Forall (λ c, solid c = true ∨ c = SPACE) (sub_spaces_scan in_run text).
Proof.
  intros Htext. revert in_run.
  induction Htext as [|c text Hc _ IH]; intros in_run; [constructor |].
  cbn [sub_spaces_scan]. destruct (isspace c) eqn:Hsp.
  - destruct in_run; [apply IH | constructor; [by right | apply IH]].
  - constructor; [left; by apply kept_not_space | apply IH].
Qed.

Lemma Forall_lstrip (P : N → Prop) s : Forall P s → Forall P (lstrip s).
Proof.
  induction 1 as [|c s Hc Hs IH]; [constructor |]. cbn [lstrip].
  destruct (isspace c); [done | by constructor].
Qed.

Lemma Forall_strip (P : N → Prop) s : Forall P s → Forall P (strip s).
Proof.
  intros Hs. unfold strip, rstrip.
  by apply Forall_rev, Forall_lstrip, Forall_rev, Forall_lstrip.
Qed.

Section IdempotenceFacts.
Context `{Library}.

Lemma normalized_chars T :
  Forall (λ c, solid c = true ∨ c = SPACE) (normalized T).
Proof.
  unfold normalized. apply Forall_strip, sub_spaces_scan_chars, sub_special_kept.
Qed.

Lemma normalized_collapsed T : collapsed (normalized T).
Proof.
  unfold normalized, strip.
  apply collapsed_rstrip, collapsed_lstrip, sub_spaces_scan_collapsed.
Qed.

Lemma str_lower_fixed s :
  Forall (λ c, solid c = true ∨ c = SPACE) s → str_lower s = s.
Proof.
  intros Hs. rewrite str_lower_latin1.
  - induction Hs as [|c s Hc _ IH]; [done |]. cbn [map]. rewrite IH. f_equal.
    destruct Hc as [Hc | ->]; [by apply solid_lower | done].
  - eapply Forall_impl; [exact Hs |]. intros c [Hc | ->]; [| by vm_compute].
    by apply solid_lower.
Qed.

(** C8.  For every input on which entity decoding returns,
    [clean_text] returns a text that lowercasing, character stripping,
    whitespace collapsing and trimming, applied again in this order,
    leave unchanged. *)
Theorem normalize_idempotent (input T : str) :
  html_unescape input = Ok T →
  ∃ s, clean_text input = Ok s ∧ steps_2_4_5 s = s.
Proof.
  intros Hdecoded.
  exists (normalized T). split; [by apply clean_text_ok |].
  pose proof (normalized_chars T) as Hchars.
  unfold steps_2_4_5. rewrite (str_lower_fixed _ Hchars).
  rewrite sub_special_fixed.
  2: { eapply Forall_impl; [exact Hchars |].
       intros c [Hc | ->]; [by apply solid_kept | done]. }
  unfold sub_spaces.
  rewrite (collapsed_fixed false (normalized T) (normalized_collapsed T))
    by (intros; discriminate).
  unfold normalized. apply strip_idemp.
Qed.

End IdempotenceFacts.

Lemma normalize_idempotent_witness :
  ∃ s, clean_text (H := Reference.library) (u "Bom dia, Mundo!") = Ok s
       ∧ steps_2_4_5 (H := Reference.library) s = s.
Proof.
  apply (normalize_idempotent (H := Reference.library)
           (u "Bom dia, Mundo!") (u "Bom dia, Mundo!")).
  by_evaluation.
Defined.

(** ** Totality of the normalizer *)

Lemma foldl_fixed {A B} (f : A → B → A) x l :
  (∀ y, y ∈ l → f x y = x) → foldl f x l = x.
Proof.
  induction l as [|y l IH]; intros Hf; [done |].
  cbn [foldl]. rewrite Hf by left. apply IH. intros z Hz. apply Hf. by right.
Qed.

Lemma phrase_head p :
  p ∈ sorted_compounds → ∃ a p', p = a :: p' ∧ kept_letter a = true.
Proof.
  intros Hp%sorted_compounds_entry%table_entry. unfold phrase_ok in Hp.
  rewrite !andb_true_iff in Hp. destruct Hp as [[_ Hhead] _].
  cbn [fst] in Hhead. destruct p as [|a p']; [done |]. by exists a, p'.
Qed.

(** A text without token characters holds no phrase. *)
Lemma fold_compounds_blank X :
  Forall (λ c, solid c = false) X → fold_compounds X = X.
Proof.
  intros HX. unfold fold_compounds. apply foldl_fixed. intros p Hp.
  destruct (phrase_head _ Hp) as (a & p' & -> & Ha).
  apply replace_absent; [done |]. intros j.
  destruct (drop j X) as [|c r] eqn:Hdrop; [done |].
  apply startswith_head. intros <-.
  assert (Hc : a ∈ X).
  { apply (list_elem_of_lookup_2 _ j). rewrite <- (Nat.add_0_r j), <- lookup_drop.
    by rewrite Hdrop. }
  rewrite Forall_forall in HX. specialize (HX a Hc).
  unfold solid in HX. by rewrite Ha in HX.
Qed.

Lemma sub_spaces_scan_blank in_run s :
  Forall (λ c, isspace c = true) s →
  sub_spaces_scan in_run s = [] ∨ sub_spaces_scan in_run s = [SPACE].
Proof.
  intros Hs. revert in_run.
  induction Hs as [|c s Hc Hs IH]; intros in_run; [by left |].
  cbn [sub_spaces_scan]. rewrite Hc. destruct in_run; [apply IH |].
  right. f_equal.
  assert (Htrue : ∀ s', Forall (λ c, isspace c = true) s' →
                        sub_spaces_scan true s' = []).
  { clear. induction 1 as [|d s' Hd _ IH']; [done |].
    cbn [sub_spaces_scan]. by rewrite Hd. }
  by apply Htrue.
Qed.

Section TotalityFacts.
Context `{Library}.

(** C9, as the code has it.  [clean_text] returns a string whenever
    entity decoding returns, as it does on every text without [&]: no
    other step raises, the table lookups of [replace_compounds]
    included.  An exception of [html.unescape] leaves [clean_text] as it
    is; a decimal character reference of more than 4300 digits raises
    [ValueError].  The string returned is empty when the decoded,
    lowercased input has no letter of the allow-list and no
    underscore. *)
Theorem clean_text_total :
  (∀ input T, html_unescape input = Ok T → ∃ s, clean_text input = Ok s)
  ∧ (∀ input, AMPERSAND ∉ input → ∃ s, clean_text input = Ok s)
  ∧ (∀ input e, html_unescape input = Raise e → clean_text input = Raise e)
  ∧ (∀ pre ds post,
        Forall (λ c, Utf8.between 0x30 0x39 c = true) ds →
        (4300 < length ds)%nat →
        clean_text (pre ++ AMPERSAND :: 0x23 :: ds ++ post)
        = Raise ValueError)
  ∧ (∀ input T, html_unescape input = Ok T →
                Forall (λ c, solid c = false) (folding_input T) →
                clean_text input = Ok []).
Proof.
  split_and!.
  - intros input T HT. exists (normalized T). by apply clean_text_ok.
  - intros input Hplain. exists (normalized input).
    by apply clean_text_ok, html_unescape_plain.
  - apply clean_text_raise.
  - intros pre ds post Hds Hlen.
    by apply clean_text_raise, html_unescape_digits.
  - intros input T Hdecoded HT. rewrite (clean_text_ok _ _ Hdecoded).
    f_equal. unfold normalized.
    rewrite (fold_compounds_blank _ HT).
    destruct (sub_spaces_scan_blank false (sub_special (folding_input T)))
      as [Hblank | Hblank].
    + unfold sub_special. apply Forall_map.
      eapply Forall_impl; [exact HT |]. intros c Hc. cbn beta.
      unfold kept. unfold solid in Hc. apply orb_false_iff in Hc as [-> ->].
      destruct (isspace c) eqn:Hsp; cbn [orb]; [exact Hsp | reflexivity].
    + unfold sub_spaces. by rewrite Hblank.
    + unfold sub_spaces. by rewrite Hblank.
Qed.

(** The text [&#] followed by [n] times the digit 1 and [;]. *)
Lemma long_reference_raises (n : nat) :
  (4300 < n)%nat →
  clean_text (AMPERSAND :: 0x23 :: repeat 0x31 n ++ [0x3B])
  = Raise ValueError.
Proof.
  intros Hn.
  apply clean_text_raise, (html_unescape_digits [] (repeat 0x31 n) [0x3B]).
  - clear. induction n as [|n IH]; by constructor.
  - by rewrite repeat_length.
Qed.

End TotalityFacts.

Lemma clean_text_total_witness :
  clean_text (H := Reference.library) (u "1984, 2 + 2 = 5!") = Ok [].
Proof.
  apply (clean_text_total (H := Reference.library))
    with (T := u "1984, 2 + 2 = 5!").
  - by_evaluation.
  - vm_compute. repeat constructor.
Defined.

(** C9 fails on the text [&#] followed by 4301 times the digit 1 and
    [;]: entity decoding raises [ValueError] and [clean_text] with
    it. *)
Lemma over_long_reference :
  ¬ total_over_strings (H := Reference.library).
Proof.
  intros Hclaim.
  destruct (Hclaim (AMPERSAND :: 0x23 :: repeat 0x31 4301 ++ [0x3B]))
    as [s Hs].
  rewrite (long_reference_raises (H := Reference.library)) in Hs;
    [done | lia].
Qed.

(** ** Occurrences of a phrase *)

Lemma startswith_lookup p s :
  startswith p s = true ↔ ∀ k c, p !! k = Some c → s !! k = Some c.
Proof.
  revert s; induction p as [|a p IH]; intros s; [done |].
  destruct s as [|b s]; simpl.
  - split; [done |]. intros Hk. by specialize (Hk 0%nat a eq_refl).
  - rewrite andb_true_iff, N.eqb_eq, IH. split.
    + intros [-> Hp] [|k] c; [done | apply Hp].
    + intros Hk. split.
      * by specialize (Hk 0%nat a eq_refl) as [= ->].
      * intros k c. apply (Hk (S k)).
Qed.

Lemma occurs_at_lookup p j s :
  occurs_at p j s ↔ ∀ k c, p !! k = Some c → s !! (j + k)%nat = Some c.
Proof.
  unfold occurs_at. rewrite startswith_lookup.
  by setoid_rewrite lookup_drop.
Qed.

Lemma occurs_at_unfold p j X Y :
  UNDERSCORE ∉ p → folds_to X Y → occurs_at p j Y → occurs_at p j X.
Proof.
  intros Hp HXY. unfold occurs_at.
  apply startswith_unfold; [done | by apply folds_to_drop].
Qed.

Lemma occurs_at_split p i s :
  p ≠ [] → occurs_at p i s →
  s = take i s ++ p ++ drop (i + length p) s ∧ length (take i s) = i.
Proof.
  intros Hp Hocc. unfold occurs_at in Hocc.
  pose proof (startswith_drop _ _ Hocc) as Hdrop.
  rewrite drop_drop in Hdrop. split.
  - by rewrite <- Hdrop, take_drop.
  - rewrite length_take. apply Nat.min_l.
    destruct (decide (i ≤ length s)%nat) as [Hle | Hgt]; [done |].
    rewrite drop_ge in Hocc by lia. by destruct p.
Qed.

Lemma folds_to_lookup_solid A B k c :
  folds_to A B → A !! k = Some c → c ≠ SPACE → B !! k = Some c.
Proof.
  intros HAB Hk Hc.
  destruct (Forall2_lookup_l _ _ _ _ _ HAB Hk) as (b & Hb & [-> | [-> _]]);
    done.
Qed.

Lemma folds_to_foldl l Y :
  (∀ p, p ∈ l → p ≠ []) →
  folds_to Y (foldl (λ text p, replace p (underscored p) text) Y l).
Proof.
  revert Y. induction l as [|p l IH]; intros Y Hl; [apply folds_to_refl |].
  cbn [foldl]. eapply folds_to_trans.
  - apply folds_to_replace, Hl. left.
  - apply IH. intros p' Hp'. apply Hl. by right.
Qed.

Lemma fold_step_lookup X Y p k :
  p ≠ [] → UNDERSCORE ∉ p → folds_to X Y → spares X p k →
  replace p (underscored p) Y !! k = Y !! k.
Proof.
  intros Hne Hp HXY Hspares. apply replace_lookup; [done |].
  intros j c Hocc. apply Hspares. by eapply occurs_at_unfold.
Qed.

Lemma fold_list_lookup X l Y k :
  (∀ p, p ∈ l → p ≠ [] ∧ (UNDERSCORE ∉ p) ∧ spares X p k) →
  folds_to X Y →
  foldl (λ text p, replace p (underscored p) text) Y l !! k = Y !! k.
Proof.
  revert Y. induction l as [|p l IH]; intros Y Hl HXY; [done |].
  cbn [foldl]. destruct (Hl p) as (Hne & Hp & Hspares); [left |].
  rewrite IH.
  - by eapply fold_step_lookup.
  - intros p' Hp'. apply Hl. by right.
  - eapply folds_to_trans; [exact HXY | by apply folds_to_replace].
Qed.

(** ** Tokens *)

Lemma split_scan_word cur w r :
  Forall (λ c, isspace c = false) w →
  split_scan cur (w ++ r) = split_scan (cur ++ w) r.
Proof.
  intros Hw. revert cur. induction Hw as [|c w Hc _ IH]; intros cur.
  - by rewrite app_nil_r.
  - cbn [app split_scan]. rewrite Hc, IH. by rewrite <- app_assoc.
Qed.

Lemma split_scan_prefix cur s :
  cur ≠ [] → ∃ tok, tok ∈ split_scan cur s ∧ cur `prefix_of` tok.
Proof.
  revert cur. induction s as [|c s IH]; intros cur Hcur.
  - exists cur. destruct cur; [done |]. split; [left | done].
  - cbn [split_scan]. destruct (isspace c).
    + exists cur. destruct cur; [done |]. split; [left | done].
    + destruct (IH (cur ++ [c])) as (tok & Htok & Hpre); [by destruct cur |].
      exists tok. split; [done |].
      etrans; [| exact Hpre]. by apply prefix_app_r.
Qed.

Lemma split_scan_app cur a r :
  ∃ L cur', split_scan cur (a ++ r) = L ++ split_scan cur' r.
Proof.
  revert cur. induction a as [|c a IH]; intros cur.
  - by exists [], cur.
  - cbn [app split_scan]. destruct (isspace c).
    + destruct (IH []) as (L & cur' & ->).
      destruct cur; [by exists L, cur' | by eexists (_ :: L), cur'].
    + apply IH.
Qed.

(** The tokens of a text that holds the whitespace-free [q] include one
    that contains [q]. *)
Lemma split_contains a q b :
  q ≠ [] → Forall (λ c, isspace c = false) q →
  ∃ tok, tok ∈ split (a ++ q ++ b) ∧ contains tok q.
Proof.
  intros Hq Hsolid. unfold split.
  destruct (split_scan_app [] a (q ++ b)) as (L & cur & ->).
  rewrite split_scan_word by done.
  destruct (split_scan_prefix (cur ++ q) b) as (tok & Htok & [rest ->]);
    [by destruct cur, q |].
  exists ((cur ++ q) ++ rest). split.
  - apply elem_of_app. by right.
  - exists cur, rest. by rewrite <- app_assoc.
Qed.

Lemma split_scan_after_space cur a d r :
  isspace d = true → ∃ L, split_scan cur (a ++ d :: r) = L ++ split_scan [] r.
Proof.
  intros Hd. revert cur. induction a as [|c a IH]; intros cur.
  - cbn [app split_scan]. rewrite Hd.
    destruct cur; [by exists [] | by eexists [_]].
  - cbn [app split_scan]. destruct (isspace c).
    + destruct (IH []) as (L & ->).
      destruct cur; [by exists L | by eexists (_ :: L)].
    + apply IH.
Qed.

(** The whitespace-free [q] is a token when whitespace or the end of
    the text is on both its sides. *)
Lemma split_token a q b :
  q ≠ [] → Forall (λ c, isspace c = false) q →
  (a = [] ∨ ∃ a' d, a = a' ++ [d] ∧ isspace d = true) →
  (b = [] ∨ ∃ d b', b = d :: b' ∧ isspace d = true) →
  q ∈ split (a ++ q ++ b).
Proof.
  intros Hq Hsolid Ha Hb. unfold split.
  assert (Htail : q ∈ split_scan [] (q ++ b)).
  { rewrite split_scan_word by done. cbn [app].
    destruct Hb as [-> | (d & b' & -> & Hd)]; cbn [split_scan].
    - destruct q; [done | left].
    - rewrite Hd. destruct q; [done | left]. }
  destruct Ha as [-> | (a' & d & -> & Hd)]; [done |].
  rewrite <- app_assoc. cbn [app].
  destruct (split_scan_after_space [] a' d (q ++ b) Hd) as (L & ->).
  apply elem_of_app. by right.
Qed.

(** ** The phrases of the table *)

Lemma phrase_facts p q :
  (p, q) ∈ PORTUGUESE_COMPOUNDS →
  q = underscored p ∧ p ≠ [] ∧ (UNDERSCORE ∉ p)
  ∧ Forall (λ c, solid c = true) q
  ∧ (∃ a, p !! 0%nat = Some a ∧ a ≠ SPACE)
  ∧ (∃ z, p !! (length p - 1)%nat = Some z ∧ z ≠ SPACE).
Proof.
  intros Hok%table_entry. unfold phrase_ok in Hok.
  rewrite !andb_true_iff in Hok. cbn [fst snd] in Hok.
  destruct Hok as [[[Hq Hchars] Hhead] Hlast].
  apply bool_decide_eq_true in Hq. rewrite forallb_forall in Hchars.
  assert (Hletter : ∀ c, kept_letter c = true → c ≠ SPACE ∧ c ≠ UNDERSCORE).
  { intros c Hc. split; intros ->; by vm_compute in Hc. }
  split_and!.
  - done.
  - by destruct p.
  - intros Hin. apply list_elem_of_In, Hchars in Hin. by vm_compute in Hin.
  - subst q. unfold underscored. apply Forall_map, Forall_forall.
    intros c Hc%list_elem_of_In%Hchars. cbn beta. unfold solid.
    apply orb_true_iff in Hc as [Hc | Hc].
    + destruct (c =? SPACE) eqn:Hsp; [done | by rewrite Hc].
    + by rewrite Hc.
  - destruct p as [|a p]; [done |]. exists a. split; [done |].
    by apply Hletter.
  - rewrite last_lookup in Hlast.
    replace (pred (length p)) with (length p - 1)%nat in Hlast by lia.
    destruct (p !! (length p - 1)%nat) as [z |]; [| done].
    exists z. split; [done |]. by apply Hletter.
Qed.

Lemma sorted_compounds_NoDup : NoDup sorted_compounds.
Proof.
  apply (bool_decide_eq_true_1 (NoDup sorted_compounds)). by_evaluation.
Qed.

Lemma sorted_compounds_facts p :
  p ∈ sorted_compounds → p ≠ [] ∧ UNDERSCORE ∉ p.
Proof.
  intros Hp%sorted_compounds_entry.
  by destruct (phrase_facts _ _ Hp) as (_ & ? & ? & _).
Qed.

(** ** Folding one occurrence *)

Section OneOccurrence.
Variables (X p : str) (i : nat) (l1 l2 : list str).
Hypothesis Horder : sorted_compounds = l1 ++ p :: l2.
Hypothesis Hocc : occurs_at p i X.
Hypothesis Huniq : ∀ j, occurs_at p j X → j = i.
Hypothesis Hspared :
  ∀ p' k c, p' ∈ l1 → p !! k = Some c → spares X p' (i + k).

Local Abbreviation step := (λ text p, replace p (underscored p) text).

Lemma OneOccurrence_member p' : p' ∈ l1 ∨ p' = p ∨ p' ∈ l2 → p' ∈ sorted_compounds.
Proof. rewrite Horder, elem_of_app, elem_of_cons. tauto. Qed.

Lemma OneOccurrence_p : p ≠ [] ∧ UNDERSCORE ∉ p.
Proof. apply sorted_compounds_facts, OneOccurrence_member. auto. Qed.

Lemma OneOccurrence_q : Forall (λ c, solid c = true) (underscored p).
Proof.
  assert (Hp : p ∈ sorted_compounds) by (apply OneOccurrence_member; auto).
  apply sorted_compounds_entry in Hp.
  by destruct (phrase_facts _ _ Hp) as (_ & _ & _ & ? & _).
Qed.

(** The phrases folded before [p] leave its occurrence as it is. *)
Lemma before_keeps_occurrence :
  folds_to X (foldl step X l1) ∧ occurs_at p i (foldl step X l1).
Proof.
  split.
  - apply folds_to_foldl. intros p' Hp'.
    apply sorted_compounds_facts, OneOccurrence_member. auto.
  - apply occurs_at_lookup. intros k c Hk.
    rewrite (fold_list_lookup X);
      [by apply (proj1 (occurs_at_lookup p i X) Hocc) | | apply folds_to_refl].
    intros p' Hp'.
    destruct (sorted_compounds_facts p') as [Hne Hus];
      [apply OneOccurrence_member; auto |].
    split_and!; [done | done | by eapply Hspared].
Qed.

(** At its turn the occurrence of [p] becomes the placeholder. *)
Lemma turn_folds_occurrence :
  let X1 := foldl step X l1 in
  folds_to X (step X1 p)
  ∧ step X1 p = take i X1 ++ underscored p ++ drop (i + length p) X1.
Proof.
  intros X1. destruct before_keeps_occurrence as [Hfold Hocc1]. fold X1 in Hfold, Hocc1.
  destruct OneOccurrence_p as [Hne Hus].
  split.
  - eapply folds_to_trans; [exact Hfold | by apply folds_to_replace].
  - destruct (occurs_at_split _ _ _ Hne Hocc1) as [Hsplit Hlen].
    cbn beta. rewrite Hsplit at 1. apply replace_unique; [done |].
    rewrite <- Hsplit, Hlen. intros j Hj. apply Huniq.
    by eapply occurs_at_unfold.
Qed.

(** The placeholder stays where it is until the end of the loop. *)
Lemma fold_compounds_occurrence :
  folds_to X (fold_compounds X) ∧ occurs_at (underscored p) i (fold_compounds X).
Proof.
  unfold fold_compounds. rewrite Horder, foldl_app. cbn [foldl].
  destruct turn_folds_occurrence as [Hfold Hturn]. cbv zeta in Hfold, Hturn.
  set (X1 := foldl step X l1) in *. set (X2 := step X1 p) in *.
  assert (Hrest : folds_to X2 (foldl step X2 l2)).
  { apply folds_to_foldl. intros p' Hp'.
    apply sorted_compounds_facts, OneOccurrence_member. auto. }
  split; [by eapply folds_to_trans |].
  apply occurs_at_lookup. intros k c Hk.
  apply (folds_to_lookup_solid X2); [done | |].
  - destruct before_keeps_occurrence as [_ Hocc1]. fold X1 in Hocc1.
    destruct (occurs_at_split _ _ _ (proj1 OneOccurrence_p) Hocc1) as [_ Hlen].
    rewrite Hturn, lookup_app_r by lia. rewrite Hlen.
    replace (i + k - i)%nat with k by lia. by rewrite lookup_app_l by (by eapply lookup_lt_Some).
  - pose proof OneOccurrence_q as Hq. rewrite Forall_forall in Hq.
    intros ->. specialize (Hq SPACE (list_elem_of_lookup_2 _ _ _ Hk)).
    by vm_compute in Hq.
Qed.

(** A position outside the occurrence that no other phrase covers with
    a space keeps its character. *)
Lemma fold_compounds_outside k :
  (k < i ∨ i + length p ≤ k)%nat →
  (∀ p', p' ∈ sorted_compounds → p' ≠ p → spares X p' k) →
  fold_compounds X !! k = X !! k.
Proof.
  intros Hk Hspares.
  pose proof sorted_compounds_NoDup as Hnodup. rewrite Horder in Hnodup.
  apply NoDup_app in Hnodup as (_ & Hl1 & [Hl2 _]%NoDup_cons).
  assert (Hside : ∀ l : list str,
                       (∀ p', p' ∈ l → p' ∈ l1 ∨ p' = p ∨ p' ∈ l2) →
                       (∀ p', p' ∈ l → p' ≠ p) →
                       ∀ p', p' ∈ l → p' ≠ [] ∧ (UNDERSCORE ∉ p') ∧ spares X p' k).
  { intros l Hl Hne p' Hp'.
    pose proof (OneOccurrence_member p' (Hl p' Hp')) as Hmem.
    destruct (sorted_compounds_facts p' Hmem). split_and!; [done | done |].
    apply Hspares; [done | by apply Hne]. }
  unfold fold_compounds. rewrite Horder, foldl_app. cbn [foldl].
  destruct turn_folds_occurrence as [Hfold Hturn]. cbv zeta in Hfold, Hturn.
  destruct before_keeps_occurrence as [Hfold1 Hocc1].
  set (X1 := foldl step X l1) in *. set (X2 := step X1 p) in *.
  rewrite (fold_list_lookup X); [| | done].
  2: { apply Hside; [auto |]. intros p' Hp' ->. done. }
  transitivity (X1 !! k).
  - destruct (occurs_at_split _ _ _ (proj1 OneOccurrence_p) Hocc1) as [Hsplit Hlen].
    rewrite Hturn. rewrite Hsplit at 3.
    destruct Hk as [Hk | Hk].
    + by rewrite !lookup_app_l by lia.
    + rewrite !lookup_app_r by (rewrite ?Hlen, ?underscored_length; lia).
      by rewrite underscored_length.
  - subst X1. apply (fold_list_lookup X); [| apply folds_to_refl].
    apply Hside; [auto |]. intros p' Hp' ->. apply (Hl1 p Hp'). left.
Qed.

End OneOccurrence.

Lemma occurs_at_occurrences p s j :
  p ≠ [] → occurs_at p j s ↔ j ∈ occurrences p s.
Proof.
  intros Hp. unfold occurrences, occurs_at.
  rewrite list_elem_of_filter, elem_of_seq. split; [| tauto].
  intros Hj. split; [done |]. split; [lia |].
  destruct (decide (j < length s)%nat) as [Hlt | Hge]; [lia |].
  rewrite drop_ge in Hj by lia. by destruct p.
Qed.

Lemma only_phrase_spec p X :
  only_phrase p X = true →
  ∀ p' j, p' ∈ keys PORTUGUESE_COMPOUNDS → p' ≠ p → ¬ occurs_at p' j X.
Proof.
  unfold only_phrase. rewrite forallb_forall.
  intros Hall p' j Hp' Hne Hocc.
  specialize (Hall p' (proj1 (list_elem_of_In _ _) Hp')).
  apply orb_true_iff in Hall as [Heq | Hnone].
  - by apply bool_decide_eq_true in Heq.
  - apply bool_decide_eq_true in Hnone.
    apply occurs_at_occurrences in Hocc.
    + rewrite Hnone in Hocc. by apply not_elem_of_nil in Hocc.
    + apply sorted_compounds_facts. by rewrite sorted_compounds_perm.
Qed.

Lemma sub_special_blank c :
  solid c = false → isspace (if kept c then c else SPACE) = true.
Proof.
  unfold solid, kept. intros [-> ->]%orb_false_iff.
  destruct (isspace c) eqn:Hsp; cbn [orb]; [exact Hsp | reflexivity].
Qed.

Lemma no_equal_clash_ok : no_equal_clash = true.
Proof. by_evaluation. Qed.

Lemma no_clash_at a b d :
  a ∈ keys PORTUGUESE_COMPOUNDS → b ∈ keys PORTUGUESE_COMPOUNDS →
  a ≠ b → length a = length b → (1 ≤ d ≤ length a)%nat →
  clash_at a b d = false.
Proof.
  intros Ha Hb Hne Hlen Hd.
  pose proof no_equal_clash_ok as Hok. unfold no_equal_clash in Hok.
  rewrite forallb_forall in Hok.
  specialize (Hok a (proj1 (list_elem_of_In _ _) Ha)).
  rewrite forallb_forall in Hok.
  specialize (Hok b (proj1 (list_elem_of_In _ _) Hb)).
  rewrite !orb_true_iff in Hok. destruct Hok as [[Heq | Hneq] | Hall].
  - by apply bool_decide_eq_true in Heq.
  - apply negb_true_iff, Nat.eqb_neq in Hneq. lia.
  - rewrite forallb_forall in Hall.
    apply negb_true_iff, Hall, in_seq. lia.
Qed.

(** Two occurrences, [a] at [ja] and [b] at [ja + d], that cover
    position [k] with a space each, make a clash. *)
Lemma occurrences_clash X a b ja d k :
  occurs_at a ja X → occurs_at b (ja + d) X → (ja + d ≤ k)%nat →
  a !! (k - ja)%nat = Some SPACE → b !! (k - (ja + d))%nat = Some SPACE →
  clash_at a b d = true.
Proof.
  intros Ha Hb Hle Hka Hkb.
  rewrite occurs_at_lookup in Ha, Hb.
  unfold clash_at. apply andb_true_iff. split.
  - apply forallb_forall. intros t _.
    destruct (a !! (d + t)%nat) as [x |] eqn:Hx; [| done].
    destruct (b !! t) as [y |] eqn:Hy; [| done].
    apply Ha in Hx. apply Hb in Hy.
    replace (ja + (d + t))%nat with (ja + d + t)%nat in Hx by lia.
    apply N.eqb_eq. congruence.
  - apply existsb_exists. exists (k - (ja + d))%nat. split.
    + apply in_seq. apply lookup_lt_Some in Hkb. lia.
    + replace (d + (k - (ja + d)))%nat with (k - ja)%nat by lia.
      by rewrite Hka, Hkb.
Qed.

(** Two different table phrases of the same length that occur in one
    text have no space in common. *)
Lemma equal_length_spares X a b ja jb k :
  a ∈ keys PORTUGUESE_COMPOUNDS → b ∈ keys PORTUGUESE_COMPOUNDS →
  a ≠ b → length a = length b →
  occurs_at a ja X → occurs_at b jb X → (ja ≤ k)%nat → (jb ≤ k)%nat →
  a !! (k - ja)%nat = Some SPACE → b !! (k - jb)%nat = Some SPACE → False.
Proof.
  intros Ha Hb Hne Hlen Hoa Hob Hja Hjb Hka Hkb.
  destruct (Nat.lt_trichotomy ja jb) as [Hlt | [-> | Hgt]].
  - assert (Hclash : clash_at a b (jb - ja) = true).
    { apply (occurrences_clash X a b ja (jb - ja) k); try done;
        replace (ja + (jb - ja))%nat with jb by lia; done. }
    rewrite no_clash_at in Hclash; [done | done | done | done | done |].
    apply lookup_lt_Some in Hka. lia.
  - apply Hne. apply list_eq. intros t.
    rewrite occurs_at_lookup in Hoa, Hob.
    destruct (a !! t) as [x |] eqn:Hx, (b !! t) as [y |] eqn:Hy; [| | | done].
    + apply Hoa in Hx. apply Hob in Hy. congruence.
    + apply lookup_lt_Some in Hx. apply lookup_ge_None in Hy. lia.
    + apply lookup_lt_Some in Hy. apply lookup_ge_None in Hx. lia.
  - assert (Hclash : clash_at b a (ja - jb) = true).
    { apply (occurrences_clash X b a jb (ja - jb) k); try done;
        replace (jb + (ja - jb))%nat with ja by lia; done. }
    rewrite no_clash_at in Hclash; [done | done | done | done | done |].
    apply lookup_lt_Some in Hkb. lia.
Qed.

Section CompoundFacts.
Context `{Library}.

(** C5, as the code has it.  Let [p] be a phrase of the table with
    placeholder [q], occurring exactly once in the text on which the
    phrases are folded (the input with entities decoded, which gives
    [T], and lowercased), with no occurrence of a longer table phrase
    overlapping it.  Then [clean_text] returns a text one of whose
    tokens contains [q].  If moreover no other table phrase at all
    overlaps the occurrence and the characters next to it are neither
    letters of the allow-list nor underscores, then [q] itself is a
    token. *)
Theorem compound_folding (p q input T : str) (i : nat) :
  html_unescape input = Ok T →
  let X := folding_input T in
  (p, q) ∈ PORTUGUESE_COMPOUNDS →
  occurs_at p i X →
  (∀ j, occurs_at p j X → j = i) →
  (∀ p' j, p' ∈ keys PORTUGUESE_COMPOUNDS → (length p < length p')%nat →
           occurs_at p' j X → ¬ overlap i (length p) j (length p')) →
  ∃ out, clean_text input = Ok out
    ∧ (∃ tok, tok ∈ split out ∧ contains tok q)
    ∧ ((∀ p' j, p' ∈ keys PORTUGUESE_COMPOUNDS → p' ≠ p → occurs_at p' j X →
                ¬ overlap i (length p) j (length p')) →
       delimited X i (length p) →
       q ∈ split out).
Proof.
  intros Hdecoded X Hentry Hocc Huniq Hlonger.
  destruct (phrase_facts _ _ Hentry) as (-> & Hne & Hus & Hq & Hhead & Hlast).
  assert (Hkey : p ∈ keys PORTUGUESE_COMPOUNDS).
  { unfold keys. apply list_elem_of_fmap. by exists (p, underscored p). }
  assert (Hp : p ∈ sorted_compounds) by (by rewrite sorted_compounds_perm).
  destruct (list_elem_of_split _ _ Hp) as (l1 & l2 & Horder).
  assert (Hspared : ∀ p' k c, p' ∈ l1 → p !! k = Some c → spares X p' (i + k)).
  { intros p' k c Hp' Hk j c' Hj Hle Hc' ->.
    assert (Hkey' : p' ∈ keys PORTUGUESE_COMPOUNDS).
    { rewrite <- sorted_compounds_perm, Horder. apply elem_of_app. by left. }
    assert (Hne' : p' ≠ p).
    { pose proof sorted_compounds_NoDup as Hnodup. rewrite Horder in Hnodup.
      apply NoDup_app in Hnodup as (_ & Hl1 & _).
      intros ->. apply (Hl1 p Hp'). left. }
    assert (Hlen : (length p ≤ length p')%nat).
    { pose proof sorted_compounds_sorted as Hsorted. rewrite Horder in Hsorted.
      apply (StronglySorted_app_1_elem_of _ _ _ p' p Hsorted Hp'). left. }
    destruct (decide (length p < length p')%nat) as [Hlt | Hge].
    - apply (Hlonger p' j Hkey' Hlt Hj). unfold overlap.
      apply lookup_lt_Some in Hk, Hc'. lia.
    - assert (Hpk : p !! (i + k - i)%nat = Some SPACE).
      { replace (i + k - i)%nat with k by lia. rewrite Hk. f_equal.
        apply (proj1 (occurs_at_lookup _ _ _) Hocc) in Hk.
        apply (proj1 (occurs_at_lookup _ _ _) Hj) in Hc'.
        replace (j + (i + k - j))%nat with (i + k)%nat in Hc' by lia.
        congruence. }
      apply (equal_length_spares X p' p j i (i + k)%nat);
        [done | done | done | lia | done | done | done | lia | done | done]. }
  destruct (fold_compounds_occurrence X p i l1 l2 Horder Hocc Huniq Hspared)
    as [Hfold Hplace].
  set (F := fold_compounds X) in *.
  assert (Hqne : underscored p ≠ []) by (by destruct p).
  destruct (occurs_at_split _ _ _ Hqne Hplace) as [Hsplit Hlen].
  rewrite underscored_length in Hsplit.
  assert (Hqs : Forall (λ c, isspace c = false) (underscored p)).
  { eapply Forall_impl; [exact Hq |]. intros c Hc. by apply solid_lower. }
  assert (Hsub : sub_special F =
                 sub_special (take i F) ++ underscored p
                 ++ sub_special (drop (i + length p) F)).
  { rewrite Hsplit at 1. unfold sub_special at 1. rewrite !map_app.
    fold (sub_special (take i F)). fold (sub_special (underscored p)).
    fold (sub_special (drop (i + length p) F)).
    rewrite (sub_special_fixed (underscored p)); [done |].
    eapply Forall_impl; [exact Hq |]. intros c Hc. by apply solid_kept. }
  exists (normalized T). split; [by apply clean_text_ok |].
  unfold normalized. fold X. fold F. rewrite split_tidy, Hsub.
  split; [by apply split_contains |].
  intros Hothers [Hleft Hright].
  assert (Houtside : ∀ k, (k < i ∨ i + length p ≤ k)%nat →
            (∀ p' j c, p' ∈ sorted_compounds → p' ≠ p → occurs_at p' j X →
                       (j ≤ k)%nat → p' !! (k - j)%nat = Some c → c = SPACE →
                       overlap i (length p) j (length p')) →
            F !! k = X !! k).
  { intros k Hk Hcover.
    apply (fold_compounds_outside X p i l1 l2 Horder Hocc Huniq Hspared k Hk).
    intros p' Hp' Hne' j c Hj Hle Hc ->.
    apply (Hothers p' j); [by rewrite <- sorted_compounds_perm | done | done |].
    by eapply Hcover. }
  apply split_token; [done | done | |].
  - destruct i as [|i']; [by left |]. right.
    assert (Hsome : is_Some (F !! i')).
    { apply lookup_lt_is_Some. rewrite length_take in Hlen. lia. }
    destruct Hsome as [c Hc].
    exists (sub_special (take i' F)), (if kept c then c else SPACE).
    split.
    + rewrite (take_S_r _ _ _ Hc). unfold sub_special. by rewrite map_app.
    + apply sub_special_blank, Hleft; [lia |].
      replace (S i' - 1)%nat with i' by lia. rewrite <- Hc. symmetry.
      apply Houtside; [lia |].
      intros p' j d Hp' Hne' Hj Hle Hd ->. unfold overlap.
      destruct (phrase_facts _ _ (sorted_compounds_entry _ Hp'))
        as (_ & _ & _ & _ & _ & z & Hz & Hzs).
      apply lookup_lt_Some in Hd as Hlt.
      assert (i' - j ≠ length p' - 1)%nat by (intros Heq; congruence).
      lia.
  - destruct (drop (i + length p) F) as [|d rest] eqn:Hdrop; [by left |].
    right. exists (if kept d then d else SPACE), (sub_special rest).
    split; [done |].
    assert (Hd : F !! (i + length p)%nat = Some d).
    { rewrite <- (Nat.add_0_r (i + length p)), <- lookup_drop. by rewrite Hdrop. }
    apply sub_special_blank, Hright. rewrite <- Hd. symmetry.
    apply Houtside; [lia |].
    intros p' j c Hp' Hne' Hj Hle Hc ->. unfold overlap.
    destruct (phrase_facts _ _ (sorted_compounds_entry _ Hp'))
      as (_ & _ & _ & _ & (a & Ha & Has) & _).
    apply lookup_lt_Some in Hc as Hlt.
    assert (i + length p - j ≠ 0)%nat by (intros Heq; congruence).
    lia.
Qed.

End CompoundFacts.

Lemma o_que_entry : (u "o que", u "o_que") ∈ PORTUGUESE_COMPOUNDS.
Proof. unfold PORTUGUESE_COMPOUNDS. left. Qed.

Lemma o_que_nonempty : u "o que" ≠ [].
Proof. intros Heq. vm_compute in Heq. discriminate. Qed.

Lemma occurs_once p X i :
  p ≠ [] → occurrences p X = [i] →
  occurs_at p i X ∧ ∀ j, occurs_at p j X → j = i.
Proof.
  intros Hp Hocc. split.
  - apply occurs_at_occurrences; [done |]. rewrite Hocc. left.
  - intros j Hj. apply occurs_at_occurrences in Hj; [| done].
    rewrite Hocc in Hj. by apply list_elem_of_singleton in Hj.
Qed.

Lemma compound_folding_witness :
  ∃ out, clean_text (H := Reference.library) (u "sei o que é") = Ok out
         ∧ u "o_que" ∈ split out.
Proof.
  assert (Hone : occurrences (u "o que")
                   (folding_input (H := Reference.library) (u "sei o que é"))
                 = [4%nat]) by by_evaluation.
  assert (Honly : only_phrase (u "o que")
                    (folding_input (H := Reference.library) (u "sei o que é"))
                  = true) by by_evaluation.
  destruct (occurs_once _ _ _ o_que_nonempty Hone) as [Hocc Huniq].
  assert (Hdecoded : html_unescape (Library := Reference.library)
                       (u "sei o que é") = Ok (u "sei o que é"))
    by by_evaluation.
  destruct (compound_folding (H := Reference.library)
              (u "o que") (u "o_que") (u "sei o que é") (u "sei o que é") 4
              Hdecoded o_que_entry Hocc Huniq) as (out & Hout & _ & Hexact).
  - intros p' j Hkey Hlen Hj.
    destruct (only_phrase_spec _ _ Honly p' j); [done | | done].
    intros ->. lia.
  - exists out. split; [done |]. apply Hexact.
    + intros p' j Hkey Hne Hj. by destruct (only_phrase_spec _ _ Honly p' j).
    + split; intros c.
      * intros _. change (4 - 1)%nat with 3%nat.
        assert (Hc : folding_input (H := Reference.library) (u "sei o que é")
                       !! 3%nat = Some SPACE) by by_evaluation.
        rewrite Hc. by intros [= <-].
      * assert (Hc : folding_input (H := Reference.library) (u "sei o que é")
                       !! (4 + length (u "o que"))%nat = Some SPACE)
          by by_evaluation.
        rewrite Hc. by intros [= <-].
Defined.

(** C5 fails on the text "no que": its one occurrence of "o que" is
    folded inside the token "no_que", so "o_que" is no token. *)
Lemma placeholder_inside_token :
  ¬ (∀ p q T i,
       (p, q) ∈ PORTUGUESE_COMPOUNDS →
       lone_occurrence (H := Reference.library) p T i →
       folded_to_token (H := Reference.library) p q T).
Proof.
  intros Hclaim.
  assert (Hone : occurrences (u "o que")
                   (folding_input (H := Reference.library) (u "no que"))
                 = [1%nat]) by by_evaluation.
  assert (Honly : only_phrase (u "o que")
                    (folding_input (H := Reference.library) (u "no que"))
                  = true) by by_evaluation.
  destruct (occurs_once _ _ _ o_que_nonempty Hone) as [Hocc Huniq].
  destruct (Hclaim (u "o que") (u "o_que") (u "no que") 1%nat o_que_entry)
    with (out := u "no_que") as [Htoken _].
  - split_and!; [done | done |].
    intros p' j Hkey Hlen Hj.
    destruct (only_phrase_spec _ _ Honly p' j); [done | | done].
    intros ->. lia.
  - by_evaluation.
  - assert (Hsplit : split (u "no_que") = [u "no_que"]) by by_evaluation.
    rewrite Hsplit in Htoken. apply list_elem_of_singleton in Htoken.
    vm_compute in Htoken. discriminate.
Qed.

(** Inputs that show what folding one occurrence leaves open. *)

(** An overlapping phrase of the same length joins the placeholder to
    its own. *)
Example overlapping_phrase_of_equal_length :
  clean_text (H := Reference.library) (u "ao lado de repente")
  = Ok (u "ao_lado_de_repente").
Proof. by_evaluation. Qed.

(** An overlapping shorter phrase does the same. *)
Example overlapping_shorter_phrase :
  clean_text (H := Reference.library) (u "dentro de acordo com")
  = Ok (u "dentro_de_acordo_com").
Proof. by_evaluation. Qed.

(** A word of the phrase that occurs elsewhere in the text is a token
    of the result. *)
Example word_of_phrase_elsewhere :
  clean_text (H := Reference.library) (u "o que o") = Ok (u "o_que o").
Proof. by_evaluation. Qed.

(** Running the compound folding again changes a normalized text:
    "o, que" becomes "o que", which becomes "o_que". *)
Example refolding_changes :
  clean_text (H := Reference.library) (u "o, que") = Ok (u "o que")
  ∧ clean_text (H := Reference.library) (u "o que") = Ok (u "o_que").
Proof. split; by_evaluation. Qed.

(** ** The end-to-end scenario *)

Lemma lower_latin1_bound c : c ≤ 0xFF → lower_latin1 c ≤ 0xFF.
Proof.
  unfold lower_latin1, Utf8.between. intros Hc.
  repeat match goal with
         | |- context [?a <=? ?b] => destruct (N.leb_spec a b)
         | |- context [?a =? ?b] => destruct (N.eqb_spec a b)
         end; simpl; lia.
Qed.

(** The characters between the elements of a serialised document. *)
Lemma blank_facts c :
  blank c →
  isspace c = true ∧ kept c = true ∧ lower_latin1 c = c ∧ c ≤ 0xFF
  ∧ c ≠ AMPERSAND ∧ kept_letter c = false.
Proof. intros [-> | ->]; by vm_compute. Qed.

Lemma blank_all W :
  forallb (λ c, (c =? SPACE) || (c =? NEWLINE)) W = true → Forall blank W.
Proof.
  rewrite forallb_forall, Forall_forall. intros Hall c Hc.
  specialize (Hall c (proj1 (list_elem_of_In _ _) Hc)).
  apply orb_true_iff in Hall as [->%N.eqb_eq | ->%N.eqb_eq];
    [by left | by right].
Qed.

Lemma phrase_last p :
  p ∈ sorted_compounds → ∃ z, last p = Some z ∧ kept_letter z = true.
Proof.
  intros Hp%sorted_compounds_entry%table_entry. unfold phrase_ok in Hp.
  rewrite !andb_true_iff in Hp. destruct Hp as [_ Hlast].
  cbn [fst] in Hlast. destruct (last p) as [z |]; [| done]. by exists z.
Qed.

Lemma replace_blank_prefix a p q W s :
  kept_letter a = true → Forall blank W →
  replace (a :: p) q (W ++ s) = W ++ replace (a :: p) q s.
Proof.
  intros Ha. induction 1 as [|c W Hc _ IH]; [done |].
  cbn [app]. rewrite replace_miss, IH; [done | done |].
  apply startswith_head. intros <-.
  apply blank_facts in Hc as (_ & _ & _ & _ & _ & Hc). congruence.
Qed.

Lemma startswith_blank_suffix p s W z :
  last p = Some z → kept_letter z = true → Forall blank W →
  startswith p (s ++ W) = true → startswith p s = true.
Proof.
  intros Hlast Hz HW. revert s W HW Hlast.
  induction p as [|a p IH]; intros s W HW Hlast; [done |].
  destruct p as [|b p].
  - injection Hlast as ->. destruct s as [|c s]; [| done].
    destruct HW as [|c W Hc _]; [done |].
    cbn [app startswith]. rewrite andb_true_r. intros <-%N.eqb_eq.
    apply blank_facts in Hc as (_ & _ & _ & _ & _ & Hc). congruence.
  - rewrite last_cons_cons in Hlast. destruct s as [|c s].
    + destruct HW as [|c W Hc HW]; [done |].
      cbn [app]. change (startswith (a :: b :: p) (c :: W))
        with ((a =? c) && startswith (b :: p) ([] ++ W)).
      intros [_ Htail]%andb_true_iff.
      by specialize (IH [] W HW Hlast Htail).
    + change (startswith (a :: b :: p) ((c :: s) ++ W))
        with ((a =? c) && startswith (b :: p) (s ++ W)).
      change (startswith (a :: b :: p) (c :: s))
        with ((a =? c) && startswith (b :: p) s).
      intros [-> Htail]%andb_true_iff. by rewrite (IH s W HW Hlast Htail).
Qed.

Lemma replace_blank_suffix a p q W z s :
  kept_letter a = true → last (a :: p) = Some z → kept_letter z = true →
  Forall blank W →
  replace (a :: p) q (s ++ W) = replace (a :: p) q s ++ W.
Proof.
  intros Ha Hlast Hz HW.
  induction s as [| c s Hmiss IH | s Hs Hhit IH]
    using (replace_ind (a :: p) ltac:(done)).
  - rewrite replace_nil by done. cbn [app].
    rewrite <- (app_nil_r W) at 1.
    rewrite replace_blank_prefix, replace_nil by done.
    by rewrite app_nil_r.
  - cbn [app]. rewrite !replace_miss, IH; [done | done | done | done |].
    destruct (startswith (a :: p) (c :: s ++ W)) eqn:Hstart; [| done].
    change (c :: s ++ W) with ((c :: s) ++ W) in Hstart.
    by rewrite (startswith_blank_suffix _ _ _ _ Hlast Hz HW Hstart) in Hmiss.
  - pose proof (startswith_drop _ _ Hhit) as Hsplit.
    assert (Hlen : (length (a :: p) ≤ length s)%nat).
    { apply (f_equal length) in Hsplit. rewrite length_app in Hsplit. lia. }
    rewrite (replace_hit _ _ s) by done.
    rewrite (replace_hit _ _ (s ++ W)).
    + rewrite drop_app_le by done. by rewrite IH, app_assoc.
    + done.
    + rewrite Hsplit, <- app_assoc. apply startswith_app.
Qed.

Lemma fold_compounds_blank_affixes W1 X W2 :
  Forall blank W1 → Forall blank W2 →
  fold_compounds (W1 ++ X ++ W2) = W1 ++ fold_compounds X ++ W2.
Proof.
  intros HW1 HW2. unfold fold_compounds.
  assert (Hall : ∀ p, p ∈ sorted_compounds → p ∈ sorted_compounds) by done.
  revert X Hall. generalize sorted_compounds at 1 3 4.
  intros l. induction l as [|p l IH]; intros X Hall; [done |].
  cbn [foldl].
  destruct (phrase_head p (Hall p ltac:(left))) as (a & p' & -> & Ha).
  destruct (phrase_last (a :: p') (Hall _ ltac:(left))) as (z & Hlast & Hz).
  rewrite replace_blank_prefix by done.
  rewrite (replace_blank_suffix _ _ _ _ z) by done.
  apply IH. intros p Hp. apply Hall. by right.
Qed.

Lemma map_fixed {A} (f : A → A) (P : A → Prop) l :
  (∀ x, P x → f x = x) → Forall P l → map f l = l.
Proof.
  intros Hf. induction 1 as [|x l Hx _ IH]; [done |].
  cbn [map]. by rewrite (Hf x Hx), IH.
Qed.

Section ScenarioFacts.
Context `{Library}.

(** On text in the Latin-1 range the folding input is the text
    lowercased character by character. *)
Lemma folding_input_plain T :
  Forall (λ c, c ≤ 0xFF) T →
  folding_input T = map lower_latin1 (map lower_latin1 T).
Proof.
  intros Hlatin. unfold folding_input.
  rewrite (str_lower_latin1 T) by done.
  apply str_lower_latin1, Forall_map.
  eapply Forall_impl; [exact Hlatin |]. apply lower_latin1_bound.
Qed.

(** Line breaks and indentation around a text do not change what it is
    normalized to. *)
Lemma normalized_blank_affixes W1 P W2 :
  Forall blank W1 → Forall blank W2 → Forall (λ c, c ≤ 0xFF) P →
  normalized (W1 ++ P ++ W2)
  = join [SPACE]
      (split (sub_special
                (fold_compounds (map lower_latin1 (map lower_latin1 P))))).
Proof.
  intros HW1 HW2 HP. unfold normalized. rewrite tidy_join.
  assert (Hlower : ∀ W, Forall blank W → map lower_latin1 W = W).
  { intros W. apply map_fixed. intros c Hc.
    apply blank_facts in Hc as (? & ? & ? & ? & ? & ?); done. }
  assert (Hkept : ∀ W, Forall blank W → sub_special W = W).
  { intros W HW. apply sub_special_fixed.
    eapply Forall_impl; [exact HW |]. intros c Hc.
    apply blank_facts in Hc as (? & ? & ? & ? & ? & ?); done. }
  assert (Hspace : ∀ W, Forall blank W → Forall (λ c, isspace c = true) W).
  { intros W HW. eapply Forall_impl; [exact HW |]. intros c Hc.
    apply blank_facts in Hc as (? & ? & ? & ? & ? & ?); done. }
  rewrite folding_input_plain.
  2: { repeat (apply Forall_app; split); [| done |];
       (eapply Forall_impl; [eassumption |]); intros c Hc;
       apply blank_facts in Hc as (? & ? & ? & ? & ? & ?); done. }
  rewrite !map_app, !(Hlower W1), !(Hlower W2) by done.
  rewrite fold_compounds_blank_affixes by done.
  unfold sub_special at 1. rewrite !map_app.
  fold (sub_special W1). fold (sub_special W2).
  fold (sub_special
          (fold_compounds (map lower_latin1 (map lower_latin1 P)))).
  rewrite (Hkept W1), (Hkept W2) by done.
  by rewrite split_space_prefix, split_space_suffix by auto.
Qed.

(** C1, as the code has it.  The program works on the document that
    [get_content] returns for the part, which [ebooklib] writes anew
    around the children of the part's [body]: it has no [title] element,
    and its text is the paragraph [o que é isso? O QUE é isso!] between
    the line breaks and the indentation of the serialisation.  The
    chapter record then has the internal file name of the part as its
    title; the normalized text is [o_que é isso o_que é isso] and the
    frequencies are [{o_que:2, é:2, isso:2}]; the per-chapter file
    exported under the frequency policy with threshold 1 lists
    [isso,2], [o_que,2], [é,2] in this order (words compare by code
    point). *)
Theorem end_to_end_scenario (item : EpubItem) (returned : returned)
    (content : str) (sp : soup) (W1 W2 : str) (path timestamp : str)
    (fs : FileSystem) :
  get_type item = ITEM_DOCUMENT →
  get_content item = Ok returned → decode returned = Ok content →
  html_parser content = Ok sp →
  find [u "title"] sp = None → find [u "h1"; u "h2"] sp = None →
  soup_get_text (decompose_all [u "script"; u "style"] sp)
  = W1 ++ ch1_paragraph ++ W2 →
  Forall blank W1 → Forall blank W2 →
  analyze_epub (shelf [item]) path = [(get_name item, ch1_frequencies)]
  ∧ clean_text (W1 ++ ch1_paragraph ++ W2)
    = Ok (u "o_que é isso o_que é isso")
  ∧ ∃ fs',
      export_to_csv timestamp (analyze_epub (shelf [item]) path)
                    1 (u "frequency") fs = Ok fs'
      ∧ files fs' !! chapter_filename (output_dir timestamp) (get_name item)
        = Some [[Cstr (u "Word"); Cstr (u "Frequency")];
                [Cstr (u "isso"); Cint 2]; [Cstr (u "o_que"); Cint 2];
                [Cstr (u "é"); Cint 2]].
Proof.
  intros Htype Hget Hdecode Hparse Htitle Hheading Htext HW1 HW2.
  assert (Hplain : html_unescape (W1 ++ ch1_paragraph ++ W2)
                   = Ok (W1 ++ ch1_paragraph ++ W2)).
  { apply html_unescape_plain.
    rewrite !not_elem_of_app. split_and!.
    - intros Hin. rewrite Forall_forall in HW1.
      apply HW1, blank_facts in Hin as (? & ? & ? & ? & ? & ?); done.
    - apply (bool_decide_eq_true_1 (AMPERSAND ∉ _)). by_evaluation.
    - intros Hin. rewrite Forall_forall in HW2.
      apply HW2, blank_facts in Hin as (? & ? & ? & ? & ? & ?); done. }
  assert (Hnormalized : normalized (W1 ++ ch1_paragraph ++ W2)
                        = u "o_que é isso o_que é isso").
  { rewrite normalized_blank_affixes; [by_evaluation | done | done |].
    apply (bool_decide_eq_true_1 (Forall (λ c, c ≤ 0xFF) _)).
    by_evaluation. }
  assert (Hitem : analyze_item item = Ok (get_name item, ch1_frequencies)).
  { rewrite <- Htext in Hplain.
    rewrite (analyze_item_run _ _ _ _ _ Hget Hdecode Hparse Hplain).
    unfold derived_title. rewrite <- !find_first, Htitle, Hheading.
    assert (Hcount : get_word_frequencies (u "o_que é isso o_que é isso")
                     = ch1_frequencies) by by_evaluation.
    by rewrite Htext, Hnormalized, Hcount. }
  assert (Hchapters :
    analyze_epub (shelf [item]) path = [(get_name item, ch1_frequencies)]).
  { unfold analyze_epub, analyze_epub_try, shelf. cbn [mbind result_bind].
    unfold get_items_of_type. cbn [get_items].
    rewrite filter_cons_True by done. rewrite filter_nil.
    cbn [for_each]. by rewrite Hitem. }
  split_and!; [done | by rewrite (clean_text_ok _ _ Hplain), Hnormalized |].
  rewrite Hchapters, export_to_csv_eq. eexists. split; [done |].
  cbn [write_csv files foldl export_chapter].
  rewrite lookup_insert_ne
    by (apply not_eq_sym, chapter_filename_not_combined).
  rewrite lookup_insert_eq. apply (f_equal Some). by_evaluation.
Qed.

End ScenarioFacts.

(** What the reference library hands over for the part of the
    scenario. *)
Lemma ch1_item_returned :
  let content := Reference.handed_over ch1_item in
  let sp := Reference.parse content in
  get_content (Library := Reference.library) ch1_item
  = Ok (Bytes (Reference.encode content))
  ∧ decode (Bytes (Reference.encode content)) = Ok content
  ∧ html_parser (Library := Reference.library) content = Ok sp
  ∧ find [u "title"] sp = None
  ∧ find [u "h1"; u "h2"] sp = None
  ∧ soup_get_text (decompose_all [u "script"; u "style"] sp)
    = ([NEWLINE; NEWLINE; NEWLINE] ++ repeat SPACE 2
       ++ [NEWLINE] ++ repeat SPACE 2 ++ [NEWLINE] ++ repeat SPACE 4)
      ++ ch1_paragraph
      ++ ([NEWLINE] ++ repeat SPACE 2 ++ [NEWLINE; NEWLINE]).
Proof. cbv zeta. split_and!; by_evaluation. Qed.

Lemma end_to_end_scenario_witness :
  analyze_epub (H := Reference.library) (shelf [ch1_item]) (u "book.epub")
  = [(u "ch1.xhtml", ch1_frequencies)]
  ∧ ∃ fs',
      export_to_csv (H := Reference.library) (u "20250101_120000")
        (analyze_epub (H := Reference.library) (shelf [ch1_item])
                      (u "book.epub"))
        1 (u "frequency") empty_fs = Ok fs'
      ∧ files fs' !! chapter_filename (H := Reference.library)
                       (output_dir (u "20250101_120000")) (u "ch1.xhtml")
        = Some [[Cstr (u "Word"); Cstr (u "Frequency")];
                [Cstr (u "isso"); Cint 2]; [Cstr (u "o_que"); Cint 2];
                [Cstr (u "é"); Cint 2]].
Proof.
  destruct ch1_item_returned
    as (Hget & Hdecode & Hparse & Htitle & Hheading & Htext).
  destruct (end_to_end_scenario (H := Reference.library) ch1_item _ _ _ _ _
              (u "book.epub") (u "20250101_120000") empty_fs
              eq_refl Hget Hdecode Hparse Htitle Hheading Htext)
    as (Hrecord & _ & Hexport).
  - by apply blank_all.
  - by apply blank_all.
  - split; [exact Hrecord | exact Hexport].
Defined.

(** C1 fails on its own input.  With the record that it gives, the
    rows of the file would come in the order [isso], [o_que], [é], as
    [é] has the largest code point, not with [é] first. *)
Lemma accented_word_sorts_last :
  ¬ scenario_as_specified (H := Reference.library)
      (u "book.epub") (u "20250101_120000") empty_fs.
Proof.
  intros (Hrecord & _ & fs' & Hexport & Hrows).
  rewrite Hrecord, export_to_csv_eq in Hexport. injection Hexport as <-.
  vm_compute in Hrows. discriminate.
Qed.

(** The title of the record is not [Ch1] either: the title element of
    the part is not in the document handed over, and the title is the
    file name of the part. *)
Example title_element_is_not_handed_over :
  analyze_epub (H := Reference.library) (shelf [ch1_item]) (u "book.epub")
  = [(u "ch1.xhtml", ch1_frequencies)].
Proof. by_evaluation. Qed.

(** * Further properties of the program *)

(** ** The frequency aggregator *)

Lemma Counter_snoc words x :
  Counter (words ++ [x])
  = <[x := (default 0 (Counter words !! x) + 1)%Z]> (Counter words).
Proof. unfold Counter. by rewrite foldl_app. Qed.

Lemma count_of_snoc w words x :
  count_of w (words ++ [x])
  = (count_of w words + if decide (x = w) then 1 else 0)%nat.
Proof.
  unfold count_of. rewrite filter_app, length_app. f_equal.
  destruct (decide (x = w)) as [-> | Hne].
  - by rewrite filter_cons_True.
  - by rewrite filter_cons_False.
Qed.

Lemma count_of_absent w words : w ∉ words → count_of w words = 0%nat.
Proof.
  intros Hw. unfold count_of.
  induction words as [|x words IH]; [done |].
  apply not_elem_of_cons in Hw as [Hne Hw].
  rewrite filter_cons_False by done. by apply IH.
Qed.

Lemma Counter_lookup words w :
  Counter words !! w
  = if decide (w ∈ words) then Some (Z.of_nat (count_of w words)) else None.
Proof.
  induction words as [|x words IH] using rev_ind.
  - unfold Counter. cbn [foldl]. rewrite lookup_empty.
    destruct (decide (w ∈ [])) as [Hin | _]; [| done].
    by apply not_elem_of_nil in Hin.
  - rewrite Counter_snoc, count_of_snoc.
    destruct (decide (x = w)) as [-> | Hne].
    + rewrite lookup_insert_eq, IH.
      destruct (decide (w ∈ words ++ [w])) as [_ | Hnot];
        [| destruct Hnot; apply elem_of_app; right; left].
      destruct (decide (w ∈ words)) as [Hin | Hnot]; cbn [default]; unfold id.
      * f_equal. lia.
      * rewrite count_of_absent by done. done.
    + rewrite lookup_insert_ne by done. rewrite IH, Nat.add_0_r.
      destruct (decide (w ∈ words)) as [Hin | Hnot],
               (decide (w ∈ words ++ [x])) as [Hin' | Hnot']; try done.
      * destruct Hnot'. apply elem_of_app. by left.
      * apply elem_of_app in Hin' as [? | Hx%list_elem_of_singleton]; [done |].
        by subst.
Qed.

Lemma Zsum_perm (l k : list Z) : l ≡ₚ k → Zsum l = Zsum k.
Proof.
  induction 1 as [| x l k _ IH | x y l | l k m _ IH1 _ IH2]; simpl;
    unfold Zsum in *; simpl; try lia.
Qed.

Lemma total_words_insert (m : gmap str Z) x v :
  total_words (<[x := v]> m) = (total_words m + v - default 0 (m !! x))%Z.
Proof.
  unfold total_words. fold (Zsum (map_to_list (<[x := v]> m)).*2).
  fold (Zsum (map_to_list m).*2).
  destruct (m !! x) as [v0 |] eqn:Hx; cbn [default].
  - rewrite <- (insert_delete_eq m x v).
    rewrite <- (insert_id m x v0 Hx) at 2.
    rewrite <- (insert_delete_eq m x v0).
    rewrite !(Zsum_perm _ _ (fmap_Permutation snd _ _
               (map_to_list_insert _ _ _ (lookup_delete_eq m x)))).
    rewrite !fmap_cons. unfold Zsum. cbn [foldr snd]. unfold id. lia.
  - rewrite (Zsum_perm _ _ (fmap_Permutation snd _ _
               (map_to_list_insert _ _ _ Hx))).
    rewrite !fmap_cons. unfold Zsum. cbn [foldr snd]. unfold id. lia.
Qed.

Lemma total_words_Counter words :
  total_words (Counter words) = Z.of_nat (length words).
Proof.
  induction words as [|x words IH] using rev_ind; [done |].
  rewrite Counter_snoc, total_words_insert, IH, length_app. simpl. lia.
Qed.

Lemma Counter_dom words : dom (Counter words) = list_to_set words.
Proof.
  apply set_eq. intros w.
  rewrite elem_of_dom, Counter_lookup, elem_of_list_to_set.
  destruct (decide (w ∈ words)); split; try done; by intros [? ?].
Qed.

(** X1.  The frequency of a word is the number of times it stands among
    the whitespace-separated tokens of the text; a word that is no token
    has no entry, so every count held is at least 1. *)
Theorem get_word_frequencies_counts (text : str) (w : str) :
  get_word_frequencies text !! w
  = (if decide (w ∈ split text)
     then Some (Z.of_nat (count_of w (split text))) else None)
  ∧ ∀ c, get_word_frequencies text !! w = Some c → (1 ≤ c)%Z.
Proof.
  unfold get_word_frequencies. split; [apply Counter_lookup |].
  intros c. rewrite Counter_lookup.
  destruct (decide (w ∈ split text)) as [Hin | Hnot]; [| done].
  intros [= <-]. unfold count_of.
  destruct (filter (λ x, x = w) (split text)) as [|y l] eqn:Hfilter;
    [| simpl; lia].
  assert (Hw : w ∈ filter (λ x, x = w) (split text))
    by (by apply list_elem_of_filter).
  rewrite Hfilter in Hw. by apply not_elem_of_nil in Hw.
Qed.

(** X2.  The counts of a chapter add up to the number of tokens of its
    text, and the table has one entry per distinct token: the two
    numbers that [print_chapter_analysis] prints as total and unique
    words. *)
Theorem get_word_frequencies_totals (text : str) :
  total_words (get_word_frequencies text) = Z.of_nat (length (split text))
  ∧ size (get_word_frequencies text) = length (remove_dups (split text)).
Proof.
  unfold get_word_frequencies. split; [apply total_words_Counter |].
  rewrite <- size_dom, Counter_dom.
  rewrite <- (size_list_to_set (C := gset str) (remove_dups (split text)))
    by apply NoDup_remove_dups.
  f_equal. apply set_eq. intros w.
  by rewrite !elem_of_list_to_set, elem_of_remove_dups.
Qed.

(** ** The shape of the normalized text *)

Lemma collapsed_lookup s i c :
  collapsed s → s !! i = Some c → isspace c = true →
  c = SPACE ∧ ∀ d, s !! S i = Some d → isspace d = false.
Proof.
  revert i. induction s as [|x s IH]; intros i Hs Hi Hc; [done |].
  destruct Hs as [Hx Hs]. destruct i as [|i].
  - injection Hi as ->. destruct (Hx Hc) as [-> Hnext]. split; [done |].
    intros d Hd. destruct s; [done |]. by injection Hd as ->.
  - by apply (IH i).
Qed.

Lemma solid_or_space c :
  solid c = true ∨ c = SPACE → isspace c = false → solid c = true.
Proof. by intros [Hc | ->] Hsp. Qed.

Section ShapeFacts.
Context `{Library}.

(** X3.  When entity decoding returns, [clean_text] returns a text made
    of allow-listed letters, underscores and spaces (U+0020) only; it
    neither starts nor ends with a space, and every space in it is
    followed by a letter or an underscore, so no two spaces are
    adjacent. *)
Theorem clean_text_shape (input T : str) :
  html_unescape input = Ok T →
  ∃ out, clean_text input = Ok out
    ∧ Forall (λ c, solid c = true ∨ c = SPACE) out
    ∧ (∀ c, head out = Some c → solid c = true)
    ∧ (∀ c, last out = Some c → solid c = true)
    ∧ (∀ i, out !! i = Some SPACE →
            ∃ c, out !! S i = Some c ∧ solid c = true).
Proof.
  intros Hdecoded.
  exists (normalized T). split; [by apply clean_text_ok |].
  pose proof (normalized_chars T) as Hchars.
  pose proof (normalized_collapsed T) as Hcollapsed.
  assert (Hlast : ∀ c, last (normalized T) = Some c → isspace c = false).
  { intros c. unfold normalized, strip. apply rstrip_last. }
  assert (Hin : ∀ i c, normalized T !! i = Some c →
                       solid c = true ∨ c = SPACE).
  { intros i c Hc. rewrite Forall_forall in Hchars.
    by eapply Hchars, list_elem_of_lookup_2. }
  split_and!; [done | | |].
  - intros c Hc. apply solid_or_space.
    + apply (Hin 0%nat). by rewrite <- head_lookup.
    + unfold normalized, strip in Hc.
      by apply rstrip_head, lstrip_head in Hc.
  - intros c Hc. apply solid_or_space; [| by apply Hlast].
    rewrite last_lookup in Hc. by eapply Hin.
  - intros i Hi.
    destruct (collapsed_lookup _ _ _ Hcollapsed Hi eq_refl) as [_ Hnext].
    destruct (normalized T !! S i) as [d |] eqn:Hd.
    + exists d. split; [done |]. apply solid_or_space; eauto.
    + exfalso. apply lookup_ge_None in Hd. apply lookup_lt_Some in Hi as Hlt.
      specialize (Hlast SPACE). rewrite last_lookup in Hlast.
      replace (pred (length (normalized T))) with i in Hlast by lia.
      by specialize (Hlast Hi).
Qed.

End ShapeFacts.

Lemma clean_text_shape_witness :
  ∃ out, clean_text (H := Reference.library) (u "  Olá,  Mundo 42! ") = Ok out
    ∧ Forall (λ c, solid c = true ∨ c = SPACE) out
    ∧ (∀ c, head out = Some c → solid c = true)
    ∧ (∀ c, last out = Some c → solid c = true)
    ∧ (∀ i, out !! i = Some SPACE →
            ∃ c, out !! S i = Some c ∧ solid c = true).
Proof.
  apply (clean_text_shape (H := Reference.library)
           (u "  Olá,  Mundo 42! ") (u "  Olá,  Mundo 42! ")).
  by_evaluation.
Defined.

Lemma split_scan_token cur s tok :
  Forall (λ c, isspace c = false) cur → tok ∈ split_scan cur s →
  tok ≠ [] ∧ Forall (λ c, isspace c = false ∧ c ∈ cur ++ s) tok.
Proof.
  revert cur. induction s as [|c s IH]; intros cur Hcur Htok.
  - cbn [split_scan] in Htok. destruct cur as [|d cur];
      [by apply not_elem_of_nil in Htok |].
    apply list_elem_of_singleton in Htok as ->. split; [done |].
    rewrite app_nil_r. apply Forall_forall. intros x Hx. split; [| done].
    rewrite Forall_forall in Hcur. by apply Hcur.
  - cbn [split_scan] in Htok. destruct (isspace c) eqn:Hc.
    + assert (Hrest : tok ∈ split_scan [] s →
                tok ≠ [] ∧ Forall (λ x, isspace x = false ∧ x ∈ cur ++ c :: s) tok).
      { intros Hin. destruct (IH [] ltac:(constructor) Hin) as [Hne Hall].
        split; [done |]. eapply Forall_impl; [exact Hall |].
        intros x [Hx Hxin]. split; [done |].
        apply elem_of_app. right. by right. }
      destruct cur as [|d cur]; [by apply Hrest |].
      apply elem_of_cons in Htok as [-> | Htok]; [| by apply Hrest].
      split; [done |]. apply Forall_forall. intros x Hx. split.
      * rewrite Forall_forall in Hcur. by apply Hcur.
      * apply elem_of_app. by left.
    + destruct (IH (cur ++ [c])) as [Hne Hall]; [| done |].
      * apply Forall_app. split; [done |]. by constructor.
      * split; [done |]. by rewrite <- app_assoc in Hall.
Qed.

Section TokenFacts.
Context `{Library}.

(** X4.  When entity decoding returns, every word counted for a
    chapter is a non-empty string of allow-listed letters and
    underscores: no digit, punctuation mark, uppercase letter or
    whitespace reaches the frequency table. *)
Theorem counted_words_shape (input T : str) :
  html_unescape input = Ok T →
  ∃ out, clean_text input = Ok out
    ∧ ∀ w, is_Some (get_word_frequencies out !! w) →
           w ≠ [] ∧ Forall (λ c, solid c = true) w.
Proof.
  intros Hdecoded.
  exists (normalized T). split; [by apply clean_text_ok |].
  intros w Hw. apply elem_of_dom in Hw.
  unfold get_word_frequencies in Hw. rewrite Counter_dom in Hw.
  apply elem_of_list_to_set in Hw. unfold split in Hw.
  destruct (split_scan_token [] _ _ ltac:(constructor) Hw) as [Hne Hall].
  split; [done |]. eapply Forall_impl; [exact Hall |].
  intros c [Hc Hin]. cbn [app] in Hin.
  pose proof (normalized_chars T) as Hchars. rewrite Forall_forall in Hchars.
  apply solid_or_space; [by apply Hchars | done].
Qed.

(** X5.  [replace_compounds] returns the lowercased text with some of
    its spaces turned into underscores and nothing else changed: the
    length and every other character stay.  When no phrase of the table
    occurs in the lowercased text, the lowercased text is returned as it
    is. *)
Theorem replace_compounds_spaces_only (text : str) :
  ∃ out, replace_compounds text = Ok out
    ∧ length out = length (str_lower text)
    ∧ (∀ i c, str_lower text !! i = Some c →
              out !! i = Some c ∨ (c = SPACE ∧ out !! i = Some UNDERSCORE))
    ∧ ((∀ p j, p ∈ keys PORTUGUESE_COMPOUNDS →
               ¬ occurs_at p j (str_lower text)) →
       out = str_lower text).
Proof.
  exists (fold_compounds (str_lower text)).
  split; [apply replace_compounds_ok |].
  assert (Hfold : folds_to (str_lower text) (fold_compounds (str_lower text))).
  { apply folds_to_foldl. intros p Hp. by apply sorted_compounds_facts. }
  split_and!.
  - symmetry. by apply Forall2_length in Hfold.
  - intros i c Hc.
    destruct (Forall2_lookup_l _ _ _ _ _ Hfold Hc) as (b & Hb & [-> | [-> ->]]);
      auto.
  - intros Habsent. unfold fold_compounds. apply foldl_fixed. intros p Hp.
    apply replace_absent; [by apply sorted_compounds_facts |].
    intros j. destruct (startswith p (drop j (str_lower text))) eqn:Hj; [| done].
    destruct (Habsent p j); [by rewrite <- sorted_compounds_perm | done].
Qed.

End TokenFacts.

Lemma counted_words_shape_witness :
  ∃ out, clean_text (H := Reference.library) (u "Olá, Mundo 42!") = Ok out
    ∧ ∀ w, is_Some (get_word_frequencies out !! w) →
           w ≠ [] ∧ Forall (λ c, solid c = true) w.
Proof.
  apply (counted_words_shape (H := Reference.library)
           (u "Olá, Mundo 42!") (u "Olá, Mundo 42!")).
  by_evaluation.
Defined.

Lemma replace_compounds_spaces_only_witness :
  replace_compounds (H := Reference.library) (u "Bom Trabalho")
  = Ok (u "bom trabalho").
Proof.
  destruct (replace_compounds_spaces_only (H := Reference.library)
              (u "Bom Trabalho")) as (out & -> & _ & _ & Hsame).
  f_equal. rewrite Hsame; [by_evaluation |].
  intros p j Hp Hocc.
  assert (Honly : only_phrase []
            (str_lower (Library := Reference.library) (u "Bom Trabalho"))
          = true) by by_evaluation.
  apply (only_phrase_spec _ _ Honly p j Hp); [| done].
  intros ->.
  by apply (proj1 (sorted_compounds_facts [] ltac:(by rewrite sorted_compounds_perm))).
Defined.

(** ** The extractor on a container that opens *)

Lemma decompose_in_elements names n :
  Forall (λ e, named names e = false)
         (flat_map descendants (decompose_in names n)).
Proof.
  induction n as [s | name contents IH] using node_forall_ind; [done |].
  cbn [decompose_in]. case_bool_decide as Hname; [done |].
  cbn [flat_map descendants]. rewrite app_nil_r. constructor.
  - cbn [named]. by apply bool_decide_eq_false_2.
  - induction IH as [|c contents Hc _ IHcontents]; [done |].
    cbn [flat_map]. rewrite flat_map_app. by apply Forall_app.
Qed.

Lemma decompose_in_fixed names n :
  Forall (λ e, named names e = false) (descendants n) →
  decompose_in names n = [n].
Proof.
  induction n as [s | name contents IH] using node_forall_ind; [done |].
  cbn [descendants decompose_in]. intros [Hname Hrest]%Forall_cons.
  cbn [named] in Hname. rewrite Hname. do 2 f_equal.
  induction IH as [|c contents Hc _ IHcontents]; [done |].
  cbn [flat_map] in *. apply Forall_app in Hrest as [Hhere Hrest].
  by rewrite (Hc Hhere), (IHcontents Hrest).
Qed.

Lemma decompose_all_fixed names sp :
  Forall (λ e, named names e = false) (soup_elements sp) →
  decompose_all names sp = sp.
Proof.
  unfold decompose_all, soup_elements.
  induction sp as [|c sp IH]; [done |].
  cbn [flat_map]. intros [Hhere Hrest]%Forall_app.
  by rewrite (decompose_in_fixed _ _ Hhere), (IH Hrest).
Qed.

Lemma decompose_in_text names n :
  flat_map get_text (decompose_in names n) = visible_text names n.
Proof.
  induction n as [s | name contents IH] using node_forall_ind.
  - cbn. by rewrite app_nil_r.
  - cbn [decompose_in visible_text]. case_bool_decide; [done |].
    cbn [flat_map get_text]. rewrite app_nil_r.
    induction IH as [|c contents Hc _ IHcontents]; [done |].
    cbn [flat_map]. by rewrite flat_map_app, Hc, IHcontents.
Qed.

Section ExtractorRecords.
Context `{Library}.

(** X6.  When the parser accepts the markup, [html_to_text] returns the
    text of a tree that holds no [script] and no [style] element at any
    depth: it is the text of the parsed markup read in document order
    with these elements skipped, and the whole text of the parsed markup
    when it holds none of them. *)
Theorem html_to_text_drops_script_style (content : str) (sp : soup) :
  html_parser content = Ok sp →
  let names := [u "script"; u "style"] in
  ∃ kept,
    html_to_text content = Ok (soup_get_text kept)
    ∧ Forall (λ e, named names e = false) (soup_elements kept)
    ∧ html_to_text content = Ok (flat_map (visible_text names) sp)
    ∧ (Forall (λ e, named names e = false) (soup_elements sp) → kept = sp).
Proof.
  intros Hparse names. exists (decompose_all names sp).
  assert (Hrun : html_to_text content
                 = Ok (soup_get_text (decompose_all names sp))).
  { unfold html_to_text. by rewrite Hparse. }
  split_and!.
  - done.
  - clear Hparse Hrun. unfold decompose_all, soup_elements.
    induction sp as [|c sp' IH]; [done |].
    cbn [flat_map]. rewrite flat_map_app. apply Forall_app.
    split; [apply decompose_in_elements | done].
  - rewrite Hrun. f_equal. clear Hparse Hrun.
    unfold soup_get_text, decompose_all.
    induction sp as [|c sp' IH]; [done |].
    cbn [flat_map]. by rewrite flat_map_app, decompose_in_text, IH.
  - apply decompose_all_fixed.
Qed.

Lemma html_to_text_rejected content e :
  html_parser content = Raise e → html_to_text content = Raise e.
Proof. intros Hparse. unfold html_to_text. by rewrite Hparse. Qed.

(** The stage of [analyze_item] that raises decides what it raises. *)
Lemma analyze_item_raise item e :
  get_content item = Raise e
  ∨ (∃ returned, get_content item = Ok returned
       ∧ (decode returned = Raise e
          ∨ ∃ content, decode returned = Ok content
              ∧ (html_parser content = Raise e
                 ∨ ∃ sp, html_parser content = Ok sp
                     ∧ html_unescape
                         (soup_get_text
                            (decompose_all [u "script"; u "style"] sp))
                       = Raise e))) →
  analyze_item item = Raise e.
Proof.
  unfold analyze_item.
  intros [-> | (returned & -> & Hrest)]; [done |].
  cbn [mbind result_bind].
  destruct Hrest as [-> | (content & -> & Hrest)]; [done |].
  cbn [mbind result_bind].
  destruct Hrest as [Hparse | (sp & Hparse & Htext)].
  - by rewrite Hparse.
  - rewrite Hparse. cbn [mbind result_bind].
    unfold html_to_text. rewrite Hparse. cbn [mbind result_bind].
    destruct (find [u "title"] sp), (find [u "h1"; u "h2"] sp);
      cbn [mbind result_bind mret result_ret];
      by rewrite (clean_text_raise _ _ Htext).
Qed.

(** X7.  When the container opens, [analyze_epub] works through the
    document parts in the order of the container and leaves the parts of
    other types out.  When for every document part [get_content]
    returns, its result decodes, the parser accepts the markup and entity
    decoding of the extracted text returns, there is one record per
    document part: its derived title and the frequencies of the words of
    its normalized text.  When one of these four stages raises for some
    document part, the result is the empty list. *)
Theorem analyze_epub_records (read_epub : storage) (path : str)
    (book : EpubBook) :
  read_epub path = Ok book →
  let names := [u "script"; u "style"] in
  let returns item returned content sp T :=
    get_content item = Ok returned ∧ decode returned = Ok content
    ∧ html_parser content = Ok sp
    ∧ html_unescape (soup_get_text (decompose_all names sp)) = Ok T in
  (Forall (λ item, ∃ returned content sp T, returns item returned content sp T)
          (get_items_of_type book ITEM_DOCUMENT) →
   Forall2 (λ item ch, ∃ returned content sp T,
              returns item returned content sp T
              ∧ ch.1 = derived_title (get_name item) sp
              ∧ ch.2 = get_word_frequencies (normalized T))
           (get_items_of_type book ITEM_DOCUMENT)
           (analyze_epub read_epub path))
  ∧ (∀ item e,
       item ∈ get_items_of_type book ITEM_DOCUMENT →
       get_content item = Raise e
       ∨ (∃ returned, get_content item = Ok returned
            ∧ (decode returned = Raise e
               ∨ ∃ content, decode returned = Ok content
                   ∧ (html_parser content = Raise e
                      ∨ ∃ sp, html_parser content = Ok sp
                          ∧ html_unescape
                              (soup_get_text (decompose_all names sp))
                            = Raise e))) →
       analyze_epub read_epub path = []).
Proof.
  intros Hbook names returns. split.
  - intros Hall. unfold analyze_epub, analyze_epub_try. rewrite Hbook.
    cbn [mbind result_bind].
    set (record := λ item : EpubItem,
           match analyze_item item with
           | Ok r => r
           | Raise _ => ([], ∅)
           end).
    assert (Hrecord : ∀ item returned content sp T,
              returns item returned content sp T →
              analyze_item item
              = Ok (derived_title (get_name item) sp,
                    get_word_frequencies (normalized T))).
    { intros item returned content sp T (Hget & Hdecode & Hparse & Htext).
      by apply (analyze_item_run _ returned content). }
    rewrite (analyze_parts_ok _ record).
    + apply Forall2_fmap_r, Forall_Forall2_diag.
      eapply Forall_impl; [exact Hall |].
      intros item (returned & content & sp & T & Hreturns).
      exists returned, content, sp, T. unfold compose. subst record.
      cbn beta. by rewrite (Hrecord _ _ _ _ _ Hreturns).
    + intros item Hitem. rewrite Forall_forall in Hall.
      destruct (Hall item Hitem) as (returned & content & sp & T & Hreturns).
      subst record. cbn beta. by rewrite (Hrecord _ _ _ _ _ Hreturns).
  - intros item e Hitem Hraise%analyze_item_raise.
    unfold analyze_epub, analyze_epub_try. rewrite Hbook.
    cbn [mbind result_bind].
    edestruct (for_each_raise
      (λ chapter_analyses item,
         analysis ← analyze_item item; mret (chapter_analyses ++ [analysis]))
      _ item Hitem) as [e' ->]; [| done].
    intros acc. exists e. by rewrite Hraise.
Qed.

End ExtractorRecords.

Lemma html_to_text_drops_script_style_witness :
  html_to_text (H := Reference.library)
    (u "<p>um</p><script>var x;</script><style>p {}</style><p>dois</p>")
  = Ok (u "umdois").
Proof.
  destruct (html_to_text_drops_script_style (H := Reference.library)
              (u "<p>um</p><script>var x;</script><style>p {}</style><p>dois</p>")
              (Reference.parse
                 (u "<p>um</p><script>var x;</script><style>p {}</style><p>dois</p>"))
              eq_refl)
    as (kept & _ & _ & -> & _).
  by_evaluation.
Defined.

(** What the reference library hands over for the parts of a book with
    a cover. *)
Lemma reference_stages (item : EpubItem) :
  let content := Reference.handed_over item in
  let T := soup_get_text
             (decompose_all [u "script"; u "style"] (Reference.parse content)) in
  Reference.serialised item = Ok (Bytes (Reference.encode content)) →
  decode (Bytes (Reference.encode content)) = Ok content →
  Reference.unescape T = Ok T →
  ∃ returned content sp T,
    get_content (Library := Reference.library) item = Ok returned
    ∧ decode returned = Ok content
    ∧ html_parser (Library := Reference.library) content = Ok sp
    ∧ html_unescape (Library := Reference.library)
        (soup_get_text (decompose_all [u "script"; u "style"] sp))
      = Ok T.
Proof.
  intros content T Hget Hdecode Htext.
  exists (Bytes (Reference.encode content)), content,
         (Reference.parse content), T.
  by split_and!.
Qed.

Lemma analyze_epub_records_witness :
  length (analyze_epub (H := Reference.library)
            (shelf [ch1_item; cover_item; subheading_item]) (u "book.epub"))
  = 2%nat.
Proof.
  destruct (analyze_epub_records (H := Reference.library)
       (shelf [ch1_item; cover_item; subheading_item]) (u "book.epub")
       {| get_items := [ch1_item; cover_item; subheading_item] |}
       eq_refl) as [Hrecords _].
  rewrite <- (Forall2_length _ _ _ (Hrecords ltac:(
    change (get_items_of_type
              {| get_items := [ch1_item; cover_item; subheading_item] |}
              ITEM_DOCUMENT)
      with [ch1_item; subheading_item];
    repeat constructor; apply reference_stages; by_evaluation))).
  reflexivity.
Defined.

(** ** The files of the export *)

Lemma chapter_rows_elem sort_by min_frequency frequencies w c :
  [Cstr w; Cint c] ∈ chapter_rows sort_by min_frequency frequencies
  ↔ frequencies !! w = Some c ∧ (min_frequency ≤ c)%Z.
Proof.
  unfold chapter_rows. rewrite elem_of_cons, list_elem_of_fmap.
  rewrite <- filter_frequencies_lookup. split.
  - intros [[=] | ([w' c'] & [= -> ->] & Hin)].
    rewrite sorted_words_perm in Hin. by apply elem_of_map_to_list in Hin.
  - intros Hw. right. exists (w, c). split; [done |].
    rewrite sorted_words_perm. by apply elem_of_map_to_list.
Qed.

Lemma chapter_rows_length sort_by min_frequency frequencies :
  length (chapter_rows sort_by min_frequency frequencies)
  = S (size (filter_frequencies min_frequency frequencies)).
Proof.
  unfold chapter_rows. cbn [length]. rewrite length_map.
  by rewrite sorted_words_perm, length_map_to_list.
Qed.

Section ExportFiles.
Context `{Library}.

Lemma export_chapters_dirs dir min_frequency sort_by chapters fs :
  dirs (foldl (export_chapter dir min_frequency sort_by) fs chapters)
  = dirs fs.
Proof.
  revert fs. induction chapters as [|[t f] rest IH]; intros fs; [done |].
  cbn [foldl]. by rewrite IH.
Qed.

Lemma export_chapters_dom dir min_frequency sort_by chapters fs :
  dom (files (foldl (export_chapter dir min_frequency sort_by) fs chapters))
  =@{gset str}
  dom (files fs)
  ∪ list_to_set (map (λ ch, chapter_filename dir ch.1) chapters).
Proof.
  revert fs. induction chapters as [|[t f] rest IH]; intros fs.
  - cbn [foldl map list_to_set]. by rewrite (right_id_L ∅ (∪)).
  - cbn [foldl map list_to_set]. rewrite IH.
    cbn [export_chapter write_csv files fst]. rewrite dom_insert_L.
    apply set_eq. intros x. rewrite !elem_of_union. tauto.
Qed.

(** X8.  The file system of the model takes every write; that the
    operating system refuses a path is outside of it.  When the export
    returns, it has added the output directory and no other; the files
    it leaves are those that were there, the combined file and one file
    per chapter file name; every file at another path keeps its content,
    so nothing outside the output directory is touched. *)
Theorem export_to_csv_frame (timestamp : str) (chapters : list chapter)
    (min_frequency : Z) (sort_by : str) (fs fs' : FileSystem) :
  export_to_csv timestamp chapters min_frequency sort_by fs = Ok fs' →
  dirs fs' = {[output_dir timestamp]} ∪ dirs fs
  ∧ dom (files fs')
    =@{gset str}
    dom (files fs) ∪ {[combined_filename timestamp]}
    ∪ list_to_set (map (λ ch, chapter_filename (output_dir timestamp) ch.1)
                       chapters)
  ∧ (∀ path,
       path ≠ combined_filename timestamp →
       (∀ ch, ch ∈ chapters →
              chapter_filename (output_dir timestamp) ch.1 ≠ path) →
       files fs' !! path = files fs !! path)
  ∧ (∀ path,
       ¬ (output_dir timestamp ++ u "/") `prefix_of` path →
       files fs' !! path = files fs !! path).
Proof.
  rewrite export_to_csv_eq. cbv zeta. intros [= <-].
  assert (Hframe : ∀ path,
    path ≠ combined_filename timestamp →
    (∀ ch, ch ∈ chapters →
           chapter_filename (output_dir timestamp) ch.1 ≠ path) →
    files (write_csv (combined_filename timestamp)
             (combined_header chapters
              :: map (combined_row_of min_frequency chapters)
                     (sorted_all_words sort_by
                        (foldl (collect min_frequency) (∅, ∅) chapters).1
                        (foldl (collect min_frequency) (∅, ∅) chapters).2))
             (foldl (export_chapter (output_dir timestamp) min_frequency
                                    sort_by)
                    (makedirs (output_dir timestamp) fs) chapters)) !! path
    = files fs !! path).
  { intros path Hcombined Hchapters. cbn [write_csv files].
    rewrite lookup_insert_ne by done.
    rewrite export_chapters_files. by rewrite last_filed_absent. }
  split_and!.
  - cbn [write_csv dirs]. by rewrite export_chapters_dirs.
  - cbn [write_csv files]. rewrite dom_insert_L, export_chapters_dom.
    cbn [makedirs files]. apply set_eq. intros x. rewrite !elem_of_union.
    tauto.
  - exact Hframe.
  - intros path Hprefix. apply Hframe.
    + intros ->. apply Hprefix. unfold combined_filename, path_join.
      rewrite app_assoc. by apply prefix_app_r.
    + intros ch _ <-. apply Hprefix. unfold chapter_filename, path_join.
      rewrite app_assoc. by apply prefix_app_r.
Qed.

(** X9.  The file of a chapter whose file name no later chapter shares
    holds the header row and one row per word of the chapter whose count
    reaches the threshold, with that count: a row [w, c] is in the file
    exactly when the chapter counts [w] [c] times and [c] is at least
    [min_frequency]. *)
Theorem chapter_file_contents (timestamp : str) (before : list chapter)
    (t : str) (frequencies : gmap str Z) (after : list chapter)
    (min_frequency : Z) (sort_by : str) (fs : FileSystem) :
  let dir := output_dir timestamp in
  (∀ ch, ch ∈ after → chapter_filename dir ch.1 ≠ chapter_filename dir t) →
  ∃ fs' rows,
    export_to_csv timestamp (before ++ (t, frequencies) :: after)
                  min_frequency sort_by fs = Ok fs'
    ∧ files fs' !! chapter_filename dir t
      = Some ([Cstr (u "Word"); Cstr (u "Frequency")] :: rows)
    ∧ length rows = size (filter_frequencies min_frequency frequencies)
    ∧ (∀ r, r ∈ rows → ∃ w c, r = [Cstr w; Cint c])
    ∧ (∀ w c, [Cstr w; Cint c] ∈ rows
              ↔ frequencies !! w = Some c ∧ (min_frequency ≤ c)%Z).
Proof.
  intros dir Hafter.
  pose proof (export_to_csv_eq timestamp (before ++ (t, frequencies) :: after)
                min_frequency sort_by fs) as Hexport. cbv zeta in Hexport.
  eexists _, _. split; [exact Hexport |]. split_and!.
  - cbn [write_csv files].
    rewrite lookup_insert_ne
      by (apply not_eq_sym, chapter_filename_not_combined).
    rewrite export_chapters_files. fold dir.
    rewrite last_filed_app. cbn [last_filed].
    rewrite last_filed_absent, bool_decide_eq_true_2 by done.
    reflexivity.
  - rewrite length_map. by rewrite sorted_words_perm, length_map_to_list.
  - intros r ([w c] & -> & _)%list_elem_of_fmap. by exists w, c.
  - intros w c. rewrite <- (chapter_rows_elem sort_by). unfold chapter_rows.
    rewrite elem_of_cons. split; [by right | by intros [[=] |]].
Qed.

End ExportFiles.

Lemma export_to_csv_frame_witness :
  ∃ fs',
    export_to_csv (H := Reference.library) (u "20250101_120000")
      twin_chapters 1 (u "frequency")
      {| dirs := ∅; files := {[ u "notes.csv" := [[Cstr (u "kept")]] ]} |}
    = Ok fs'
    ∧ dirs fs' = {[ u "word_frequency_analysis_20250101_120000" ]}
    ∧ files fs' !! u "notes.csv" = Some [[Cstr (u "kept")]].
Proof.
  pose proof (export_to_csv_eq (H := Reference.library) (u "20250101_120000")
                twin_chapters 1 (u "frequency")
                {| dirs := ∅;
                   files := {[ u "notes.csv" := [[Cstr (u "kept")]] ]} |})
    as Hexport. cbv zeta in Hexport.
  eexists. split; [exact Hexport |].
  destruct (export_to_csv_frame (H := Reference.library) _ _ _ _ _ _ Hexport)
    as (Hdirs & _ & _ & Houtside).
  split.
  - rewrite Hdirs. reflexivity.
  - rewrite Houtside; [reflexivity |].
    intros [k Hk]. apply (f_equal head) in Hk. vm_compute in Hk.
    discriminate.
Defined.

Lemma chapter_file_contents_witness :
  ∃ fs' rows,
    export_to_csv (H := Reference.library) (u "20250101_120000")
      ([(u "A", {[ u "x" := 1%Z ]})]
       ++ (u "B", {[ u "x" := 2%Z; u "y" := 1%Z ]}) :: [])
      2 (u "frequency") empty_fs = Ok fs'
    ∧ files fs' !! chapter_filename (H := Reference.library)
                     (output_dir (u "20250101_120000")) (u "B")
      = Some ([Cstr (u "Word"); Cstr (u "Frequency")] :: rows)
    ∧ length rows
      = size (filter_frequencies 2 {[ u "x" := 2%Z; u "y" := 1%Z ]})
    ∧ (∀ r, r ∈ rows → ∃ w c, r = [Cstr w; Cint c])
    ∧ (∀ w c, [Cstr w; Cint c] ∈ rows
              ↔ ({[ u "x" := 2%Z; u "y" := 1%Z ]} : gmap str Z) !! w = Some c
                ∧ (2 ≤ c)%Z).
Proof.
  apply (chapter_file_contents (H := Reference.library)
           (u "20250101_120000") [(u "A", {[ u "x" := 1%Z ]})] (u "B")
           {[ u "x" := 2%Z; u "y" := 1%Z ]} [] 2 (u "frequency") empty_fs).
  by intros ch ?%not_elem_of_nil.
Defined.

(** ** The rows of the combined table *)

Lemma Counter_update_lookup total frequencies w :
  default 0%Z (Counter_update total frequencies !! w)
  = (default 0 (total !! w) + default 0 (frequencies !! w))%Z.
Proof.
  unfold Counter_update. rewrite lookup_union_with.
  destruct (total !! w), (frequencies !! w); cbn; lia.
Qed.

Lemma total_frequencies_fold (l : list (str * gmap str Z)) acc w :
  default 0%Z (foldl (λ total tf, Counter_update total tf.2) acc l !! w)
  = (default 0 (acc !! w)
     + Zsum (map (λ tf : str * gmap str Z, default 0 (tf.2 !! w)) l))%Z.
Proof.
  revert acc. induction l as [|tf l IH]; intros acc.
  - cbn. lia.
  - cbn [foldl map]. rewrite IH, Counter_update_lookup.
    unfold Zsum. cbn [foldr]. lia.
Qed.

Lemma last_titled_title t chapters later :
  last_titled t chapters = Some later → t ∈ chapters.*1.
Proof.
  intros Hlast. destruct (decide (t ∈ chapters.*1)) as [Hin | Hnot]; [done |].
  by rewrite (last_titled_absent _ _ Hnot) in Hlast.
Qed.

Lemma title_last_titled t chapters :
  t ∈ chapters.*1 → is_Some (last_titled t chapters).
Proof.
  intros ([t' f] & -> & Hin)%list_elem_of_fmap.
  by eapply last_titled_elem.
Qed.

Lemma collected_counts_list min_frequency chapters :
  let column := λ t,
    (t, filter_frequencies min_frequency
          (default ∅ (last_titled t chapters))) in
  map_to_list (foldl (collect min_frequency) (∅, ∅) chapters).2
  ≡ₚ map column (remove_dups chapters.*1).
Proof.
  intros column.
  assert (Hkeys : (map column (remove_dups chapters.*1)).*1
                  = remove_dups chapters.*1).
  { rewrite <- list_fmap_compose. apply list_fmap_id. }
  assert (Hnodup : NoDup (map column (remove_dups chapters.*1)).*1).
  { rewrite Hkeys. apply NoDup_remove_dups. }
  rewrite <- (map_to_list_to_map (map column (remove_dups chapters.*1)))
    by done.
  replace (foldl (collect min_frequency) (∅, ∅) chapters).2
    with (list_to_map (map column (remove_dups chapters.*1))
          : gmap str (gmap str Z)); [done |].
  apply map_eq. intros t. rewrite collect_counts.
  destruct (last_titled t chapters) as [later |] eqn:Hlast.
  - apply elem_of_list_to_map_1; [done |].
    apply list_elem_of_fmap. exists t. split.
    + subst column. cbn beta. by rewrite Hlast.
    + apply elem_of_remove_dups. by eapply last_titled_title.
  - rewrite lookup_empty. apply not_elem_of_list_to_map_1.
    rewrite Hkeys, elem_of_remove_dups. intros Hin.
    destruct (title_last_titled _ _ Hin) as [later Hlater]. congruence.
Qed.

Lemma Zsum_map_perm {A} (f : A → Z) l k :
  l ≡ₚ k → Zsum (map f l) = Zsum (map f k).
Proof. intros Hperm. apply Zsum_perm. by rewrite Hperm. Qed.

Lemma total_frequencies_key min_frequency chapters w :
  default 0%Z
    (total_frequencies (foldl (collect min_frequency) (∅, ∅) chapters).2 !! w)
  = sort_key min_frequency chapters w.
Proof.
  unfold total_frequencies, sort_key.
  rewrite total_frequencies_fold, lookup_empty. cbn [default].
  rewrite (Zsum_map_perm _ _ _ (collected_counts_list min_frequency chapters)).
  rewrite map_map. cbn [snd]. rewrite Z.add_0_l. apply Zsum_ext.
  intros t _. unfold column_count, filtered_count.
  destruct (last_titled t chapters) as [later |]; [done |].
  cbn [default]. unfold filter_frequencies.
  by rewrite map_filter_empty, lookup_empty.
Qed.

Lemma StronglySorted_mono {A} (R R' : A → A → Prop) l :
  (∀ a b, R a b → R' a b) → StronglySorted R l → StronglySorted R' l.
Proof.
  intros HR. induction 1 as [|x l Hl IH Hx]; constructor; [done |].
  eapply Forall_impl; [exact Hx | by intros b; apply HR].
Qed.

Lemma remove_dups_NoDup {A} `{EqDecision A} (l : list A) :
  NoDup l → remove_dups l = l.
Proof.
  induction 1 as [|x l Hx Hl IH]; [done |].
  cbn [remove_dups]. destruct (decide_rel elem_of x l); [done |].
  by rewrite IH.
Qed.

Lemma map_fmap_fst {A B C} (g : A → C) (l : list (A * B)) :
  map g l.*1 = map (λ x, g x.1) l.
Proof. induction l as [|x l IH]; [done |]. cbn. by rewrite <- IH. Qed.

Lemma sort_key_distinct min_frequency chapters w :
  NoDup chapters.*1 →
  sort_key min_frequency chapters w = filtered_total min_frequency chapters w
  ∧ total_of (combined_row_of min_frequency chapters w)
    = Some (filtered_total min_frequency chapters w).
Proof.
  intros Hnodup.
  assert (Hsum :
    Zsum (map (λ ch : chapter, column_count min_frequency chapters ch.1 w)
              chapters)
    = filtered_total min_frequency chapters w).
  { apply Zsum_ext. intros [t f] Hin. unfold column_count. cbn [fst snd].
    by rewrite (last_titled_unique _ _ _ Hnodup Hin). }
  split.
  - unfold sort_key. rewrite (remove_dups_NoDup _ Hnodup).
    rewrite <- Hsum. f_equal.
    apply (map_fmap_fst (λ t, column_count min_frequency chapters t w)).
  - by rewrite total_of_combined_row, Hsum.
Qed.

Lemma word_of_combined_row min_frequency chapters w :
  word_of (combined_row_of min_frequency chapters w) = Some w.
Proof. done. Qed.

Lemma combined_row_length min_frequency chapters w :
  length (combined_row_of min_frequency chapters w)
  = length (combined_header chapters).
Proof.
  unfold combined_row_of, combined_header.
  by rewrite !length_app, !length_map.
Qed.

Section CombinedRows.
Context `{Library}.

(** X10.  The combined file holds the header and one row per word that
    reaches the threshold in at least one chapter, each such word once.
    Every row has as many cells as the header: the word, one cell per
    chapter of the input and the total. *)
Theorem combined_table_shape (timestamp : str) (chapters : list chapter)
    (min_frequency : Z) (sort_by : str) (fs : FileSystem) :
  ∃ fs' rows words,
    export_to_csv timestamp chapters min_frequency sort_by fs = Ok fs'
    ∧ files fs' !! combined_filename timestamp
      = Some (combined_header chapters :: rows)
    ∧ map word_of rows = map Some words
    ∧ NoDup words
    ∧ (∀ w, w ∈ words
            ↔ ∃ ch c, ch ∈ chapters ∧ ch.2 !! w = Some c
                      ∧ (min_frequency ≤ c)%Z)
    ∧ length (combined_header chapters) = (length chapters + 2)%nat
    ∧ Forall (λ r, length r = length (combined_header chapters)) rows.
Proof.
  pose proof (export_to_csv_eq timestamp chapters min_frequency sort_by fs)
    as Hexport. cbv zeta in Hexport.
  eexists _, _, _. split; [exact Hexport |]. split_and!.
  - cbn [write_csv files]. by rewrite lookup_insert_eq.
  - rewrite map_map. apply map_ext. intros w. apply word_of_combined_row.
  - rewrite sorted_all_words_perm. apply NoDup_elements.
  - intros w. rewrite sorted_all_words_perm, elem_of_elements, collect_words.
    split.
    + intros [Hempty | (ch & Hin & [c Hc])];
        [by apply not_elem_of_empty in Hempty |].
      apply filter_frequencies_lookup in Hc as [Hc Hmin]. by exists ch, c.
    + intros (ch & c & Hin & Hc & Hmin). right. exists ch. split; [done |].
      exists c. by apply filter_frequencies_lookup.
  - unfold combined_header. rewrite !length_app, length_map. cbn. lia.
  - apply Forall_fmap, Forall_forall. intros w _.
    apply combined_row_length.
Qed.

(** X11.  The rows of the combined file follow the policy.  Under the
    frequency policy they come in descending order of the sum, over the
    distinct titles, of the counts shown for the word, ties in ascending
    lexicographic order of the word; under any other policy in ascending
    lexicographic order of the word.  When the titles are pairwise
    distinct the sum is the Total shown in the row, the sum of the
    word's filtered counts. *)
Theorem combined_rows_order (timestamp : str) (chapters : list chapter)
    (min_frequency : Z) (sort_by : str) (fs : FileSystem) :
  ∃ fs' words,
    export_to_csv timestamp chapters min_frequency sort_by fs = Ok fs'
    ∧ files fs' !! combined_filename timestamp
      = Some (combined_header chapters
              :: map (combined_row_of min_frequency chapters) words)
    ∧ (sort_by = u "frequency" →
       StronglySorted
         (λ a b, frequency_order (a, sort_key min_frequency chapters a)
                                 (b, sort_key min_frequency chapters b))
         words)
    ∧ (sort_by ≠ u "frequency" → StronglySorted lex_le words)
    ∧ (NoDup chapters.*1 →
       ∀ w, sort_key min_frequency chapters w
            = filtered_total min_frequency chapters w
            ∧ total_of (combined_row_of min_frequency chapters w)
              = Some (filtered_total min_frequency chapters w)).
Proof.
  pose proof (export_to_csv_eq timestamp chapters min_frequency sort_by fs)
    as Hexport. cbv zeta in Hexport.
  eexists _, _. split; [exact Hexport |]. split_and!.
  - cbn [write_csv files]. by rewrite lookup_insert_eq.
  - intros ->. unfold sorted_all_words. rewrite bool_decide_eq_true_2 by done.
    cbv zeta.
    apply (StronglySorted_mono
             (λ a b, frequency_order
                (a, default 0%Z
                      (total_frequencies
                         (foldl (collect min_frequency) (∅, ∅) chapters).2
                       !! a))
                (b, default 0%Z
                      (total_frequencies
                         (foldl (collect min_frequency) (∅, ∅) chapters).2
                       !! b)))).
    + intros a b. cbn beta. by rewrite !total_frequencies_key.
    + apply sorted_strongly.
      * intros a b. apply by_frequency_sound.
      * intros a b. apply by_frequency_total.
      * intros a b c. apply frequency_order_trans.
  - intros Hother. unfold sorted_all_words.
    rewrite bool_decide_eq_false_2 by done.
    apply (sorted_strongly str_le lex_le).
    + intros a b. apply str_le_spec.
    + intros a b Hle. right. by apply str_le_total.
    + apply lex_le_trans.
  - intros Hnodup w. by apply sort_key_distinct.
Qed.

End CombinedRows.

Lemma combined_rows_order_witness :
  sort_key 1 [(u "A", {[ u "x" := 1%Z ]}); (u "B", {[ u "x" := 2%Z ]})]
           (u "x")
  = 3%Z.
Proof.
  destruct (combined_rows_order (H := Reference.library)
              (u "20250101_120000")
              [(u "A", {[ u "x" := 1%Z ]}); (u "B", {[ u "x" := 2%Z ]})]
              1 (u "frequency") empty_fs)
    as (fs' & words & _ & _ & _ & _ & Hdistinct).
  destruct (Hdistinct
              ltac:(vm_compute; repeat constructor; rewrite list_elem_of_In;
                    simpl; intuition discriminate)
              (u "x")) as [-> _].
  by_evaluation.
Defined.

(** ** The normalized text and its words *)

Lemma Counter_positive words w c :
  Counter words !! w = Some c → (1 ≤ c)%Z.
Proof.
  rewrite Counter_lookup.
  destruct (decide (w ∈ words)) as [Hin | Hnot]; [| done].
  intros [= <-]. unfold count_of.
  destruct (filter (λ x, x = w) words) as [|y l] eqn:Hfilter;
    [| simpl; lia].
  assert (Hw : w ∈ filter (λ x, x = w) words)
    by (by apply list_elem_of_filter).
  rewrite Hfilter in Hw. by apply not_elem_of_nil in Hw.
Qed.

(** X12.  A threshold of at most 1, the default and the value that the
    main block passes, filters nothing out of the frequencies of a
    text. *)
Theorem default_threshold_keeps_all (text : str) (min_frequency : Z) :
  (min_frequency ≤ 1)%Z →
  filter_frequencies min_frequency (get_word_frequencies text)
  = get_word_frequencies text.
Proof.
  intros Hmin. unfold filter_frequencies. apply map_filter_id.
  intros w c Hc. apply Counter_positive in Hc. cbn [snd]. lia.
Qed.

Lemma default_threshold_keeps_all_witness :
  filter_frequencies 1 (get_word_frequencies (u "a b a"))
  = get_word_frequencies (u "a b a").
Proof. apply (default_threshold_keeps_all (u "a b a") 1). lia. Defined.

Section CanonicalText.
Context `{Library}.

(** X13.  When entity decoding returns, the text returned by
    [clean_text] is its own words joined by single spaces, and these are
    the words of the text as it stands after the character filter:
    collapsing and trimming the whitespace changes no word and no
    count. *)
Theorem clean_text_canonical (input T : str) :
  html_unescape input = Ok T →
  ∃ out, clean_text input = Ok out
    ∧ join [SPACE] (split out) = out
    ∧ split out = split (sub_special (fold_compounds (folding_input T))).
Proof.
  intros Hdecoded.
  exists (normalized T). split; [by apply clean_text_ok |]. split.
  - unfold split. rewrite split_scan_join; [done | | |].
    + apply normalized_collapsed.
    + intros c. unfold normalized, strip. apply rstrip_last.
    + intros _. unfold normalized, strip.
      destruct (rstrip _) as [|d rest] eqn:Hout; [done |].
      cbn [starts_solid]. eapply lstrip_head, rstrip_head.
      by rewrite Hout.
  - unfold normalized. apply split_tidy.
Qed.

End CanonicalText.

Lemma clean_text_canonical_witness :
  ∃ out, clean_text (H := Reference.library) (u " Bom dia,  Mundo! ") = Ok out
    ∧ join [SPACE] (split out) = out
    ∧ split out
      = split (sub_special
                 (fold_compounds
                    (folding_input (H := Reference.library)
                       (u " Bom dia,  Mundo! ")))).
Proof.
  apply (clean_text_canonical (H := Reference.library)
           (u " Bom dia,  Mundo! ") (u " Bom dia,  Mundo! ")).
  by_evaluation.
Defined.

(** ** The names of the per-chapter files *)

Lemma replace_single a b s :
  replace [a] [b] s = map (λ c, if c =? a then b else c) s.
Proof.
  unfold replace. induction s as [|c s IH]; [done |].
  cbn [replace_scan startswith length Nat.sub map].
  rewrite andb_true_r, (N.eqb_sym a c).
  destruct (c =? a); cbn [app]; by rewrite IH.
Qed.

Lemma space_literal : u " " = [SPACE].
Proof. by_evaluation. Qed.

Lemma underscore_literal : u "_" = [UNDERSCORE].
Proof. by_evaluation. Qed.

Section FileNames.
Context `{Library}.

Lemma sub_filename_keeps c :
  c = SPACE ∨ c = UNDERSCORE → sub_filename [c] = [c].
Proof.
  intros Hc. unfold sub_filename. rewrite filter_cons_True; [done |].
  destruct Hc as [-> | ->]; by destruct (isalnum _).
Qed.

(** X14.  The file of a chapter lies in the output directory under the
    title with the characters outside letters, digits, underscore,
    whitespace and hyphen removed and each space replaced by an
    underscore, followed by [_frequencies.csv].  The name holds no
    space, and two titles that differ by a space against an underscore
    have the same file. *)
Theorem chapter_filename_shape (dir t : str) :
  let clean :=
    map (λ c, if c =? SPACE then UNDERSCORE else c) (sub_filename t) in
  chapter_filename dir t = dir ++ u "/" ++ clean ++ u "_frequencies.csv"
  ∧ (SPACE ∉ clean)
  ∧ Forall (λ c, c ∈ t ∨ c = UNDERSCORE) clean
  ∧ ∀ a b, chapter_filename dir (a ++ [SPACE] ++ b)
           = chapter_filename dir (a ++ [UNDERSCORE] ++ b).
Proof.
  assert (Hname : ∀ t', chapter_filename dir t'
    = dir ++ u "/"
      ++ map (λ c, if c =? SPACE then UNDERSCORE else c) (sub_filename t')
      ++ u "_frequencies.csv").
  { intros t'. unfold chapter_filename, path_join.
    by rewrite space_literal, underscore_literal, replace_single. }
  intros clean. split_and!.
  - apply Hname.
  - subst clean. intros (c & Hc & _)%list_elem_of_fmap.
    destruct (c =? SPACE) eqn:Heq; [done |].
    apply N.eqb_neq in Heq. congruence.
  - subst clean. apply Forall_fmap, Forall_forall. intros c Hc.
    unfold compose. destruct (c =? SPACE); [by right |]. left.
    unfold sub_filename in Hc. by apply list_elem_of_filter in Hc as [_ Hc].
  - intros a b. rewrite !Hname. do 2 f_equal.
    unfold sub_filename. rewrite !filter_app.
    fold (sub_filename [SPACE]). fold (sub_filename [UNDERSCORE]).
    rewrite !sub_filename_keeps by auto.
    by rewrite !map_app.
Qed.

End FileNames.

(** ** The console reports *)

Lemma reverse_compounds_table :
  forallb (λ pq, bool_decide (reverse_compounds !! pq.2 = Some pq.1))
          PORTUGUESE_COMPOUNDS = true.
Proof. by_evaluation. Qed.

Lemma reverse_compounds_items :
  forallb (λ qp, bool_decide ((qp.2, qp.1) ∈ PORTUGUESE_COMPOUNDS))
          (map_to_list reverse_compounds) = true.
Proof. by_evaluation. Qed.

Lemma reverse_compounds_size :
  size reverse_compounds = length PORTUGUESE_COMPOUNDS.
Proof. by_evaluation. Qed.

(** X15.  The reverse mapping of [print_compounds_found] is the inverse
    of the compound table: a placeholder is mapped to a phrase exactly
    when the table maps the phrase to it.  No two phrases share a
    placeholder, so no entry is lost. *)
Theorem reverse_compounds_inverse (p q : str) :
  ((p, q) ∈ PORTUGUESE_COMPOUNDS ↔ reverse_compounds !! q = Some p)
  ∧ size reverse_compounds = length PORTUGUESE_COMPOUNDS.
Proof.
  split; [| apply reverse_compounds_size]. split.
  - intros Hin. apply list_elem_of_In in Hin.
    pose proof (proj1 (forallb_forall _ _) reverse_compounds_table _ Hin)
      as Hq.
    by apply bool_decide_eq_true in Hq.
  - intros Hq. apply elem_of_map_to_list, list_elem_of_In in Hq.
    pose proof (proj1 (forallb_forall _ _) reverse_compounds_items _ Hq)
      as Hp.
    by apply bool_decide_eq_true in Hp.
Qed.







Section Reports.
Context `{Library}.




Variable number : Z → Prop.












End Reports.

Section ReportFacts.
Context `{Library}.






End ReportFacts.






(** The reports of the scenario as a UTF-8 console shows them. *)
Example compound_report_of_scenario :
  print_compounds_found (H := Reference.library)
    [(u "Ch1", ch1_frequencies)]
  = Ok [NEWLINE :: u "=== Compound Expressions Analysis ===";
        NEWLINE :: u "Chapter: Ch1";
        u "'o que' appears 2 times";
        NEWLINE :: u "Total Compound Expressions Across All Chapters:";
        u "'o que': 2 total occurrences"].
Proof. by_evaluation. Qed.

Example chapter_report_of_scenario :
  print_chapter_analysis_lines (H := Reference.library)
    (u "20250101_120000") [(u "Ch1", ch1_frequencies)] (u "text")
    1 (u "frequency") true empty_fs
  = Ok [NEWLINE :: u "=== Compound Expressions Analysis ===";
        NEWLINE :: u "Chapter: Ch1";
        u "'o que' appears 2 times";
        NEWLINE :: u "Total Compound Expressions Across All Chapters:";
        u "'o que': 2 total occurrences";
        NEWLINE :: u "=== Ch1 ===";
        u "Total unique words: 3";
        NEWLINE :: u "Word Frequencies:";
        u "isso: 2"; u "o_que: 2"; u "é: 2";
        NEWLINE :: u "Chapter Statistics:";
        u "Total words: 6";
        u "Unique words: 3";
        NEWLINE :: u "CSV files exported to directory: word_frequency_analysis_20250101_120000";
        u "Individual chapter files and combined analysis have been created."].
Proof. by_evaluation. Qed.

(** A line that holds a lone surrogate stops the report on a UTF-8
    console, and a count of 4301 digits stops it on any console. *)
Example surrogate_title_stops_report :
  print_compounds_found (H := Reference.library)
    [([0xD800], {[ u "o_que" := 1%Z ]})]
  = Raise UnicodeEncodeError.
Proof. by_evaluation. Qed.

Example long_count_stops_report :
  print_compounds_found (H := Reference.lenient)
    [(u "Ch1", {[ u "o_que" := (10 ^ 4300)%Z ]})]
  = Raise ValueError.
Proof. by_evaluation. Qed.

(** ** The columns of the combined table *)

Section CombinedColumns.
Context `{Library}.

(** X18.  When the titles are pairwise distinct, the column of each
    chapter in the combined file is headed by the chapter's title and
    shows, in the row of every word, the chapter's own filtered count
    of the word: the count if it reaches the threshold, 0 otherwise. *)
Theorem combined_columns_distinct (timestamp : str)
    (chapters : list chapter) (min_frequency : Z) (sort_by : str)
    (fs : FileSystem) (i : nat) (t : str) (frequencies : gmap str Z) :
  NoDup chapters.*1 →
  chapters !! i = Some (t, frequencies) →
  ∃ fs' rows,
    export_to_csv timestamp chapters min_frequency sort_by fs = Ok fs'
    ∧ files fs' !! combined_filename timestamp
      = Some (combined_header chapters :: rows)
    ∧ combined_header chapters !! S i = Some (Cstr t)
    ∧ ∀ r, r ∈ rows →
        ∃ w, word_of r = Some w
             ∧ r !! S i
               = Some (Cint (match frequencies !! w with
                             | Some c =>
                               if decide (min_frequency ≤ c)%Z then c else 0%Z
                             | None => 0%Z
                             end)).
Proof.
  intros Hnodup Hi.
  pose proof (export_to_csv_eq timestamp chapters min_frequency sort_by fs)
    as Hexport. cbv zeta in Hexport.
  eexists _, _. split; [exact Hexport |]. split_and!.
  - cbn [write_csv files]. by rewrite lookup_insert_eq.
  - by eapply combined_header_column.
  - intros r (w & -> & _)%list_elem_of_fmap. exists w. split; [done |].
    rewrite (combined_row_column _ _ _ _ _ _ Hi). do 2 f_equal.
    unfold column_count.
    rewrite (last_titled_unique _ _ _ Hnodup
               (list_elem_of_lookup_2 _ _ _ Hi)).
    unfold filtered_count.
    destruct (frequencies !! w) as [c |] eqn:Hw.
    + destruct (decide (min_frequency ≤ c)%Z) as [Hmin | Hmin].
      * by rewrite (proj2 (filter_frequencies_lookup _ _ _ _)
                          (conj Hw Hmin)).
      * destruct (filter_frequencies min_frequency frequencies !! w)
          as [c' |] eqn:Hfiltered; [| done].
        apply filter_frequencies_lookup in Hfiltered as [Hc' Hmin'].
        rewrite Hw in Hc'. injection Hc' as <-. lia.
    + destruct (filter_frequencies min_frequency frequencies !! w)
        as [c' |] eqn:Hfiltered; [| done].
      apply filter_frequencies_lookup in Hfiltered as [Hc' _]. congruence.
Qed.

End CombinedColumns.

Lemma combined_columns_distinct_witness :
  ∃ fs' rows,
    export_to_csv (H := Reference.library) (u "20250101_120000")
      [(u "A", {[ u "x" := 1%Z ]}); (u "B", {[ u "x" := 2%Z ]})]
      2 (u "frequency") empty_fs = Ok fs'
    ∧ files fs' !! combined_filename (u "20250101_120000")
      = Some (combined_header
                [(u "A", {[ u "x" := 1%Z ]}); (u "B", {[ u "x" := 2%Z ]})]
              :: rows)
    ∧ combined_header
        [(u "A", {[ u "x" := 1%Z ]}); (u "B", {[ u "x" := 2%Z ]})] !! 1%nat
      = Some (Cstr (u "A"))
    ∧ ∀ r, r ∈ rows →
        ∃ w, word_of r = Some w
             ∧ r !! 1%nat
               = Some (Cint (match ({[ u "x" := 1%Z ]} : gmap str Z) !! w with
                             | Some c => if decide (2 ≤ c)%Z then c else 0%Z
                             | None => 0%Z
                             end)).
Proof.
  apply (combined_columns_distinct (H := Reference.library)
           (u "20250101_120000")
           [(u "A", {[ u "x" := 1%Z ]}); (u "B", {[ u "x" := 2%Z ]})]
           2 (u "frequency") empty_fs 0 (u "A") {[ u "x" := 1%Z ]}).
  - vm_compute. repeat constructor; rewrite list_elem_of_In; simpl;
      intuition discriminate.
  - reflexivity.
Defined.
